(** * nanograph: message normalisation and system-prompt editing

    A shallow embedding of [src/messages.py] (module [Lib] below) and of
    [src/nanograph/_utils/messages.py] (module [Utils] below).

    The Python functions work on lists and dicts that are shared by
    reference: [list(messages)] copies the list but not the message
    records in it, [return messages] hands the caller's own list back, and
    [msg["content"] += ...] writes into a record the caller still holds.
    The embedding therefore keeps an explicit object store: a value is
    either immutable ([None], an int, a str) or a reference into the store,
    and every function is a computation that threads the store and may
    raise. *)

From stdpp Require Import base numbers strings list option gmap.

Local Open Scope string_scope.
Local Open Scope list_scope.
Local Open Scope nat_scope.

(** ** Values, objects and the store *)

Definition loc := nat.

Inductive val : Type :=
| VNone
| VInt (n : Z)
| VStr (s : string)
| VRef (l : loc).

Inductive obj : Type :=
| OList (items : list val)
| OTuple (items : list val)
| ODict (d : gmap string val).

(** The store: location [l] holds the [l]-th allocated object. *)
Abbreviation heap := (list obj).

Inductive pytype : Type := TNoneType | TInt | TStr | TList | TTuple | TDict.

(** The exceptions the modelled code can raise.  [BadRef] is not a Python
    exception: it is the model's answer when a reference points outside the
    store, which no Python program can observe. *)
Inductive exn : Type :=
| TypeError
| KeyError
| IndexError
| ValueError (msg : string)
| BadRef.

Global Instance val_eq_dec : EqDecision val.
Proof. solve_decision. Defined.

Global Instance pytype_eq_dec : EqDecision pytype.
Proof. solve_decision. Defined.

Global Instance exn_eq_dec : EqDecision exn.
Proof. solve_decision. Defined.

(** ** The store-and-exception monad *)

Definition M (A : Type) : Type := heap → heap * (exn + A).

Global Instance M_ret : MRet M := λ A a h, (h, inr a).

Global Instance M_bind : MBind M := λ A B f m h,
  match m h with
  | (h', inr a) => f a h'
  | (h', inl e) => (h', inl e)
  end.

Definition raise {A : Type} (e : exn) : M A := λ h, (h, inl e).

(** [for x in xs: s = body x s], stopping at the first exception.  The
    loop runs over the elements the sequence had when the loop started.
    Python reads a list element by element while the loop runs; the two
    agree when the loop body does not write to the list it iterates over.
    That is so for every loop of the two modules but one, the loop of
    [add_context_to_messages] over a batch, whose body can extend the batch
    (through a record whose content is the batch list itself, which [+=]
    extends in place); that loop is [for_in] below. *)
Fixpoint for_fold {A S : Type} (xs : list A) (s : S) (body : A → S → M S) : M S :=
  match xs with
  | [] => mret s
  | x :: rest => s' ← body x s; for_fold rest s' body
  end.

Definition for_each {A : Type} (xs : list A) (body : A → M unit) : M unit :=
  for_fold xs tt (λ x _, body x).

(** [enumerate(xs)], counting from [i]. *)
Fixpoint enumerate_from {A : Type} (i : nat) (xs : list A) : list (nat * A) :=
  match xs with
  | [] => []
  | x :: rest => (i, x) :: enumerate_from (S i) rest
  end.

Definition enumerate {A : Type} (xs : list A) : list (nat * A) := enumerate_from 0 xs.

(** ** Store primitives *)

Definition alloc (o : obj) : M val := λ h, (h ++ [o], inr (VRef (length h))).

Definition read (l : loc) : M obj := λ h,
  match h !! l with
  | Some o => (h, inr o)
  | None => (h, inl BadRef)
  end.

Definition write (l : loc) (o : obj) : M unit := λ h, (<[l := o]> h, inr tt).

(** ** Python built-ins used by the two modules *)

Definition obj_type (o : obj) : pytype :=
  match o with OList _ => TList | OTuple _ => TTuple | ODict _ => TDict end.

Definition type_of (v : val) : M pytype :=
  match v with
  | VNone => mret TNoneType
  | VInt _ => mret TInt
  | VStr _ => mret TStr
  | VRef l => o ← read l; mret (obj_type o)
  end.

(** [isinstance(v, ts)]; [typing.List] and [typing.Dict] test for [list]
    and [dict]. *)
Definition isinstance (v : val) (ts : list pytype) : M bool :=
  t ← type_of v; mret (bool_decide (t ∈ ts)).

(** [needle in hay] on two strs: substring test. *)
Fixpoint str_contains (needle hay : string) : bool :=
  String.prefix needle hay ||
  match hay with
  | EmptyString => false
  | String _ rest => str_contains needle rest
  end.

(** The one-character strs that iterating over a str yields. *)
Fixpoint str_chars (s : string) : list val :=
  match s with
  | EmptyString => []
  | String c rest => VStr (String c EmptyString) :: str_chars rest
  end.

(** [k in v] for a str [k]: substring of a str, element of a list or tuple
    (an element equals a str only if it is that str), key of a dict, and a
    TypeError on anything that is not a container. *)
Definition py_contains (k : string) (v : val) : M bool :=
  match v with
  | VStr s => mret (str_contains k s)
  | VRef l =>
      o ← read l;
      match o with
      | OList xs | OTuple xs => mret (bool_decide (VStr k ∈ xs))
      | ODict d => mret (bool_decide (is_Some (d !! k)))
      end
  | VNone | VInt _ => raise TypeError
  end.

(** The elements a [for] loop or [list(v)] sees.  Dict keys are strs; the
    model enumerates them in the map's own order. *)
Definition py_iter (v : val) : M (list val) :=
  match v with
  | VStr s => mret (str_chars s)
  | VRef l =>
      o ← read l;
      match o with
      | OList xs | OTuple xs => mret xs
      | ODict d => mret (VStr <$> (map_to_list d).*1)
      end
  | VNone | VInt _ => raise TypeError
  end.

(** [v[k]] for a str key [k]. *)
Definition py_getitem_str (v : val) (k : string) : M val :=
  match v with
  | VRef l =>
      o ← read l;
      match o with
      | ODict d => match d !! k with Some x => mret x | None => raise KeyError end
      | OList _ | OTuple _ => raise TypeError
      end
  | VNone | VInt _ | VStr _ => raise TypeError
  end.

(** [v[i]] for a non-negative int [i]. *)
Definition py_getitem_nat (v : val) (i : nat) : M val :=
  match v with
  | VStr s => match str_chars s !! i with Some x => mret x | None => raise IndexError end
  | VRef l =>
      o ← read l;
      match o with
      | OList xs | OTuple xs =>
          match xs !! i with Some x => mret x | None => raise IndexError end
      | ODict _ => raise KeyError
      end
  | VNone | VInt _ => raise TypeError
  end.

(** [v[k] = x] for a str key [k]. *)
Definition py_setitem_str (v : val) (k : string) (x : val) : M unit :=
  match v with
  | VRef l =>
      o ← read l;
      match o with
      | ODict d => write l (ODict (<[k := x]> d))
      | OList _ | OTuple _ => raise TypeError
      end
  | VNone | VInt _ | VStr _ => raise TypeError
  end.

(** Truth value of [v], as [not v] and [if v] take it. *)
Definition py_truthy (v : val) : M bool :=
  match v with
  | VNone => mret false
  | VInt n => mret (bool_decide (n ≠ 0%Z))
  | VStr s => mret (bool_decide (s ≠ ""))
  | VRef l =>
      o ← read l;
      match o with
      | OList xs | OTuple xs => mret (bool_decide (xs ≠ []))
      | ODict d => mret (bool_decide (d ≠ ∅))
      end
  end.

(** [v += s] for a str [s]: a str is replaced by the concatenation, a list
    is extended in place by the characters of [s], anything else has no
    [+] with a str. *)
Definition py_iadd_str (v : val) (s : string) : M val :=
  match v with
  | VStr c => mret (VStr (c +:+ s))
  | VRef l =>
      o ← read l;
      match o with
      | OList xs => write l (OList (xs ++ str_chars s));; mret v
      | OTuple _ | ODict _ => raise TypeError
      end
  | VNone | VInt _ => raise TypeError
  end.

(** The two-character str that Python writes ["\n\n"]: two line feeds. *)
Definition two_newlines : string :=
  String (Ascii.ascii_of_nat 10) (String (Ascii.ascii_of_nat 10) EmptyString).

(** [list(v)]: a new list object holding the same elements. *)
Definition py_list (v : val) : M val := xs ← py_iter v; alloc (OList xs).

(** Operations on a list object.  The modelled code applies them only to
    lists it has just built. *)
Definition with_list {A : Type} (v : val) (k : loc → list val → M A) : M A :=
  match v with
  | VRef l => o ← read l; match o with OList xs => k l xs | _ => raise TypeError end
  | _ => raise TypeError
  end.

(** [v[i] = x] *)
Definition list_setitem (v : val) (i : nat) (x : val) : M unit :=
  with_list v (λ l xs,
    if decide (i < length xs) then write l (OList (<[i := x]> xs)) else raise IndexError).

(** [del v[i]] *)
Definition list_delitem (v : val) (i : nat) : M unit :=
  with_list v (λ l xs,
    if decide (i < length xs) then write l (OList (delete i xs)) else raise IndexError).

(** [v.insert(i, x)] *)
Definition list_insert_at (v : val) (i : nat) (x : val) : M unit :=
  with_list v (λ l xs, write l (OList (take i xs ++ x :: drop i xs))).

(** [v.append(x)] *)
Definition list_append (v : val) (x : val) : M unit :=
  with_list v (λ l xs, write l (OList (xs ++ [x]))).

(** [for x in l: body x] over the list object at [l], from index [i] on,
    as Python runs it: the iterator keeps the list and an index and reads
    the list again each time round, so that it also visits what the body
    appends to the list.  [n] bounds the number of rounds. *)
Fixpoint for_live (n : nat) (l : loc) (i : nat) (body : val → M unit) : M unit :=
  match n with
  | 0 => mret tt
  | S n' =>
      o ← read l;
      match o with
      | OList xs =>
          match xs !! i with
          | Some x => body x;; for_live n' l (S i) body
          | None => mret tt
          end
      | OTuple _ | ODict _ => mret tt
      end
  end.

(** [for x in v: body x] with a body that may write to [v]: a list is read
    while the loop runs ([for_live], in at most [n] rounds), the elements of
    anything else are fixed when the loop starts. *)
Definition for_in (n : nat) (v : val) (body : val → M unit) : M unit :=
  is_list ← isinstance v [TList];
  if (is_list : bool) then
    match v with
    | VRef l => for_live n l 0 body
    | VNone | VInt _ | VStr _ => mret tt
    end
  else xs ← py_iter v; for_each xs body.

(** Modelled from the spec: the class [Message] of [types/completions/message.py],
    which is not part of the sources.  The spec calls a message a record with
    a [role] and a [content] field and shows it as the dict
    [{"role": ..., "content": ...}]; the code below reads it with
    [msg["role"]] and ["role" in msg].  [Message(role=r, content=c)] is taken
    to build a new dict with these two keys. *)
Definition Message (role content : val) : M val :=
  alloc (ODict {[ "role" := role; "content" := content ]}).

(** ** src/messages.py

    The [@logging.decorators.utility] wrapper and the [logger.error] calls
    only log; they are left out. *)

Module Lib.

Definition construct_message (content : val) (role : string) : M val :=
  Message (VStr role) content.

Definition validate_thread_of_messages (messages : val) : M val :=
  items ← py_iter messages;
  for_each items (λ message,
    has_role ← py_contains "role" message;
    if negb has_role then raise (ValueError "message must have a role")
    else mret tt);;
  mret messages.

Definition format_messages (messages : val) : M val :=
  is_str ← isinstance messages [TStr];
  if (is_str : bool) then
    m ← construct_message messages "user";
    alloc (OList [m])
  else
    is_list ← isinstance messages [TList];
    if negb is_list then
      has_role ← py_contains "role" messages;
      if (has_role : bool) then alloc (OList [messages])
      else raise (ValueError "messages must be a string, message, or a list of messages")
    else
      first ← py_getitem_nat messages 0;
      first_is_list ← isinstance first [TList];
      if negb first_is_list then validate_thread_of_messages messages
      else
        formatted_threads ← alloc (OList []);
        threads ← py_iter messages;
        for_each threads (λ thread,
          checked ← validate_thread_of_messages thread;
          list_append formatted_threads checked);;
        mret formatted_threads.

(** The comprehension
    [[i for i, msg in enumerate(msg_list) if msg["role"] == "system"]];
    the index list is local to [swap_system_prompt] and is kept as a
    plain list. *)
Definition system_indices (items : list val) : M (list nat) :=
  for_fold (enumerate items) [] (λ '(i, msg) acc,
    role ← py_getitem_str msg "role";
    mret (if decide (role = VStr "system") then acc ++ [i] else acc)).

(** The scan of [_add_context_to_sequence]: the index of the last
    system message, or [None]. *)
Definition last_system_idx (items : list val) : M (option nat) :=
  for_fold (enumerate items) None (λ '(i, msg) system_idx,
    role ← py_getitem_str msg "role";
    mret (if decide (role = VStr "system") then Some i else system_idx)).

Definition _add_context_to_sequence (context : string) (msg_sequence : val) : M val :=
  msg_list ← py_list msg_sequence;
  items ← py_iter msg_list;
  system_idx ← last_system_idx items;
  match system_idx with
  | Some i =>
      msg ← py_getitem_nat msg_list i;
      old ← py_getitem_str msg "content";
      new ← py_iadd_str old (two_newlines +:+ context);
      py_setitem_str msg "content" new
  | None =>
      m ← construct_message (VStr context) "system";
      list_insert_at msg_list 0 m
  end;;
  mret msg_list.

(** The loop over a batch is given one round more than the batch has
    threads when the loop starts.  No bound changes what the loop does
    ([add_context_rounds] below): an element that the loop finds behind the
    threads is a character that an edit has appended to the batch, and on
    it the edit raises. *)
Definition add_context_to_messages (messages : val) (context : string) : M val :=
  nonempty ← py_truthy messages;
  flat ← (if negb nonempty then mret true
          else first ← py_getitem_nat messages 0;
               nested ← isinstance first [TList; TTuple];
               mret (negb nested));
  if (flat : bool) then _add_context_to_sequence context messages
  else
    result ← alloc (OList []);
    seqs ← py_iter messages;
    for_in (S (length seqs)) messages (λ seq,
      r ← _add_context_to_sequence context seq;
      list_append result r);;
    mret result.

Definition swap_system_prompt (messages : val) (prompt : string) : M val :=
  msg_list ← py_list messages;
  items ← py_iter msg_list;
  indices ← system_indices items;
  match last indices with
  | Some last_system_idx =>
      m ← construct_message (VStr prompt) "system";
      list_setitem msg_list last_system_idx m;;
      for_each (reverse (removelast indices)) (λ idx, list_delitem msg_list idx)
  | None =>
      m ← construct_message (VStr prompt) "system";
      list_insert_at msg_list 0 m
  end;;
  mret msg_list.

(** [inherit_messages_from_kwargs(messages, *args, **kwargs)].  [kwargs]
    is the dict of the extra keyword arguments of the call; it belongs to
    the call alone, so [kwargs.pop] is not seen by anyone else.  The extra
    positional arguments are not used. *)
Definition inherit_messages_from_kwargs (messages : val) (kwargs : gmap string val) : M val :=
  if decide (messages = VNone) then
    match kwargs !! "messages" with
    | Some m =>
        truthy ← py_truthy m;
        if (truthy : bool) then format_messages m else mret VNone
    | None => mret VNone
    end
  else format_messages messages.

End Lib.

(** ** src/nanograph/_utils/messages.py *)

Module Utils.

Definition determine_if_batch (messages : val) : M bool :=
  is_str ← isinstance messages [TStr];
  if (is_str : bool) then mret false
  else
    is_list ← isinstance messages [TList];
    if negb is_list then mret false
    else
      first ← py_getitem_nat messages 0;
      isinstance first [TList].

(** [not isinstance(message, Dict) or "role" not in message] *)
Definition invalid_message (message : val) : M bool :=
  is_dict ← isinstance message [TDict];
  if negb is_dict then mret true
  else has_role ← py_contains "role" message; mret (negb has_role).

Definition format_messages (messages : val) : M val :=
  is_str ← isinstance messages [TStr];
  if (is_str : bool) then
    m ← alloc (ODict {[ "role" := VStr "user"; "content" := messages ]});
    alloc (OList [m])
  else
    batch ← determine_if_batch messages;
    if (batch : bool) then
      threads ← py_iter messages;
      for_each (enumerate threads) (λ '(thread_idx, thread),
        msgs ← py_iter thread;
        for_each msgs (λ message,
          bad ← invalid_message message;
          if (bad : bool) then raise (ValueError "Invalid message format") else mret tt));;
      mret messages
    else
      is_dict ← isinstance messages [TDict];
      has_role ← (if (is_dict : bool) then py_contains "role" messages else mret false);
      if (has_role : bool) then alloc (OList [messages])
      else
        is_list ← isinstance messages [TList];
        if negb is_list then raise (ValueError "Invalid messages format")
        else
          msgs ← py_iter messages;
          for_each msgs (λ message,
            bad ← invalid_message message;
            if (bad : bool) then raise (ValueError "Invalid message format") else mret tt);;
          mret messages.

End Utils.

(** ** Reading messages out of a store *)

(** The value under ["role"] when [m] is a dict that has the key. *)
Definition role_of (h : heap) (m : val) : option val :=
  match m with
  | VRef l => match h !! l with Some (ODict d) => d !! "role" | _ => None end
  | _ => None
  end.

(** [m] is a message record: a dict with a ["role"] key. *)
Definition has_role (h : heap) (m : val) : Prop := is_Some (role_of h m).

(** [t] is a list of message records. *)
Definition valid_thread (h : heap) (t : val) : Prop :=
  ∃ l items, t = VRef l ∧ h !! l = Some (OList items) ∧ Forall (has_role h) items.

(** [m] is a message record whose role is the str ["system"]. *)
Definition is_system (h : heap) (m : val) : bool :=
  bool_decide (role_of h m = Some (VStr "system")).

(** The record [{"role": role, "content": content}] with str content. *)
Definition record (role content : string) : obj :=
  ODict {[ "role" := VStr role; "content" := VStr content ]}.

(** The system message [Message(role="system", content=c)]. *)
Definition system_record (c : string) : obj := record "system" c.

(** The positions, counted from [i], of the elements that satisfy [p]. *)
Fixpoint positions (p : val → bool) (i : nat) (xs : list val) : list nat :=
  match xs with
  | [] => []
  | x :: rest => if p x then i :: positions p (S i) rest else positions p (S i) rest
  end.

(** Python's [==] on the values of the model, in one store: a value equals
    itself, two lists (two tuples) are equal when they have equal elements
    in the same order, two dicts when they have the same keys with equal
    values. *)
#[warnings="-register-all"]
Inductive py_eq (h : heap) : val → val → Prop :=
| py_eq_same v : py_eq h v v
| py_eq_list l1 l2 xs ys :
    h !! l1 = Some (OList xs) → h !! l2 = Some (OList ys) →
    Forall2 (py_eq h) xs ys → py_eq h (VRef l1) (VRef l2)
| py_eq_tuple l1 l2 xs ys :
    h !! l1 = Some (OTuple xs) → h !! l2 = Some (OTuple ys) →
    Forall2 (py_eq h) xs ys → py_eq h (VRef l1) (VRef l2)
| py_eq_dict l1 l2 (d1 d2 : gmap string val) :
    h !! l1 = Some (ODict d1) → h !! l2 = Some (ODict d2) →
    (∀ k, option_Forall2 (py_eq h) (d1 !! k) (d2 !! k)) →
    py_eq h (VRef l1) (VRef l2).

(** ** Stores used as examples *)

(** The thread [[sys_a, sys_b, user]] at location 3, with its three
    records at locations 0, 1 and 2. *)
Definition two_system_store : heap :=
  [record "system" "a"; record "system" "b"; record "user" "hi";
   OList [VRef 0; VRef 1; VRef 2]].

(** The thread [[user]] at location 1. *)
Definition user_only_store : heap := [record "user" "hi"; OList [VRef 0]].

(** The empty list at location 0. *)
Definition empty_list_store : heap := [OList []].

(** The batch [[[sys_a], [{"content": "x"}]]] at location 4: the record of
    the second thread has no role. *)
Definition broken_batch_store : heap :=
  [record "system" "a"; OList [VRef 0];
   ODict {[ "content" := VStr "x" ]}; OList [VRef 2];
   OList [VRef 1; VRef 3]].

(** The thread [[user, {"content": "x"}, user]] at location 2: its second
    element has no role. *)
Definition broken_thread_store : heap :=
  [record "user" "hi"; ODict {[ "content" := VStr "x" ]};
   OList [VRef 0; VRef 1; VRef 0]].

(** The batch [[[user], [sys_a, user]]] at location 5. *)
Definition batch_store : heap :=
  [record "user" "hi"; OList [VRef 0];
   record "system" "a"; record "user" "yo"; OList [VRef 2; VRef 3];
   OList [VRef 1; VRef 4]].

(** The list [["role play"]] at location 0: its one element is a str. *)
Definition role_play_store : heap := [OList [VStr "role play"]].

(** The thread [[sys]] at location 2; the content of [sys] is structured,
    the dict [{"type": "text"}] at location 0. *)
Definition structured_content_store : heap :=
  [ODict {[ "type" := VStr "text" ]};
   ODict {[ "role" := VStr "system"; "content" := VRef 0 ]};
   OList [VRef 1]].

(** The thread [[sys]] at location 2; the content of [sys] is the list
    [["part"]] at location 0. *)
Definition list_content_store : heap :=
  [OList [VStr "part"];
   ODict {[ "role" := VStr "system"; "content" := VRef 0 ]};
   OList [VRef 1]].

(** The batch [[[sys]]] at location 2; the content of [sys] is the batch
    itself. *)
Definition self_content_store : heap :=
  [ODict {[ "role" := VStr "system"; "content" := VRef 2 ]};
   OList [VRef 0];
   OList [VRef 1]].

Global Arguments list_setitem : simpl never.
Global Arguments list_delitem : simpl never.
Global Arguments list_insert_at : simpl never.
Global Arguments list_append : simpl never.

(** The tuple [(user,)] at location 1. *)
Definition tuple_thread_store : heap := [record "user" "hi"; OTuple [VRef 0]].

(** [t] can be iterated and yields message records only. *)
Definition thread_like (h : heap) (t : val) : Prop :=
  ∃ msgs, py_iter t h = (h, inr msgs) ∧ Forall (has_role h) msgs.

(** [m] is a message record, and if its role is ["system"] its content is
    a str: the context append can edit it. *)
Definition editable_record (h : heap) (m : val) : Prop :=
  ∃ k d r, m = VRef k ∧ h !! k = Some (ODict d) ∧ d !! "role" = Some r ∧
           (r = VStr "system" → ∃ x, d !! "content" = Some (VStr x)).

(** [t] is a list of such records. *)
Definition editable_thread (h : heap) (t : val) : Prop :=
  ∃ l items, t = VRef l ∧ h !! l = Some (OList items) ∧
             Forall (editable_record h) items.

(** [m] is a system message whose content ends with [c]. *)
Definition carries_context (c : string) (h : heap) (m : val) : Prop :=
  ∃ k d c0, m = VRef k ∧ h !! k = Some (ODict d) ∧
            d !! "role" = Some (VStr "system") ∧
            d !! "content" = Some (VStr (c0 +:+ c)).

(** What the context append does to the objects it does not build, the
    list at [n] apart: it leaves an object alone, or it extends the str
    content of a record by a str that ends with [c]. *)
Definition context_grows (c : string) (n : loc) (h h' : heap) : Prop :=
  ∀ (k : loc) o, h !! k = Some o → k ≠ n →
    h' !! k = Some o ∨
    ∃ d x s, o = ODict d ∧ d !! "content" = Some (VStr x) ∧
             h' !! k = Some (ODict (<["content" := VStr (x +:+ s +:+ c)]> d)).

(** [o], in the store [h'], is the edit of the thread [t] of the store
    [h], where the objects below [n] are the caller's and those above [n]
    are new: a new list that holds the messages of [t] in their order,
    behind at most one more record, and that has a system message whose
    content ends with [c]. *)
Definition edited_thread (c : string) (n : nat) (h h' : heap) (t o : val) : Prop :=
  ∃ (lt : loc) items (lo : loc) out,
    t = VRef lt ∧ lt < n ∧ h !! lt = Some (OList items) ∧
    o = VRef lo ∧ n < lo ∧ h' !! lo = Some (OList out) ∧
    (out = items ∨ ∃ r, out = r :: items) ∧
    Exists (carries_context c h') out.

(** ** src/nanograph/_resource.py and src/nanograph/lib/resource.py

    [get_resource] and [get_litellm_resource] are the same code up to what
    they log; the calls to the logger and to the console are left out. *)

Module Resource.

(** The two globals of the module. *)
Record globals : Type := Globals {
  litellm_initialized : bool;
  resource_instance : val
}.

(** The globals as the module's top level sets them. *)
Definition initial : globals :=
  {| litellm_initialized := false; resource_instance := VNone |}.

(** [raise RuntimeError("Failed to initialize LiteLLM client.") from e] *)
Inductive error : Type := RuntimeError (cause : exn).

(** [get_resource()].  [new_resource] stands for the call
    [_LiteLLMResource()], which imports [litellm], builds the wrapper object
    and sets two flags of the library: a computation on the store that
    returns the new object or raises. *)
Definition get_resource (new_resource : M val) (g : globals) (h : heap)
    : globals * heap * (error + val) :=
  if negb (litellm_initialized g) then
    match new_resource h with
    | (h', inr r) =>
        ({| litellm_initialized := true; resource_instance := r |}, h', inr r)
    | (h', inl e) => (g, h', inl (RuntimeError e))
    end
  else (g, h, inr (resource_instance g)).

End Resource.

(** ** src/nanograph/_config.py and src/nanograph/_utils/core.py

    The state is what the two modules share with the rest of the process
    and what they keep for themselves: the paths that exist (those on which
    [os.path.exists] answers [True]), the sinks of the one loguru [logger],
    and the flag [_config_ensured], of which each module has its own.
    Whether the operating system lets a directory or a file be made is not
    decided by the model: it is the parameter [O], which can refuse any
    request with any error, having made any paths before it refused.
    [os.path.expanduser("~/.cache/nanograph")] is taken for a home
    directory [home] that is written without a slash at its end.  The
    [logger.info] of the verbose mode, and the call of
    [ensure_nanograph_config] that each module makes when it is imported,
    are left out. *)

Module Config.

Inductive sink : Type := FileSink (path : string) | RichSink.

Record world : Type := World {
  files : gset string;
  sinks : list sink;
  (** [_config_ensured] of [_config.py] *)
  config_ensured : bool;
  (** [_config_ensured] of [_utils/core.py] *)
  core_config_ensured : bool
}.

(** [FileExistsError], or another exception of the operating system or of
    loguru. *)
Inductive os_error : Type := FileExistsError | OtherError.

(** A request that fails: the exception, and the paths made before it. *)
Record refusal : Type := Refusal {
  raised : os_error;
  made : list string
}.

Record os : Type := Os {
  makedirs_refused : string → world → option refusal;
  add_refused : string → world → option refusal
}.

Definition cache_dir (home : string) : string := home +:+ "/.cache/nanograph".

(** [os.path.join(cache_dir, "logs.log")] *)
Definition log_file (home : string) : string := cache_dir home +:+ "/logs.log".

(** [os.path.exists(p)] *)
Definition path_exists (p : string) (w : world) : bool := bool_decide (p ∈ files w).

(** The character [/]. *)
Definition slash : Ascii.ascii := Ascii.ascii_of_nat 47.

(** The directories above a path: what stands before each of its
    slashes, the root for a slash at its start. *)
Fixpoint ancestors_from (pre p : string) : list string :=
  match p with
  | EmptyString => []
  | String c rest =>
      (if Ascii.eqb c slash then [if decide (pre = "") then "/" else pre] else [])
      ++ ancestors_from (pre +:+ String c "") rest
  end.

Definition ancestors (p : string) : list string := ancestors_from "" p.

Definition with_files (f : gset string) (w : world) : world :=
  {| files := f; sinks := sinks w; config_ensured := config_ensured w;
     core_config_ensured := core_config_ensured w |}.

(** [os.makedirs(p)]: refuses a path that exists, and whatever the
    operating system refuses; makes [p] and the directories above it. *)
Definition makedirs (O : os) (p : string) (w : world) : world * (os_error + unit) :=
  if path_exists p w then (w, inl FileExistsError)
  else
    match makedirs_refused O p w with
    | Some r => (with_files (list_to_set (made r) ∪ files w) w, inl (raised r))
    | None => (with_files ({[ p ]} ∪ list_to_set (ancestors p) ∪ files w) w, inr tt)
    end.

(** [logger.add(p)] for a path [p]: loguru makes the directories above
    [p], opens the file, which makes it exist ("create log file", say the
    comments of the source), and registers the sink; when it fails no sink
    is registered. *)
Definition logger_add (O : os) (p : string) (w : world) : world * (os_error + unit) :=
  match add_refused O p w with
  | Some r => (with_files (list_to_set (made r) ∪ files w) w, inl (raised r))
  | None =>
      ({| files := {[ p ]} ∪ list_to_set (ancestors p) ∪ files w;
          sinks := sinks w ++ [FileSink p];
          config_ensured := config_ensured w;
          core_config_ensured := core_config_ensured w |}, inr tt)
  end.

(** [validate_nanograph_cache_dir] of [_config.py] *)
Definition validate_nanograph_cache_dir (O : os) (home : string) (w : world)
    : world * (os_error + unit) :=
  if negb (path_exists (cache_dir home) w) then
    match makedirs O (cache_dir home) w with
    | (w1, inr _) => logger_add O (log_file home) w1
    | (w1, inl e) => (w1, inl e)
    end
  else if negb (path_exists (log_file home) w) then logger_add O (log_file home) w
  else (w, inr tt).

(** [validate_nanograph_cache_dir] of [_utils/core.py] *)
Definition core_validate_nanograph_cache_dir (O : os) (home : string) (w : world)
    : world * (os_error + unit) :=
  match (if negb (path_exists (cache_dir home) w) then makedirs O (cache_dir home) w
         else (w, inr tt)) with
  | (w1, inr _) =>
      if negb (path_exists (log_file home) w1) then logger_add O (log_file home) w1
      else (w1, inr tt)
  | (w1, inl e) => (w1, inl e)
  end.

(** [ensure_nanograph_config] of [_config.py] *)
Definition ensure_nanograph_config (O : os) (home : string) (w : world)
    : world * (os_error + unit) :=
  if negb (config_ensured w) then
    match validate_nanograph_cache_dir O home w with
    | (w1, inr _) =>
        ({| files := files w1; sinks := sinks w1; config_ensured := true;
            core_config_ensured := core_config_ensured w1 |}, inr tt)
    | (w1, inl e) => (w1, inl e)
    end
  else (w, inr tt).

(** [ensure_nanograph_config] of [_utils/core.py] *)
Definition core_ensure_nanograph_config (O : os) (home : string) (w : world)
    : world * (os_error + unit) :=
  if negb (core_config_ensured w) then
    match core_validate_nanograph_cache_dir O home w with
    | (w1, inr _) =>
        ({| files := files w1; sinks := sinks w1; config_ensured := config_ensured w1;
            core_config_ensured := true |}, inr tt)
    | (w1, inl e) => (w1, inl e)
    end
  else (w, inr tt).

(** [get_logger] of [_utils/core.py]: [ensure_nanograph_config()], then
    [_get_logger_instance], which removes every sink ([logger.remove()]) and
    adds the console handler.  The result is the one [logger] object, so
    only the effect is modelled. *)
Definition get_logger (O : os) (home : string) (w : world) : world * (os_error + unit) :=
  match core_ensure_nanograph_config O home w with
  | (w1, inr _) =>
      ({| files := files w1; sinks := [RichSink];
          config_ensured := config_ensured w1;
          core_config_ensured := core_config_ensured w1 |}, inr tt)
  | (w1, inl e) => (w1, inl e)
  end.

End Config.

(** What a request to the operating system leaves: no path is removed and
    no flag is touched; when it is granted the path exists, when it is
    refused the sinks are as before. *)
Definition request_outcome (p : string) (w w1 : Config.world)
    (r : Config.os_error + unit) : Prop :=
  Config.files w ⊆ Config.files w1 ∧
  Config.config_ensured w1 = Config.config_ensured w ∧
  Config.core_config_ensured w1 = Config.core_config_ensured w ∧
  match r with
  | inr _ => p ∈ Config.files w1
  | inl _ => Config.sinks w1 = Config.sinks w
  end.

(** What either [validate_nanograph_cache_dir] leaves. *)
Definition validate_outcome (home : string) (w w1 : Config.world)
    (r : Config.os_error + unit) : Prop :=
  Config.files w ⊆ Config.files w1 ∧
  Config.config_ensured w1 = Config.config_ensured w ∧
  Config.core_config_ensured w1 = Config.core_config_ensured w ∧
  match r with
  | inr _ => Config.cache_dir home ∈ Config.files w1 ∧
             Config.log_file home ∈ Config.files w1
  | inl _ => Config.sinks w1 = Config.sinks w
  end.

(** An operating system that grants every request, and one that refuses
    every directory. *)
Definition granting : Config.os :=
  {| Config.makedirs_refused := λ _ _, None; Config.add_refused := λ _ _, None |}.

Definition refusing : Config.os :=
  {| Config.makedirs_refused := λ _ _,
       Some {| Config.raised := Config.FileExistsError; Config.made := [] |};
     Config.add_refused := λ _ _, None |}.

Definition fresh_world : Config.world :=
  {| Config.files := ∅; Config.sinks := []; Config.config_ensured := false;
     Config.core_config_ensured := false |}.


(** ** src/nanograph/lib/_logging.py: the logging decorators

    A run of the wrapper that [log_function(prefix, prefix_color, level)]
    puts around a function.  The wrapped function runs on a state [S] and
    returns or raises an exception of a type [X].  What the wrapper takes
    from outside is given to the model: what [inspect] finds, the text of
    the measured duration and the text [str(e)] of an exception. *)

Module Logging.

(** What the wrapper sends out: a call of [logger.log] or [logger.error],
    with its level and text, or the [print(frame)] of the ["CORE"]
    branch. *)
Inductive event : Type := Log (level : nat) (msg : string) | Print.

Definition ERROR : nat := 40.

(** What [inspect] finds in the ["CORE"] branch: no current frame; a frame
    without caller, on which [frame.f_back.f_back] raises; no caller of the
    caller; a caller in no module; a caller in the module [name]. *)
Inductive caller : Type :=
| NoFrame | NoBack | NoCaller | NoModule | InModule (name : string).

(** What the wrapper raises: what the function raised, or the
    [AttributeError] of [frame.f_back.f_back]. *)
Inductive raised (X : Type) : Type := Raised (e : X) | AttributeError.
Global Arguments Raised {X} e.
Global Arguments AttributeError {X}.

Record env (X : Type) : Type := Env {
  who : caller;
  duration : string;
  text_of : raised X → string
}.
Global Arguments who {X} e.
Global Arguments duration {X} e.
Global Arguments text_of {X} e.

Definition tag (prefix prefix_color : string) : string :=
  "[" +:+ prefix_color +:+ "]" +:+ prefix +:+ "[/" +:+ prefix_color +:+ "]".

Definition executing (prefix prefix_color name : string) : string :=
  tag prefix prefix_color +:+ " Executing [bold]" +:+ name +:+ "[/bold]".

Definition completed (prefix prefix_color name dur : string) : string :=
  tag prefix prefix_color +:+ " [bold]" +:+ name +:+ "[/bold] completed in "
    +:+ dur +:+ "s".

Definition failed (prefix name text : string) : string :=
  "[bold red]" +:+ prefix +:+ " ERROR[/bold red] [bold]" +:+ name
    +:+ "[/bold] failed: " +:+ text.

(** The part of the [try] block before the call of the function: the
    events it sends, and whether it ends in the [AttributeError]. *)
Definition announce (prefix prefix_color : string) (level : nat) (name : string)
    (c : caller) : list event * bool :=
  if decide (prefix = "CORE") then
    match c with
    | NoFrame | NoCaller | NoModule => ([Print], false)
    | NoBack => ([Print], true)
    | InModule m =>
        ([Print; Log level (executing prefix prefix_color name +:+ " from module " +:+ m)],
         false)
    end
  else ([Log level (executing prefix prefix_color name)], false).

(** One call of the wrapper; [func] is the call of the wrapped function on
    the arguments of the wrapper. *)
Definition wrapper {S X A : Type} (prefix prefix_color : string) (level : nat)
    (name : string) (E : env X) (func : S → S * (X + A)) (s : S) (trace : list event)
    : S * list event * (raised X + A) :=
  let '(evs, attribute_error) := announce prefix prefix_color level name (who E) in
  if (attribute_error : bool) then
    (s, trace ++ evs ++ [Log ERROR (failed prefix name (text_of E AttributeError))],
     inl AttributeError)
  else
    match func s with
    | (s', inr result) =>
        (s', trace ++ evs ++ [Log level (completed prefix prefix_color name (duration E))],
         inr result)
    | (s', inl e) =>
        (s', trace ++ evs ++ [Log ERROR (failed prefix name (text_of E (Raised e)))],
         inl (Raised e))
    end.


(** [decorators.core]: [log_function("CORE", prefix_color="red",
    level=logging.CRITICAL)]. *)
Definition core {S X A : Type} : string → env X → (S → S * (X + A)) → S → list event
    → S * list event * (raised X + A) :=
  wrapper "CORE" "red" 50.

(** [get_litellm_resource] of [lib/resource.py]: the function of
    [Resource.get_resource] under [decorators.core].  The state is the
    globals of the module and the store. *)
Definition get_litellm_resource (E : env Resource.error) (new_resource : M val)
    : Resource.globals * heap → list event
      → Resource.globals * heap * list event * (raised Resource.error + val) :=
  core "get_litellm_resource" E
    (λ s, let '(g, h, r) := Resource.get_resource new_resource s.1 s.2 in ((g, h), r)).

End Logging.

(** A computation that leaves the store as it found it, whether it
    returns or raises. *)
Definition read_only {A : Type} (m : M A) : Prop :=
  ∀ h h' r, m h = (h', r) → h' = h.

(** A computation that has written nothing when it raises. *)
Definition fails_clean {A : Type} (m : M A) : Prop :=
  ∀ h h' e, m h = (h', inl e) → h' = h.

(** The body of the batch loop of [add_context_to_messages], which
    collects the edited threads in the list [result]. *)
Definition add_context_step (context : string) (result : val) (seq : val) : M unit :=
  r ← Lib._add_context_to_sequence context seq; list_append result r.

(** A str of one character, as the iteration over a str yields them. *)
Definition one_char (v : val) : Prop := ∃ a, v = VStr (String a EmptyString).

(** What the context append can do to the lists of the caller, those
    below [n]: extend them by characters (it does so to a list that is the
    content of a system message). *)
Definition grows_by_chars (n : nat) (h h' : heap) : Prop :=
  length h ≤ length h' ∧
  ∀ (l : loc) xs, l < n → h !! l = Some (OList xs) →
    ∃ cs, h' !! l = Some (OList (xs ++ cs)) ∧ Forall one_char cs.

(** * Properties *)

(** ** The monad and the loops *)

Lemma bind_ok {A B : Type} (m : M A) (f : A → M B) h h' a :
  m h = (h', inr a) → (m ≫= f) h = f a h'.
Proof. intros Hm. unfold mbind, M_bind. by rewrite Hm. Qed.

Lemma bind_err {A B : Type} (m : M A) (f : A → M B) h h' e :
  m h = (h', inl e) → (m ≫= f) h = (h', inl e).
Proof. intros Hm. unfold mbind, M_bind. by rewrite Hm. Qed.

Lemma bind_inv {A B : Type} (m : M A) (f : A → M B) h h2 r :
  (m ≫= f) h = (h2, r) →
  (∃ e, m h = (h2, inl e) ∧ r = inl e) ∨ (∃ h1 a, m h = (h1, inr a) ∧ f a h1 = (h2, r)).
Proof.
  unfold mbind, M_bind. destruct (m h) as [h1 [e|a]]; intros Hr.
  - left. exists e. by simplify_eq.
  - right. by exists h1, a.
Qed.

(** A loop keeps every store invariant that its body keeps. *)
Lemma for_fold_inv {A S : Type} (I : heap → Prop) (body : A → S → M S) xs :
  (∀ x s h h' r, I h → body x s h = (h', r) → I h') →
  ∀ s h h' r, I h → for_fold xs s body h = (h', r) → I h'.
Proof.
  intros Hbody. induction xs as [|x xs IH]; intros s h h' r Hh Hrun; simpl in Hrun.
  - unfold mret, M_ret in Hrun. by simplify_eq.
  - apply bind_inv in Hrun as [(e & Hx & _)|(h1 & s1 & Hx & Hrest)]; eauto.
Qed.

Lemma for_each_inv {A : Type} (I : heap → Prop) (body : A → M unit) xs :
  (∀ x h h' r, I h → body x h = (h', r) → I h') →
  ∀ h h' r, I h → for_each xs body h = (h', r) → I h'.
Proof.
  intros Hbody h h' r. unfold for_each.
  apply for_fold_inv with (I := I). intros x s h1 h2 r'. apply Hbody.
Qed.

(** Fail-fast: the first element on which the body raises ends the loop,
    with the store as that element left it; later elements are not
    visited. *)
Lemma for_each_first_failure {A : Type} (body : A → M unit) pre bad post h h1 h2 e :
  for_each pre body h = (h1, inr tt) →
  body bad h1 = (h2, inl e) →
  for_each (pre ++ bad :: post) body h = (h2, inl e).
Proof.
  unfold for_each. revert h.
  induction pre as [|x pre IH]; intros h Hpre Hbad; simpl in *.
  - unfold mret, M_ret in Hpre. simplify_eq. by rewrite (bind_err _ _ _ _ _ Hbad).
  - apply bind_inv in Hpre as [(e' & _ & ?)|(h' & [] & Hx & Hrest)]; [done|].
    rewrite (bind_ok _ _ _ _ _ Hx). by apply IH.
Qed.

Lemma for_each_all_ok {A : Type} (body : A → M unit) xs h :
  (∀ x, x ∈ xs → body x h = (h, inr tt)) →
  for_each xs body h = (h, inr tt).
Proof.
  unfold for_each. induction xs as [|x xs IH]; intros Hok; simpl; [done|].
  rewrite (bind_ok _ _ _ _ _ (Hok x ltac:(left))).
  apply IH. intros y Hy. apply Hok. by right.
Qed.

(** ** Operations that only read the store *)

Lemma read_heap l h h' r : read l h = (h', r) → h' = h.
Proof. unfold read. destruct (h !! l); intros; by simplify_eq. Qed.

Lemma read_ok l h o : h !! l = Some o → read l h = (h, inr o).
Proof. unfold read. by intros ->. Qed.

(** Unfolds one monadic step of a run that is a hypothesis. *)
Tactic Notation "step_in" hyp(H) "as" ident(Hs) :=
  let e := fresh "e" in
  let h1 := fresh "h" in
  let a := fresh "a" in
  apply bind_inv in H as [(e & Hs & ?)|(h1 & a & Hs & H)].

Tactic Notation "step_in" hyp(H) :=
  let Hs := fresh "Hstep" in step_in H as Hs.

(** Decides a read-only primitive by cases on the value and on the object
    it refers to. *)
Ltac read_only_cases v h :=
  let l := fresh "l" in
  let o := fresh "o" in
  destruct v as [| | |l]; simpl;
  unfold mbind, M_bind, mret, M_ret, raise, read;
  try (destruct (h !! l) as [o|]; [destruct o|]);
  simpl; intros; repeat case_match; by simplify_eq.

Lemma type_of_heap v h h' r : type_of v h = (h', r) → h' = h.
Proof. read_only_cases v h. Qed.

Lemma isinstance_heap v ts h h' r : isinstance v ts h = (h', r) → h' = h.
Proof.
  unfold isinstance. intros H. step_in H.
  - by apply type_of_heap in Hstep.
  - apply type_of_heap in Hstep. unfold mret, M_ret in H. by simplify_eq.
Qed.

Lemma py_contains_heap k v h h' r : py_contains k v h = (h', r) → h' = h.
Proof. read_only_cases v h. Qed.

Lemma py_iter_heap v h h' r : py_iter v h = (h', r) → h' = h.
Proof. read_only_cases v h. Qed.

Lemma py_getitem_str_heap v k h h' r : py_getitem_str v k h = (h', r) → h' = h.
Proof. read_only_cases v h. Qed.

Lemma py_getitem_nat_heap v i h h' r : py_getitem_nat v i h = (h', r) → h' = h.
Proof. read_only_cases v h. Qed.

Lemma py_truthy_heap v h h' r : py_truthy v h = (h', r) → h' = h.
Proof. read_only_cases v h. Qed.

Lemma getitem_role_ok h m r :
  role_of h m = Some r → py_getitem_str m "role" h = (h, inr r).
Proof.
  destruct m as [| | |l]; simpl; try done.
  unfold mbind, M_bind, read. destruct (h !! l) as [[| |d]|]; try done.
  by intros ->.
Qed.

Lemma getitem_role_inv h m h' r :
  py_getitem_str m "role" h = (h', inr r) → role_of h m = Some r.
Proof.
  destruct m as [| | |l]; simpl; try done.
  unfold mbind, M_bind, read. destruct (h !! l) as [[| |d]|]; try done.
  destruct (d !! "role"); intros H; unfold mret, M_ret, raise in H; by simplify_eq.
Qed.

Lemma is_system_role h m r :
  role_of h m = Some r → is_system h m = bool_decide (r = VStr "system").
Proof.
  intros Hr. unfold is_system. rewrite Hr.
  apply bool_decide_ext. split; intros; by simplify_eq.
Qed.

(** A record of the store is read the same way after the store has grown. *)
Lemma role_of_app h ext m : has_role h m → role_of (h ++ ext) m = role_of h m.
Proof.
  intros [r Hr]. destruct m as [| | |l]; try done. simpl in *.
  destruct (h !! l) as [o|] eqn:Hl; [|done].
  by rewrite (lookup_app_l_Some _ _ _ _ Hl).
Qed.

Lemma is_system_app h ext m : has_role h m → is_system (h ++ ext) m = is_system h m.
Proof. intros Hm. unfold is_system. by rewrite role_of_app. Qed.

Lemma has_role_app h ext m : has_role h m → has_role (h ++ ext) m.
Proof. intros Hm. unfold has_role. by rewrite role_of_app. Qed.

(** ** Positions of the system messages *)

Lemma positions_app (p : val → bool) i xs ys :
  positions p i (xs ++ ys) = positions p i xs ++ positions p (i + length xs) ys.
Proof.
  revert i. induction xs as [|x xs IH]; intros i; simpl.
  - by rewrite Nat.add_0_r.
  - rewrite IH. replace (S i + length xs) with (i + S (length xs)) by lia.
    by destruct (p x).
Qed.

Lemma positions_none (p : val → bool) i xs : Forall (λ x, ¬ p x) xs → positions p i xs = [].
Proof.
  intros Hxs. revert i. induction Hxs as [|x xs Hx _ IH]; intros i; simpl; [done|].
  destruct (p x); [by destruct Hx|apply IH].
Qed.

Lemma positions_last_split (p : val → bool) i pre s post :
  p s → Forall (λ x, ¬ p x) post →
  positions p i (pre ++ s :: post) = positions p i pre ++ [i + length pre].
Proof.
  intros Hs Hpost. rewrite positions_app. simpl.
  destruct (p s); [|done]. by rewrite (positions_none p _ post).
Qed.

Lemma positions_snoc (p : val → bool) i xs x :
  positions p i (xs ++ [x]) = positions p i xs ++ (if p x then [i + length xs] else []).
Proof. by rewrite positions_app. Qed.

(** Every list either has no element satisfying [p] or splits at the last
    one that does. *)
Lemma last_split (p : val → bool) xs :
  Forall (λ x, ¬ p x) xs ∨
  ∃ pre s post, xs = pre ++ s :: post ∧ p s ∧ Forall (λ x, ¬ p x) post.
Proof.
  induction xs as [|x xs [IH|(pre & s & post & -> & Hs & Hpost)]].
  - by left.
  - destruct (p x) eqn:Hx.
    + right. exists [], x, xs. rewrite Hx. split_and!; auto.
    + left. constructor; [|done]. intros Hp. rewrite Hx in Hp. destruct Hp.
  - right. exists (x :: pre), s, post. split_and!; auto.
Qed.

(** The comprehension collects exactly the positions of the system
    messages, and raises nothing, when every element is a message. *)
Lemma system_scan_ok h xs i acc :
  Forall (has_role h) xs →
  for_fold (enumerate_from i xs) acc (λ '(i, msg) acc,
    role ← py_getitem_str msg "role";
    mret (if decide (role = VStr "system") then acc ++ [i] else acc)) h
  = (h, inr (acc ++ positions (is_system h) i xs)).
Proof.
  intros Hxs. revert i acc.
  induction Hxs as [|x xs [r Hr] _ IH]; intros i acc; simpl.
  - by rewrite app_nil_r.
  - rewrite (bind_ok _ _ _ _ _ (bind_ok _ _ _ _ _ (getitem_role_ok _ _ _ Hr))).
    unfold mret at 1, M_ret at 1. rewrite IH, (is_system_role _ _ _ Hr).
    case_decide.
    + rewrite bool_decide_eq_true_2 by done. by rewrite <- app_assoc.
    + by rewrite bool_decide_eq_false_2 by done.
Qed.

Lemma system_indices_ok h items :
  Forall (has_role h) items →
  Lib.system_indices items h = (h, inr (positions (is_system h) 0 items)).
Proof. intros Hxs. unfold Lib.system_indices, enumerate. by rewrite system_scan_ok. Qed.

Lemma system_indices_heap items h h' r : Lib.system_indices items h = (h', r) → h' = h.
Proof.
  unfold Lib.system_indices. intros H. symmetry.
  apply (for_fold_inv (λ h1, h = h1)) in H; [done| |done].
  intros [i m] s h1 h2 r' -> Hb. step_in Hb.
  - by apply py_getitem_str_heap in Hstep.
  - apply py_getitem_str_heap in Hstep. unfold mret, M_ret in Hb. by simplify_eq.
Qed.

Lemma system_scan_inv h xs : ∀ i acc h' idxs,
  for_fold (enumerate_from i xs) acc (λ '(i, msg) acc,
    role ← py_getitem_str msg "role";
    mret (if decide (role = VStr "system") then acc ++ [i] else acc)) h
  = (h', inr idxs) → Forall (has_role h) xs.
Proof.
  induction xs as [|x xs IH]; intros i acc h' idxs H; simpl in H; [done|].
  step_in H; [done|]. step_in Hstep; [done|].
  pose proof (py_getitem_str_heap _ _ _ _ _ Hstep0) as ->.
  apply getitem_role_inv in Hstep0.
  unfold mret, M_ret in Hstep. simplify_eq.
  constructor; [by eexists|by eapply IH].
Qed.

Lemma system_indices_inv h items h' idxs :
  Lib.system_indices items h = (h', inr idxs) → Forall (has_role h) items.
Proof. apply system_scan_inv. Qed.

(** ** Writing at the newest list of the store *)

Lemma insert_middle_eq (h : heap) o o' ext :
  <[length h := o']> (h ++ o :: ext) = h ++ o' :: ext.
Proof.
  rewrite <- (Nat.add_0_r (length h)) at 1. by rewrite insert_app_r.
Qed.

Lemma lookup_middle_eq (h : heap) o ext : (h ++ o :: ext) !! length h = Some o.
Proof. by apply list_lookup_middle. Qed.

Lemma for_each_cons_ok {A : Type} (body : A → M unit) x xs h h1 :
  body x h = (h1, inr tt) → for_each (x :: xs) body h = for_each xs body h1.
Proof. intros Hx. unfold for_each. simpl. by rewrite (bind_ok _ _ _ _ _ Hx). Qed.

Lemma py_list_ok h v items :
  py_iter v h = (h, inr items) →
  py_list v h = (h ++ [OList items], inr (VRef (length h))).
Proof. intros Hv. unfold py_list. by rewrite (bind_ok _ _ _ _ _ Hv). Qed.

Lemma py_list_inv v h h' r :
  py_list v h = (h', r) →
  (∃ e, r = inl e ∧ h' = h) ∨
  (∃ items, py_iter v h = (h, inr items) ∧ h' = h ++ [OList items] ∧
            r = inr (VRef (length h))).
Proof.
  unfold py_list. intros H. step_in H.
  - left. apply py_iter_heap in Hstep. eauto.
  - right. pose proof (py_iter_heap _ _ _ _ Hstep) as ->.
    unfold alloc in H. simplify_eq. eauto.
Qed.

Lemma py_iter_list_ok h l items :
  h !! l = Some (OList items) → py_iter (VRef l) h = (h, inr items).
Proof. intros Hl. simpl. by rewrite (bind_ok _ _ _ _ _ (read_ok _ _ _ Hl)). Qed.

Lemma py_getitem_nat_list_ok h l xs i x :
  h !! l = Some (OList xs) → xs !! i = Some x →
  py_getitem_nat (VRef l) i h = (h, inr x).
Proof.
  intros Hl Hi. simpl. rewrite (bind_ok _ _ _ _ _ (read_ok _ _ _ Hl)). by rewrite Hi.
Qed.

Lemma list_setitem_ok h l xs i x :
  h !! l = Some (OList xs) → i < length xs →
  list_setitem (VRef l) i x h = (<[l := OList (<[i := x]> xs)]> h, inr tt).
Proof.
  intros Hl Hi. unfold list_setitem, with_list.
  rewrite (bind_ok _ _ _ _ _ (read_ok _ _ _ Hl)). by rewrite decide_True.
Qed.

Lemma list_delitem_ok h l xs i :
  h !! l = Some (OList xs) → i < length xs →
  list_delitem (VRef l) i h = (<[l := OList (delete i xs)]> h, inr tt).
Proof.
  intros Hl Hi. unfold list_delitem, with_list.
  rewrite (bind_ok _ _ _ _ _ (read_ok _ _ _ Hl)). by rewrite decide_True.
Qed.

Lemma list_insert_at_ok h l xs i x :
  h !! l = Some (OList xs) →
  list_insert_at (VRef l) i x h = (<[l := OList (take i xs ++ x :: drop i xs)]> h, inr tt).
Proof.
  intros Hl. unfold list_insert_at, with_list.
  by rewrite (bind_ok _ _ _ _ _ (read_ok _ _ _ Hl)).
Qed.

Lemma list_append_ok h l xs x :
  h !! l = Some (OList xs) →
  list_append (VRef l) x h = (<[l := OList (xs ++ [x])]> h, inr tt).
Proof.
  intros Hl. unfold list_append, with_list.
  by rewrite (bind_ok _ _ _ _ _ (read_ok _ _ _ Hl)).
Qed.

Lemma construct_message_ok c role h :
  Lib.construct_message c role h
  = (h ++ [ODict {[ "role" := VStr role; "content" := c ]}], inr (VRef (length h))).
Proof. done. Qed.

(** The deletion loop of [swap_system_prompt]: deleting, from the highest
    index down, the positions of the elements of [pre] that satisfy [p]
    leaves the other elements of [pre] in place and does not touch what
    follows [pre]. *)
Lemma delete_loop_ok (p : val → bool) l pre : ∀ rest h,
  h !! l = Some (OList (pre ++ rest)) →
  for_each (reverse (positions p 0 pre)) (λ idx, list_delitem (VRef l) idx) h
  = (<[l := OList (filter (λ x, ¬ p x) pre ++ rest)]> h, inr tt).
Proof.
  induction pre as [|x pre IH] using rev_ind; intros rest h Hl.
  - simpl. by rewrite list_insert_id.
  - rewrite positions_snoc, filter_app. simpl. destruct (p x) eqn:Hx.
    + rewrite reverse_snoc.
      rewrite <- app_assoc in Hl. simpl in Hl.
      erewrite for_each_cons_ok; last first.
      { apply list_delitem_ok; [done|]. rewrite length_app. simpl. lia. }
      rewrite delete_middle, (IH rest); last first.
      { apply list_lookup_insert_eq. by eapply lookup_lt_Some. }
      rewrite list_insert_insert_eq.
      rewrite filter_cons_False, filter_nil, app_nil_r; [done|].
      rewrite Hx. by intros Hn; apply Hn.
    + rewrite app_nil_r. rewrite <- app_assoc in Hl. simpl in Hl.
      rewrite (IH _ _ Hl).
      rewrite filter_cons_True, filter_nil, <- app_assoc; [done|].
      rewrite Hx. by intros [].
Qed.

Lemma positions_ext (p q : val → bool) i xs :
  Forall (λ x, p x = q x) xs → positions p i xs = positions q i xs.
Proof.
  intros Hxs. revert i. induction Hxs as [|x xs Hx _ IH]; intros i; simpl; [done|].
  by rewrite Hx, IH.
Qed.

Lemma positions_is_system_app h ext i xs :
  Forall (has_role h) xs →
  positions (is_system (h ++ ext)) i xs = positions (is_system h) i xs.
Proof.
  intros Hxs. apply positions_ext.
  eapply Forall_impl; [exact Hxs|]. intros x Hx. by apply is_system_app.
Qed.

Lemma positions_lt (p : val → bool) i xs j :
  j ∈ positions p i xs → i ≤ j < i + length xs.
Proof.
  revert i. induction xs as [|x xs IH]; intros i; simpl; [by intros ?%elem_of_nil|].
  destruct (p x).
  - intros [->|Hj%IH]%elem_of_cons; lia.
  - intros Hj%IH. lia.
Qed.

(** The run of [swap_system_prompt] on a thread with a system message. *)
Lemma swap_run_system h messages items pre s post prompt :
  py_iter messages h = (h, inr items) →
  Forall (has_role h) items →
  items = pre ++ s :: post →
  is_system h s →
  Forall (λ m, ¬ is_system h m) post →
  Lib.swap_system_prompt messages prompt h
  = (h ++ [OList (filter (λ m, ¬ is_system h m) pre ++ VRef (S (length h)) :: post);
           system_record prompt],
     inr (VRef (length h))).
Proof.
  intros Hl Hroles -> Hs Hpost. unfold Lib.swap_system_prompt.
  rewrite (bind_ok _ _ _ _ _ (py_list_ok _ _ _ Hl)).
  assert (Hnew : (h ++ [OList (pre ++ s :: post)]) !! length h
                 = Some (OList (pre ++ s :: post))) by apply lookup_middle_eq.
  rewrite (bind_ok _ _ _ _ _ (py_iter_list_ok _ _ _ Hnew)).
  erewrite bind_ok; last first.
  { apply system_indices_ok. eapply Forall_impl; [exact Hroles|].
    intros m. apply has_role_app. }
  rewrite positions_is_system_app by done.
  rewrite (positions_last_split _ _ _ _ _ Hs Hpost).
  rewrite last_snoc, removelast_last. simpl.
  erewrite bind_ok; [reflexivity|].
  rewrite (bind_ok _ _ _ _ _ (construct_message_ok _ _ _)).
  rewrite length_app. simpl. rewrite Nat.add_1_r, <- app_assoc. simpl.
  erewrite bind_ok; last first.
  { apply list_setitem_ok; [apply lookup_middle_eq|]. rewrite length_app. simpl. lia. }
  rewrite insert_middle_eq.
  replace (<[length pre := VRef (S (length h))]> (pre ++ s :: post))
    with (pre ++ VRef (S (length h)) :: post).
  2:{ rewrite <- (Nat.add_0_r (length pre)) at 1. by rewrite insert_app_r. }
  erewrite delete_loop_ok by apply lookup_middle_eq.
  by rewrite insert_middle_eq.
Qed.

(** The run of [swap_system_prompt] on a thread without a system message. *)
Lemma swap_run_no_system h messages items prompt :
  py_iter messages h = (h, inr items) →
  Forall (has_role h) items →
  Forall (λ m, ¬ is_system h m) items →
  Lib.swap_system_prompt messages prompt h
  = (h ++ [OList (VRef (S (length h)) :: items); system_record prompt],
     inr (VRef (length h))).
Proof.
  intros Hl Hroles Hnone. unfold Lib.swap_system_prompt.
  rewrite (bind_ok _ _ _ _ _ (py_list_ok _ _ _ Hl)).
  assert (Hnew : (h ++ [OList items]) !! length h = Some (OList items))
    by apply lookup_middle_eq.
  rewrite (bind_ok _ _ _ _ _ (py_iter_list_ok _ _ _ Hnew)).
  erewrite bind_ok; last first.
  { apply system_indices_ok. eapply Forall_impl; [exact Hroles|].
    intros m. apply has_role_app. }
  rewrite positions_is_system_app by done.
  rewrite (positions_none _ _ _ Hnone). simpl.
  erewrite bind_ok; [reflexivity|].
  rewrite (bind_ok _ _ _ _ _ (construct_message_ok _ _ _)).
  rewrite length_app. simpl. rewrite Nat.add_1_r, <- app_assoc. simpl.
  erewrite list_insert_at_ok by apply lookup_middle_eq.
  by rewrite insert_middle_eq.
Qed.

(** ** Filters over the messages of a thread *)

Lemma filter_agree {A : Type} (P Q : A → Prop)
    `{∀ x, Decision (P x)} `{∀ x, Decision (Q x)} (xs : list A) :
  Forall (λ x, P x ↔ Q x) xs → filter P xs = filter Q xs.
Proof.
  induction 1 as [|x xs Hx _ IH]; [done|].
  rewrite !filter_cons, IH. destruct (decide (P x)), (decide (Q x)); tauto.
Qed.

Lemma filter_none {A : Type} (P : A → Prop) `{∀ x, Decision (P x)} (xs : list A) :
  Forall (λ x, ¬ P x) xs → filter P xs = [].
Proof.
  induction 1 as [|x xs Hx _ IH]; [done|]. by rewrite filter_cons_False.
Qed.

Lemma filter_all {A : Type} (P : A → Prop) `{∀ x, Decision (P x)} (xs : list A) :
  Forall P xs → filter P xs = xs.
Proof.
  induction 1 as [|x xs Hx _ IH]; [done|]. by rewrite filter_cons_True, IH.
Qed.

Lemma is_system_has_role h m : is_system h m → has_role h m.
Proof. unfold is_system, has_role. intros Hm%bool_decide_unpack. by rewrite Hm. Qed.

Lemma is_system_new_record h o c :
  is_system (h ++ [o; system_record c]) (VRef (S (length h))).
Proof.
  unfold is_system. simpl. rewrite lookup_app_r by lia.
  replace (S (length h) - length h) with 1 by lia. simpl.
  by apply bool_decide_pack.
Qed.

(** ** C1: what [swap_system_prompt] returns *)

(** C1.  Let [messages] be a list of message records (each a dict with a
    role).  If it has a system message, let [s] be the last one, [pre] the
    messages before it and [post] the messages after it: the call returns a
    new list that holds the non-system messages of [pre], then a newly
    built record [{"role": "system", "content": prompt}] in the place of
    [s], then [post]; that record is the only system message of the
    result.  If it has no system message, the call returns a new list that
    holds the newly built record at index 0 followed by the messages in
    their order. *)
Theorem swap_system_prompt_spec (h : heap) (l : loc) (items : list val) (prompt : string) :
  h !! l = Some (OList items) →
  Forall (has_role h) items →
  (∀ pre s post,
     items = pre ++ s :: post →
     is_system h s →
     Forall (λ m, ¬ is_system h m) post →
     ∃ h' out,
       Lib.swap_system_prompt (VRef l) prompt h = (h', inr (VRef (length h))) ∧
       h' = h ++ [OList out; system_record prompt] ∧
       out = filter (λ m, ¬ is_system h m) pre ++ VRef (S (length h)) :: post ∧
       filter (λ m, is_system h' m) out = [VRef (S (length h))]) ∧
  (Forall (λ m, ¬ is_system h m) items →
     Lib.swap_system_prompt (VRef l) prompt h
     = (h ++ [OList (VRef (S (length h)) :: items); system_record prompt],
        inr (VRef (length h)))).
Proof.
  intros Hl Hroles. split.
  - intros pre s post Hitems Hs Hpost. eexists _, _. split_and!; [|done|done|].
    { eapply swap_run_system; eauto using py_iter_list_ok. }
    subst items. apply Forall_app in Hroles as [Hpre Hrest].
    apply Forall_cons in Hrest as [_ Hrest].
    rewrite filter_app, filter_cons_True.
    2:{ apply is_system_new_record. }
    rewrite !filter_none; [done| |].
    + rewrite Forall_forall in Hpost, Hrest. apply Forall_forall. intros m Hm.
      rewrite is_system_app by auto. auto.
    + apply Forall_forall. intros m [Hm Hin]%list_elem_of_filter.
      rewrite Forall_forall in Hpre. rewrite is_system_app by auto. done.
  - intros Hnone. eapply swap_run_no_system; eauto using py_iter_list_ok.
Qed.

Lemma swap_system_prompt_spec_witness :
  Lib.swap_system_prompt (VRef 3) "P" two_system_store
  = (two_system_store ++ [OList [VRef 5; VRef 2]; system_record "P"], inr (VRef 4))
  ∧ Lib.swap_system_prompt (VRef 1) "P" user_only_store
  = (user_only_store ++ [OList [VRef 3; VRef 0]; system_record "P"], inr (VRef 2)).
Proof.
  split.
  - destruct (swap_system_prompt_spec two_system_store 3 [VRef 0; VRef 1; VRef 2] "P")
      as [Hsys _]; [reflexivity|repeat constructor; by eexists|].
    destruct (Hsys [VRef 0] (VRef 1) [VRef 2]) as (h' & out & Hrun & -> & -> & _);
      [reflexivity|by vm_compute|repeat constructor; by vm_compute|].
    exact Hrun.
  - destruct (swap_system_prompt_spec user_only_store 1 [VRef 0] "P")
      as [_ Hnone]; [reflexivity|repeat constructor; by eexists|].
    assert (Hn : Forall (λ m, ¬ is_system user_only_store m) [VRef 0])
      by (repeat constructor; by vm_compute).
    exact (Hnone Hn).
Defined.

(** ** C10: [swap_system_prompt] writes only to the list it builds *)

Lemma write_frame (n : nat) (l : loc) o h h' r :
  n ≤ l → write l o h = (h', r) → take n h' = take n h.
Proof. intros Hn Hw. unfold write in Hw. simplify_eq. by apply take_insert_ge. Qed.

Lemma alloc_frame (n : nat) o (h : heap) h' r :
  n ≤ length h → alloc o h = (h', r) → take n h' = take n h.
Proof. intros Hn Ha. unfold alloc in Ha. simplify_eq. by apply take_app_le. Qed.

Lemma with_list_frame {A : Type} (n : nat) (l : loc) (k : loc → list val → M A) h h' r :
  (∀ xs h1 h2 r1, k l xs h1 = (h2, r1) → take n h2 = take n h1) →
  with_list (VRef l) k h = (h', r) → take n h' = take n h.
Proof.
  intros Hk H. unfold with_list in H. step_in H.
  - apply read_heap in Hstep. by subst.
  - apply read_heap in Hstep. subst.
    destruct a; eauto; unfold raise in H; by simplify_eq.
Qed.

Lemma list_setitem_frame (n : nat) (l : loc) i x h h' r :
  n ≤ l → list_setitem (VRef l) i x h = (h', r) → take n h' = take n h.
Proof.
  intros Hn. apply with_list_frame. intros xs h1 h2 r1.
  case_decide; [by apply write_frame|]. unfold raise. intros; by simplify_eq.
Qed.

Lemma list_delitem_frame (n : nat) (l : loc) i h h' r :
  n ≤ l → list_delitem (VRef l) i h = (h', r) → take n h' = take n h.
Proof.
  intros Hn. apply with_list_frame. intros xs h1 h2 r1.
  case_decide; [by apply write_frame|]. unfold raise. intros; by simplify_eq.
Qed.

Lemma list_insert_at_frame (n : nat) (l : loc) i x h h' r :
  n ≤ l → list_insert_at (VRef l) i x h = (h', r) → take n h' = take n h.
Proof.
  intros Hn. apply with_list_frame. intros xs h1 h2 r1. by apply write_frame.
Qed.

Lemma list_append_frame (n : nat) (l : loc) x h h' r :
  n ≤ l → list_append (VRef l) x h = (h', r) → take n h' = take n h.
Proof.
  intros Hn. apply with_list_frame. intros xs h1 h2 r1. by apply write_frame.
Qed.

Lemma construct_message_frame (n : nat) c role (h : heap) h' r :
  n ≤ length h → Lib.construct_message c role h = (h', r) → take n h' = take n h.
Proof. apply alloc_frame. Qed.

(** A store whose first [length h] objects are those of [h] extends [h]. *)
Lemma take_extends (h h' : heap) : take (length h) h' = h → ∃ ext, h' = h ++ ext.
Proof. intros Ht. exists (drop (length h) h'). by rewrite <- Ht at 1; rewrite take_drop. Qed.

Lemma has_role_app_list_inv h xs m : has_role (h ++ [OList xs]) m → has_role h m.
Proof.
  unfold has_role. destruct m as [| | |l]; simpl; try done.
  destruct (decide (l < length h)) as [Hlt|Hge].
  - by rewrite lookup_app_l.
  - rewrite lookup_app_r by lia. destruct (l - length h) as [|k]; simpl.
    + by intros [? ?].
    + by intros [? ?].
Qed.

(** The edit that follows the scan, on the list at [l]. *)
Lemma swap_edit_frame (l : loc) (indices : list nat) prompt (h : heap) h' r :
  l < length h →
  match last indices with
  | Some last_system_idx =>
      m ← Lib.construct_message (VStr prompt) "system";
      list_setitem (VRef l) last_system_idx m;;
      for_each (reverse (removelast indices)) (λ idx, list_delitem (VRef l) idx)
  | None =>
      m ← Lib.construct_message (VStr prompt) "system";
      list_insert_at (VRef l) 0 m
  end h = (h', r) →
  take l h' = take l h.
Proof.
  intros Hl H. destruct (last indices) as [i|].
  - step_in H.
    { apply construct_message_frame with (n := l) in Hstep; [done|lia]. }
    apply construct_message_frame with (n := l) in Hstep; [|lia].
    rewrite <- Hstep. clear Hstep. step_in H.
    { by apply list_setitem_frame with (n := l) in Hstep. }
    apply list_setitem_frame with (n := l) in Hstep; [|done].
    rewrite <- Hstep.
    apply (for_each_inv (λ x, take l x = take l h1)) in H; [done| |done].
    intros idx x x' rx Hx Hdel.
    apply list_delitem_frame with (n := l) in Hdel; [|done]. congruence.
  - step_in H.
    { apply construct_message_frame with (n := l) in Hstep; [done|lia]. }
    apply construct_message_frame with (n := l) in Hstep; [|lia].
    rewrite <- Hstep.
    by apply list_insert_at_frame with (n := l) in H.
Qed.

Lemma swap_frame messages prompt h h' r :
  Lib.swap_system_prompt messages prompt h = (h', r) → take (length h) h' = h.
Proof.
  unfold Lib.swap_system_prompt. intros H. step_in H.
  { apply py_list_inv in Hstep as [(? & ? & ->)|(? & ? & ? & ?)]; [|done].
    apply firstn_all. }
  apply py_list_inv in Hstep as [(? & ? & ?)|(items & Hiter & -> & Ha)]; [done|].
  simplify_eq.
  rewrite (bind_ok _ _ _ _ _ (py_iter_list_ok _ _ _ (lookup_middle_eq h _ []))) in H.
  assert (Hlen : length h < length (h ++ [OList items])).
  { rewrite length_app. simpl. lia. }
  step_in H.
  { apply system_indices_heap in Hstep as ->. apply take_app_length. }
  apply system_indices_heap in Hstep as ->.
  step_in H.
  - apply swap_edit_frame in Hstep; [|done]. rewrite Hstep. apply take_app_length.
  - apply swap_edit_frame in Hstep; [|done].
    unfold mret, M_ret in H. simplify_eq. rewrite Hstep. apply take_app_length.
Qed.

(** A call that returns has found a role in every element. *)
Lemma swap_ok_inv messages prompt h h' res :
  Lib.swap_system_prompt messages prompt h = (h', inr res) →
  ∃ items, py_iter messages h = (h, inr items) ∧ Forall (has_role h) items.
Proof.
  unfold Lib.swap_system_prompt. intros H. step_in H; [done|].
  apply py_list_inv in Hstep as [(? & ? & ?)|(items & Hiter & -> & Ha)]; [done|].
  simplify_eq. exists items. split; [done|].
  rewrite (bind_ok _ _ _ _ _ (py_iter_list_ok _ _ _ (lookup_middle_eq h _ []))) in H.
  step_in H; [done|].
  apply system_indices_inv in Hstep.
  eapply Forall_impl; [exact Hstep|]. intros m. apply has_role_app_list_inv.
Qed.

(** C10.  Whatever the input, and whether the call returns or raises,
    every object that was in the store before the call is still there
    unchanged afterwards: the store has only grown, so neither the input
    sequence nor any of its records has been written.  On every sequence of
    message records the call returns; the result is a list at the first
    location after the old store, hence a new object, and the non-system
    messages of the result are the non-system messages of the input, the
    same records in the same order. *)
Theorem swap_system_prompt_keeps_input (h : heap) (messages : val) (prompt : string) :
  (∀ h' r, Lib.swap_system_prompt messages prompt h = (h', r) → ∃ ext, h' = h ++ ext) ∧
  (∀ items,
     py_iter messages h = (h, inr items) →
     Forall (has_role h) items →
     ∃ ext out,
       Lib.swap_system_prompt messages prompt h = (h ++ ext, inr (VRef (length h))) ∧
       h !! length h = None ∧
       (h ++ ext) !! length h = Some (OList out) ∧
       filter (λ m, ¬ is_system (h ++ ext) m) out = filter (λ m, ¬ is_system h m) items).
Proof.
  split; [intros h' r Hrun; by eapply take_extends, swap_frame|].
  intros items Hiter Hroles.
  assert (Hagree : ∀ ext xs, Forall (has_role h) xs →
            filter (λ m, ¬ is_system (h ++ ext) m) xs = filter (λ m, ¬ is_system h m) xs).
  { intros ext xs Hxs. apply filter_agree.
    eapply Forall_impl; [exact Hxs|]. intros m Hm. simpl. by rewrite is_system_app. }
  destruct (last_split (is_system h) items)
    as [Hnone|(pre & s & post & -> & Hs & Hpost)].
  - eexists _, _. split_and!;
      [by apply swap_run_no_system|by apply lookup_ge_None|apply lookup_middle_eq|].
    rewrite filter_cons_False; [by apply Hagree|].
    intros Hn. apply Hn, is_system_new_record.
  - eexists _, _. split_and!;
      [by eapply swap_run_system|by apply lookup_ge_None|apply lookup_middle_eq|].
    apply Forall_app in Hroles as [Hpre Hrest].
    apply Forall_cons in Hrest as [_ Hrest].
    rewrite !filter_app, filter_cons_False.
    2:{ intros Hn. apply Hn, is_system_new_record. }
    rewrite (filter_cons_False _ s) by (intros Hn; by apply Hn).
    rewrite (Hagree _ post Hrest). f_equal.
    rewrite Hagree.
    + apply list_filter_filter_l. auto.
    + apply Forall_forall. intros m [_ Hin]%list_elem_of_filter.
      rewrite Forall_forall in Hpre. auto.
Qed.

Lemma swap_system_prompt_keeps_input_witness :
  (∃ ext, two_system_store ++ [OList [VRef 5; VRef 2]; system_record "P"]
          = two_system_store ++ ext) ∧
  (∃ ext out,
     Lib.swap_system_prompt (VRef 3) "P" two_system_store
     = (two_system_store ++ ext, inr (VRef (length two_system_store))) ∧
     two_system_store !! length two_system_store = None ∧
     (two_system_store ++ ext) !! length two_system_store = Some (OList out) ∧
     filter (λ m, ¬ is_system (two_system_store ++ ext) m) out
     = filter (λ m, ¬ is_system two_system_store m) [VRef 0; VRef 1; VRef 2]).
Proof.
  destruct (swap_system_prompt_keeps_input two_system_store (VRef 3) "P")
    as [Hframe Hret].
  split.
  - apply (Hframe _ (inr (VRef 4))). by vm_compute.
  - apply Hret; [reflexivity|repeat constructor; by eexists].
Defined.

(** ** C6: swapping twice *)

Lemma Forall2_py_eq_refl h xs : Forall2 (py_eq h) xs xs.
Proof. induction xs; constructor; [apply py_eq_same|done]. Qed.

(** Two records with the same content are equal. *)
Lemma py_eq_same_record h l1 l2 d :
  h !! l1 = Some (ODict d) → h !! l2 = Some (ODict d) → py_eq h (VRef l1) (VRef l2).
Proof.
  intros H1 H2. eapply py_eq_dict; [done|done|].
  intros k. destruct (d !! k); constructor. apply py_eq_same.
Qed.

(** Two lists that differ in one position, where they hold records with
    the same content, are equal. *)
Lemma py_eq_one_record h a b pre post n1 n2 d :
  h !! a = Some (OList (pre ++ VRef n1 :: post)) →
  h !! b = Some (OList (pre ++ VRef n2 :: post)) →
  h !! n1 = Some (ODict d) → h !! n2 = Some (ODict d) →
  py_eq h (VRef a) (VRef b).
Proof.
  intros Ha Hb Hn1 Hn2. eapply py_eq_list; [done|done|].
  apply Forall2_app; [apply Forall2_py_eq_refl|].
  constructor; [by eapply py_eq_same_record|apply Forall2_py_eq_refl].
Qed.

(** A second swap on a thread whose only system message is at a known
    place: the new record takes that place and nothing else moves. *)
Lemma swap_run_single h l pre s post prompt :
  h !! l = Some (OList (pre ++ s :: post)) →
  Forall (has_role h) pre → Forall (has_role h) post →
  Forall (λ m, ¬ is_system h m) pre → Forall (λ m, ¬ is_system h m) post →
  is_system h s →
  Lib.swap_system_prompt (VRef l) prompt h
  = (h ++ [OList (pre ++ VRef (S (length h)) :: post); system_record prompt],
     inr (VRef (length h))).
Proof.
  intros Hl Hpre Hpost Hnpre Hnpost Hs.
  erewrite swap_run_system; [|by apply py_iter_list_ok| |done|done|done].
  - by rewrite filter_all.
  - apply Forall_app. split; [done|]. constructor; [by apply is_system_has_role|done].
Qed.

Lemma lookup_new_list (h : heap) o1 o2 : (h ++ [o1; o2]) !! length h = Some o1.
Proof. apply lookup_middle_eq. Qed.

Lemma lookup_new_record (h : heap) o1 o2 : (h ++ [o1; o2]) !! S (length h) = Some o2.
Proof.
  rewrite lookup_app_r by lia. by replace (S (length h) - length h) with 1 by lia.
Qed.

(** The state after one swap, as the second swap needs it. *)
Lemma swap_twice_from h kept post prompt :
  Forall (has_role h) kept → Forall (has_role h) post →
  Forall (λ m, ¬ is_system h m) kept → Forall (λ m, ¬ is_system h m) post →
  let h1 := h ++ [OList (kept ++ VRef (S (length h)) :: post); system_record prompt] in
  ∃ h2 r2,
    Lib.swap_system_prompt (VRef (length h)) prompt h1 = (h2, inr r2) ∧
    py_eq h2 r2 (VRef (length h)).
Proof.
  intros Hkept Hpost Hnkept Hnpost h1.
  assert (Hin : ∀ xs, Forall (has_role h) xs → Forall (has_role h1) xs).
  { intros xs Hxs. eapply Forall_impl; [exact Hxs|]. intros m. apply has_role_app. }
  assert (Hnot : ∀ xs, Forall (has_role h) xs → Forall (λ m, ¬ is_system h m) xs →
            Forall (λ m, ¬ is_system h1 m) xs).
  { intros xs Hxs Hn. rewrite Forall_forall in Hxs, Hn. apply Forall_forall.
    intros m Hm. unfold h1. rewrite is_system_app by auto. auto. }
  eexists _, _. split.
  - apply swap_run_single with (pre := kept) (s := VRef (S (length h))) (post := post);
      [apply lookup_new_list|auto..|apply is_system_new_record].
  - eapply py_eq_one_record.
    + apply lookup_new_list.
    + apply lookup_app_l_Some, lookup_new_list.
    + apply lookup_new_record.
    + apply lookup_app_l_Some, lookup_new_record.
Qed.

(** C6.  On a list of message records, swapping with [prompt] and then
    swapping the result with the same [prompt] both return, and the second
    result equals the first (Python's [==], compared in the final store). *)
Theorem swap_system_prompt_idempotent
    (h : heap) (l : loc) (items : list val) (prompt : string) :
  h !! l = Some (OList items) →
  Forall (has_role h) items →
  ∃ h1 r1 h2 r2,
    Lib.swap_system_prompt (VRef l) prompt h = (h1, inr r1) ∧
    Lib.swap_system_prompt r1 prompt h1 = (h2, inr r2) ∧
    py_eq h2 r2 r1.
Proof.
  intros Hl Hroles. apply py_iter_list_ok in Hl.
  destruct (last_split (is_system h) items)
    as [Hnone|(pre & s & post & -> & Hs & Hpost)].
  - destruct (swap_twice_from h [] items prompt) as (h2 & r2 & Hrun2 & Heq); auto.
    eexists _, _, h2, r2. split; [|split; [exact Hrun2|exact Heq]].
    by apply swap_run_no_system.
  - apply Forall_app in Hroles as [Hpre Hrest].
    pose proof Hrest as [Hsr Hrpost]%Forall_cons.
    destruct (swap_twice_from h (filter (λ m, ¬ is_system h m) pre) post prompt)
      as (h2 & r2 & Hrun2 & Heq); auto.
    { apply Forall_forall. intros m [_ Hin]%list_elem_of_filter.
      rewrite Forall_forall in Hpre. auto. }
    { apply Forall_forall. by intros m [Hm _]%list_elem_of_filter. }
    eexists _, _, h2, r2. split; [|split; [exact Hrun2|exact Heq]].
    eapply swap_run_system; eauto. apply Forall_app. by split.
Qed.

Lemma swap_system_prompt_idempotent_witness :
  ∃ h1 r1 h2 r2,
    Lib.swap_system_prompt (VRef 3) "P" two_system_store = (h1, inr r1) ∧
    Lib.swap_system_prompt r1 "P" h1 = (h2, inr r2) ∧
    py_eq h2 r2 r1.
Proof.
  apply (swap_system_prompt_idempotent two_system_store 3 [VRef 0; VRef 1; VRef 2] "P").
  - reflexivity.
  - repeat constructor; by eexists.
Defined.

(** ** C2: what [add_context_to_messages] does to a flat thread *)

(** The scan of [_add_context_to_sequence] ends with the position of the
    last system message. *)
Lemma last_system_scan_ok h xs : ∀ i acc,
  Forall (has_role h) xs →
  for_fold (enumerate_from i xs) acc (λ '(i, msg) system_idx,
    role ← py_getitem_str msg "role";
    mret (if decide (role = VStr "system") then Some i else system_idx)) h
  = (h, inr (match last (positions (is_system h) i xs) with
             | Some j => Some j
             | None => acc
             end)).
Proof.
  induction xs as [|x xs IH]; intros i acc Hxs; simpl; [done|].
  apply Forall_cons in Hxs as [[r Hr] Hxs].
  rewrite (bind_ok _ _ _ _ _ (bind_ok _ _ _ _ _ (getitem_role_ok _ _ _ Hr))).
  unfold mret at 1, M_ret at 1. rewrite (IH _ _ Hxs), (is_system_role _ _ _ Hr).
  case_decide.
  - rewrite bool_decide_eq_true_2 by done. rewrite last_cons.
    by destruct (last _).
  - by rewrite bool_decide_eq_false_2 by done.
Qed.

Lemma last_system_idx_ok h items :
  Forall (has_role h) items →
  Lib.last_system_idx items h = (h, inr (last (positions (is_system h) 0 items))).
Proof.
  intros Hxs. unfold Lib.last_system_idx, enumerate.
  rewrite last_system_scan_ok by done. by destruct (last _).
Qed.

Lemma last_system_idx_heap items h h' r : Lib.last_system_idx items h = (h', r) → h' = h.
Proof.
  unfold Lib.last_system_idx. intros H. symmetry.
  apply (for_fold_inv (λ h1, h = h1)) in H; [done| |done].
  intros [i m] s h1 h2 r' -> Hb. step_in Hb.
  - by apply py_getitem_str_heap in Hstep.
  - apply py_getitem_str_heap in Hstep. unfold mret, M_ret in Hb. by simplify_eq.
Qed.

(** A message record is a dict. *)
Lemma isinstance_record h m ts :
  has_role h m → isinstance m ts h = (h, inr (bool_decide (TDict ∈ ts))).
Proof.
  intros [r Hr]. destruct m as [| | |k]; try done. simpl in Hr.
  unfold isinstance. simpl. unfold mbind, M_bind, read.
  by destruct (h !! k) as [[| |d]|].
Qed.

Lemma isinstance_ref h l o ts :
  h !! l = Some o → isinstance (VRef l) ts h = (h, inr (bool_decide (obj_type o ∈ ts))).
Proof.
  intros Hl. unfold isinstance. simpl.
  by rewrite (bind_ok _ _ _ _ _ (bind_ok _ _ _ _ _ (read_ok _ _ _ Hl))).
Qed.

(** A list of message records takes the flat path. *)
Lemma add_context_flat h l items context :
  h !! l = Some (OList items) →
  Forall (has_role h) items →
  Lib.add_context_to_messages (VRef l) context h
  = Lib._add_context_to_sequence context (VRef l) h.
Proof.
  intros Hl Hroles. unfold Lib.add_context_to_messages.
  erewrite bind_ok; last first.
  { simpl. by rewrite (bind_ok _ _ _ _ _ (read_ok _ _ _ Hl)). }
  rewrite (bind_ok _ _ h h true); [done|].
  destruct Hroles as [|m items Hm _]; [done|].
  rewrite bool_decide_eq_true_2 by done. simpl.
  rewrite (bind_ok _ _ _ _ _ (bind_ok _ _ _ _ _ (read_ok _ _ _ Hl))). simpl.
  by rewrite (bind_ok _ _ _ _ _ (isinstance_record _ _ _ Hm)).
Qed.

(** One thread with a system message whose content is a str. *)
Lemma add_context_run_system h l items pre k d c post context :
  h !! l = Some (OList items) →
  Forall (has_role h) items →
  items = pre ++ VRef k :: post →
  is_system h (VRef k) →
  Forall (λ m, ¬ is_system h m) post →
  h !! k = Some (ODict d) →
  d !! "content" = Some (VStr c) →
  Lib._add_context_to_sequence context (VRef l) h
  = (<[k := ODict (<["content" := VStr (c +:+ two_newlines +:+ context)]> d)]> h
       ++ [OList items],
     inr (VRef (length h))).
Proof.
  intros Hl Hroles -> Hs Hpost Hk Hc. unfold Lib._add_context_to_sequence.
  rewrite (bind_ok _ _ _ _ _ (py_list_ok _ _ _ (py_iter_list_ok _ _ _ Hl))).
  rewrite (bind_ok _ _ _ _ _ (py_iter_list_ok _ _ _ (lookup_middle_eq h _ []))).
  erewrite bind_ok; last first.
  { apply last_system_idx_ok. eapply Forall_impl; [exact Hroles|].
    intros m. apply has_role_app. }
  rewrite positions_is_system_app by done.
  rewrite (positions_last_split _ _ _ _ _ Hs Hpost), last_snoc. simpl.
  assert (Hk1 : (h ++ [OList (pre ++ VRef k :: post)]) !! k = Some (ODict d))
    by by apply lookup_app_l_Some.
  erewrite bind_ok; [reflexivity|].
  erewrite bind_ok; last first.
  { simpl. rewrite (bind_ok _ _ _ _ _ (read_ok _ _ _ (lookup_middle_eq h _ []))).
    by rewrite list_lookup_middle. }
  erewrite bind_ok; last first.
  { simpl. rewrite (bind_ok _ _ _ _ _ (read_ok _ _ _ Hk1)). by rewrite Hc. }
  erewrite bind_ok by reflexivity.
  simpl. rewrite (bind_ok _ _ _ _ _ (read_ok _ _ _ Hk1)).
  unfold write. rewrite insert_app_l by by eapply lookup_lt_Some. done.
Qed.

(** One thread without a system message. *)
Lemma add_context_run_no_system h l items context :
  h !! l = Some (OList items) →
  Forall (has_role h) items →
  Forall (λ m, ¬ is_system h m) items →
  Lib._add_context_to_sequence context (VRef l) h
  = (h ++ [OList (VRef (S (length h)) :: items); system_record context],
     inr (VRef (length h))).
Proof.
  intros Hl Hroles Hnone. unfold Lib._add_context_to_sequence.
  rewrite (bind_ok _ _ _ _ _ (py_list_ok _ _ _ (py_iter_list_ok _ _ _ Hl))).
  rewrite (bind_ok _ _ _ _ _ (py_iter_list_ok _ _ _ (lookup_middle_eq h _ []))).
  erewrite bind_ok; last first.
  { apply last_system_idx_ok. eapply Forall_impl; [exact Hroles|].
    intros m. apply has_role_app. }
  rewrite positions_is_system_app by done.
  rewrite (positions_none _ _ _ Hnone). simpl.
  erewrite bind_ok; [reflexivity|].
  rewrite (bind_ok _ _ _ _ _ (construct_message_ok _ _ _)).
  rewrite length_app. simpl. rewrite Nat.add_1_r, <- app_assoc. simpl.
  erewrite list_insert_at_ok by apply lookup_middle_eq.
  by rewrite insert_middle_eq.
Qed.

(** C2.  Let [messages] be a list of message records.  If it has a system
    message, let [k] be the record of the last one and let its content be
    the str [c]: the call writes [c + "\n\n" + context] under ["content"] of
    that record, changes no other object, and returns a new list with the
    same elements.  If it has no system message, the call returns a new list
    that holds a newly built record
    [{"role": "system", "content": context}] at index 0 followed by the
    messages.  On the empty list the result holds that record alone. *)
Theorem add_context_to_messages_flat_spec
    (h : heap) (l : loc) (items : list val) (context : string) :
  h !! l = Some (OList items) →
  Forall (has_role h) items →
  (∀ pre k d c post,
     items = pre ++ VRef k :: post →
     is_system h (VRef k) →
     Forall (λ m, ¬ is_system h m) post →
     h !! k = Some (ODict d) →
     d !! "content" = Some (VStr c) →
     Lib.add_context_to_messages (VRef l) context h
     = (<[k := ODict (<["content" := VStr (c +:+ two_newlines +:+ context)]> d)]> h
          ++ [OList items],
        inr (VRef (length h)))) ∧
  (Forall (λ m, ¬ is_system h m) items →
     Lib.add_context_to_messages (VRef l) context h
     = (h ++ [OList (VRef (S (length h)) :: items); system_record context],
        inr (VRef (length h)))) ∧
  (items = [] →
     Lib.add_context_to_messages (VRef l) context h
     = (h ++ [OList [VRef (S (length h))]; system_record context],
        inr (VRef (length h)))).
Proof.
  intros Hl Hroles. rewrite (add_context_flat _ _ _ _ Hl Hroles). split_and!.
  - intros pre k d c post. by apply add_context_run_system.
  - by apply add_context_run_no_system.
  - intros ->. by apply add_context_run_no_system.
Qed.

Lemma add_context_to_messages_flat_spec_witness :
  Lib.add_context_to_messages (VRef 3) "ctx" two_system_store
  = ([record "system" "a"; record "system" ("b" +:+ two_newlines +:+ "ctx");
      record "user" "hi"; OList [VRef 0; VRef 1; VRef 2]; OList [VRef 0; VRef 1; VRef 2]],
     inr (VRef 4))
  ∧ Lib.add_context_to_messages (VRef 1) "ctx" user_only_store
  = (user_only_store ++ [OList [VRef 3; VRef 0]; system_record "ctx"], inr (VRef 2))
  ∧ Lib.add_context_to_messages (VRef 0) "ctx" empty_list_store
  = (empty_list_store ++ [OList [VRef 2]; system_record "ctx"], inr (VRef 1)).
Proof.
  split_and!.
  - destruct (add_context_to_messages_flat_spec two_system_store 3
                [VRef 0; VRef 1; VRef 2] "ctx") as [Hsys _];
      [reflexivity|repeat constructor; by eexists|].
    etrans.
    { apply (Hsys [VRef 0] 1 {[ "role" := VStr "system"; "content" := VStr "b" ]}
               "b" [VRef 2]);
        [reflexivity|by vm_compute|repeat constructor; by vm_compute
        |reflexivity|reflexivity]. }
    by vm_compute.
  - destruct (add_context_to_messages_flat_spec user_only_store 1 [VRef 0] "ctx")
      as (_ & Hnone & _); [reflexivity|repeat constructor; by eexists|].
    assert (Hn : Forall (λ m, ¬ is_system user_only_store m) [VRef 0])
      by (repeat constructor; by vm_compute).
    exact (Hnone Hn).
  - destruct (add_context_to_messages_flat_spec empty_list_store 0 [] "ctx")
      as (_ & _ & Hempty); [reflexivity|constructor|].
    exact (Hempty eq_refl).
Defined.

(** C2 as the specification states it, for every flat thread, fails where
    the content of the last system message is not a str; the specification
    lets a content be "text or structured payload".  With a dict as content
    the call raises [TypeError] and appends nothing.  With a list as content
    it returns, and the content is the same list with the characters of
    ["\n\nctx"] behind its elements, one element each. *)
Lemma add_context_structured_content :
  valid_thread structured_content_store (VRef 2) ∧
  is_system structured_content_store (VRef 1) ∧
  Lib.add_context_to_messages (VRef 2) "ctx" structured_content_store
  = (structured_content_store ++ [OList [VRef 1]], inl TypeError) ∧
  valid_thread list_content_store (VRef 2) ∧
  is_system list_content_store (VRef 1) ∧
  Lib.add_context_to_messages (VRef 2) "ctx" list_content_store
  = ([OList (VStr "part" :: str_chars (two_newlines +:+ "ctx"));
      ODict {[ "role" := VStr "system"; "content" := VRef 0 ]};
      OList [VRef 1]; OList [VRef 1]],
     inr (VRef 3)).
Proof.
  split_and!.
  - exists 2, [VRef 1]. split_and!; [done..|]. repeat constructor. by eexists.
  - by vm_compute.
  - by vm_compute.
  - exists 2, [VRef 1]. split_and!; [done..|]. repeat constructor. by eexists.
  - by vm_compute.
  - by vm_compute.
Qed.

(** ** C7: a str becomes a one-message thread *)

(** C7.  For every str [s] and in both modules, [format_messages(s)]
    returns a new one-element list whose element is a new record
    [{"role": "user", "content": s}]; nothing else in the store changes. *)
Theorem format_messages_str (s : string) (h : heap) :
  Lib.format_messages (VStr s) h
  = (h ++ [record "user" s; OList [VRef (length h)]], inr (VRef (S (length h)))) ∧
  Utils.format_messages (VStr s) h
  = (h ++ [record "user" s; OList [VRef (length h)]], inr (VRef (S (length h)))).
Proof.
  assert (Hlen : length (h ++ [record "user" s]) = S (length h)).
  { rewrite length_app. simpl. lia. }
  split.
  - unfold Lib.format_messages.
    rewrite (bind_ok _ _ h h true) by done.
    rewrite (bind_ok _ _ _ _ _ (construct_message_ok _ _ _)).
    unfold alloc. fold (record "user" s). by rewrite Hlen, <- app_assoc.
  - unfold Utils.format_messages.
    rewrite (bind_ok _ _ h h true) by done.
    unfold mbind, M_bind, alloc. fold (record "user" s). by rewrite Hlen, <- app_assoc.
Qed.

(** ** C9: what the membership test of [validate_thread_of_messages] lets through *)

Lemma str_contains_ok k s h b :
  str_contains k s = b → py_contains k (VStr s) h = (h, inr b).
Proof. by intros <-. Qed.

(** A list of strs that each contain ["role"] passes the validation of
    [src/messages.py]. *)
Lemma lib_validate_accepts_strs h v (ss : list string) :
  py_iter v h = (h, inr (VStr <$> ss)) →
  Forall (λ s, str_contains "role" s = true) ss →
  Lib.validate_thread_of_messages v h = (h, inr v).
Proof.
  intros Hv Hss. unfold Lib.validate_thread_of_messages.
  rewrite (bind_ok _ _ _ _ _ Hv).
  erewrite bind_ok; [reflexivity|].
  apply for_each_all_ok. intros x [s [-> Hs]]%list_elem_of_fmap.
  rewrite Forall_forall in Hss.
  by rewrite (bind_ok _ _ _ _ _ (str_contains_ok _ _ _ _ (Hss _ Hs))).
Qed.

Lemma lib_format_accepts_strs h l (ss : list string) :
  h !! l = Some (OList (VStr <$> ss)) →
  ss ≠ [] →
  Forall (λ s, str_contains "role" s = true) ss →
  Lib.format_messages (VRef l) h = (h, inr (VRef l)).
Proof.
  intros Hl Hne Hss. unfold Lib.format_messages.
  rewrite (bind_ok _ _ _ _ _ (isinstance_ref _ _ _ _ Hl)). simpl.
  rewrite (bind_ok _ _ _ _ _ (isinstance_ref _ _ _ _ Hl)). simpl.
  destruct ss as [|s ss]; [done|].
  erewrite bind_ok; last first.
  { simpl. by rewrite (bind_ok _ _ _ _ _ (read_ok _ _ _ Hl)). }
  rewrite (bind_ok _ _ h h false) by done. simpl.
  apply lib_validate_accepts_strs with (ss := s :: ss); [|done].
  by apply py_iter_list_ok.
Qed.

(** C9.  The list [["role play"]] is a non-empty flat list whose only
    element is a str, not a mapping, and [format_messages] of
    [src/messages.py] returns that very list without raising and without
    changing the store. *)
Theorem lib_format_messages_accepts_non_mapping :
  role_play_store !! 0 = Some (OList [VStr "role play"]) ∧
  type_of (VStr "role play") role_play_store = (role_play_store, inr TStr) ∧
  Lib.format_messages (VRef 0) role_play_store = (role_play_store, inr (VRef 0)).
Proof.
  split_and!; [done|done|].
  apply lib_format_accepts_strs with (ss := ["role play"]); [done|done|].
  by repeat constructor.
Qed.

(** The other module tests [isinstance(message, Dict)] first and rejects
    the same list. *)
Lemma utils_format_messages_rejects_str_element :
  Utils.format_messages (VRef 0) role_play_store
  = (role_play_store, inl (ValueError "Invalid message format")).
Proof. by vm_compute. Qed.

(** ** C3: the empty list *)

Lemma determine_if_batch_empty h l :
  h !! l = Some (OList []) → Utils.determine_if_batch (VRef l) h = (h, inl IndexError).
Proof.
  intros Hl. unfold Utils.determine_if_batch.
  rewrite (bind_ok _ _ _ _ _ (isinstance_ref _ _ _ _ Hl)). simpl.
  rewrite (bind_ok _ _ _ _ _ (isinstance_ref _ _ _ _ Hl)). simpl.
  by rewrite (bind_err _ _ _ _ _ (bind_ok _ _ _ _ _ (read_ok _ _ _ Hl))).
Qed.

Lemma utils_format_messages_empty h l :
  h !! l = Some (OList []) → Utils.format_messages (VRef l) h = (h, inl IndexError).
Proof.
  intros Hl. unfold Utils.format_messages.
  rewrite (bind_ok _ _ _ _ _ (isinstance_ref _ _ _ _ Hl)). simpl.
  by rewrite (bind_err _ _ _ _ _ (determine_if_batch_empty _ _ Hl)).
Qed.

Lemma lib_format_messages_empty h l :
  h !! l = Some (OList []) → Lib.format_messages (VRef l) h = (h, inl IndexError).
Proof.
  intros Hl. unfold Lib.format_messages.
  rewrite (bind_ok _ _ _ _ _ (isinstance_ref _ _ _ _ Hl)). simpl.
  rewrite (bind_ok _ _ _ _ _ (isinstance_ref _ _ _ _ Hl)). simpl.
  by rewrite (bind_err _ _ _ _ _ (bind_ok _ _ _ _ _ (read_ok _ _ _ Hl))).
Qed.

(** The empty list is the only input on which the classification raises
    a Python exception. *)
Lemma isinstance_err v ts h h' e : isinstance v ts h = (h', inl e) → e = BadRef.
Proof.
  unfold isinstance. destruct v as [| | |l]; simpl; try done.
  unfold mbind, M_bind, mret, M_ret, read. cbv beta.
  destruct (h !! l); intros; by simplify_eq.
Qed.

Lemma isinstance_inv v ts h h' :
  isinstance v ts h = (h', inr true) →
  (∃ l o, v = VRef l ∧ h !! l = Some o ∧ obj_type o ∈ ts) ∨
  (∀ l, v ≠ VRef l).
Proof.
  unfold isinstance. destruct v as [| | |l]; simpl; try (by right).
  unfold mbind, M_bind, mret, M_ret, read. cbv beta.
  destruct (h !! l) as [o|] eqn:Hl; [|done].
  intros H. simplify_eq. left. exists l, o. split_and!; [done..|].
  by eapply bool_decide_eq_true_1.
Qed.

Lemma isinstance_list_inv v h h' :
  isinstance v [TList] h = (h', inr true) →
  ∃ l xs, v = VRef l ∧ h !! l = Some (OList xs).
Proof.
  intros H. pose proof H as Hb.
  apply isinstance_inv in H as [(l & o & -> & Hl & Ho)|Hv].
  - apply list_elem_of_singleton in Ho. destruct o; try done. eauto.
  - destruct v; try done. by destruct (Hv l).
Qed.

Lemma determine_if_batch_raises_only_on_empty v h h' e :
  Utils.determine_if_batch v h = (h', inl e) →
  e = BadRef ∨ (e = IndexError ∧ ∃ l, v = VRef l ∧ h !! l = Some (OList [])).
Proof.
  unfold Utils.determine_if_batch. intros H. step_in H.
  { left. simplify_eq. by eapply isinstance_err. }
  destruct a; [done|].
  pose proof (isinstance_heap _ _ _ _ _ Hstep) as ->. clear Hstep. step_in H.
  { left. simplify_eq. by eapply isinstance_err. }
  destruct a; [|done]. simpl in H.
  pose proof (isinstance_heap _ _ _ _ _ Hstep) as ->.
  apply isinstance_list_inv in Hstep as (l & xs & -> & Hl).
  step_in H as Hfirst.
  - simpl in Hfirst. rewrite (bind_ok _ _ _ _ _ (read_ok _ _ _ Hl)) in Hfirst.
    destruct xs as [|x xs]; [|done]. simpl in Hfirst.
    unfold raise in Hfirst. simplify_eq. right. eauto.
  - left. by eapply isinstance_err.
Qed.

(** C3 (the code departs from the specification).  On the empty list the
    classification itself raises [IndexError], and so does
    [format_messages] in both modules: [messages[0]] is read before the
    list is known to have an element. *)
Theorem empty_list_classification_raises :
  Utils.determine_if_batch (VRef 0) empty_list_store = (empty_list_store, inl IndexError) ∧
  Utils.format_messages (VRef 0) empty_list_store = (empty_list_store, inl IndexError) ∧
  Lib.format_messages (VRef 0) empty_list_store = (empty_list_store, inl IndexError).
Proof.
  split_and!.
  - by apply determine_if_batch_empty.
  - by apply utils_format_messages_empty.
  - by apply lib_format_messages_empty.
Qed.

(** ** C4: inputs of no accepted shape *)

Lemma isinstance_of_type v ts h t :
  type_of v h = (h, inr t) → isinstance v ts h = (h, inr (bool_decide (t ∈ ts))).
Proof. intros Ht. unfold isinstance. by rewrite (bind_ok _ _ _ _ _ Ht). Qed.

(** [_utils/messages.py] raises its format error on every input that is
    neither a str, nor a list, nor a dict with a role. *)
Lemma utils_format_messages_other_shape v h t :
  type_of v h = (h, inr t) →
  t ≠ TStr → t ≠ TList →
  (t = TDict → py_contains "role" v h = (h, inr false)) →
  Utils.format_messages v h = (h, inl (ValueError "Invalid messages format")).
Proof.
  intros Ht Hstr Hlist Hdict.
  assert (His : ∀ t', t ≠ t' → isinstance v [t'] h = (h, inr false)).
  { intros t' Hne. rewrite (isinstance_of_type _ _ _ _ Ht).
    rewrite bool_decide_eq_false_2; [done|]. by intros ->%list_elem_of_singleton. }
  unfold Utils.format_messages.
  rewrite (bind_ok _ _ _ _ _ (His _ Hstr)).
  erewrite bind_ok; last first.
  { unfold Utils.determine_if_batch.
    rewrite (bind_ok _ _ _ _ _ (His _ Hstr)).
    by rewrite (bind_ok _ _ _ _ _ (His _ Hlist)). }
  cbv iota.
  destruct (decide (t = TDict)) as [->|Hnd].
  - rewrite (bind_ok _ _ _ _ _ (isinstance_of_type _ _ _ _ Ht)). simpl.
    rewrite (bind_ok _ _ _ _ _ (Hdict eq_refl)).
    by rewrite (bind_ok _ _ _ _ _ (His _ Hlist)).
  - rewrite (bind_ok _ _ _ _ _ (His _ Hnd)).
    rewrite (bind_ok _ _ h h false) by done.
    by rewrite (bind_ok _ _ _ _ _ (His _ Hlist)).
Qed.

(** [src/messages.py] raises its format error on a dict without a role. *)
Lemma lib_format_messages_dict_without_role h l d :
  h !! l = Some (ODict d) → d !! "role" = None →
  Lib.format_messages (VRef l) h
  = (h, inl (ValueError "messages must be a string, message, or a list of messages")).
Proof.
  intros Hl Hd. unfold Lib.format_messages.
  rewrite (bind_ok _ _ _ _ _ (isinstance_ref _ _ _ _ Hl)). simpl.
  rewrite (bind_ok _ _ _ _ _ (isinstance_ref _ _ _ _ Hl)). simpl.
  erewrite bind_ok; last first.
  { simpl. rewrite (bind_ok _ _ _ _ _ (read_ok _ _ _ Hl)). reflexivity. }
  rewrite bool_decide_eq_false_2; [done|]. rewrite Hd. by intros [? ?].
Qed.

(** C4 (the code departs from the specification).  In [src/messages.py] an int, or
    [None], reaches the test ["role" in messages], which raises [TypeError]
    on a value that is not a container; the [ValueError] of the [else]
    branch is never raised for it. *)
Theorem lib_format_messages_int_raises_TypeError (n : Z) (h : heap) :
  Lib.format_messages (VInt n) h = (h, inl TypeError) ∧
  Lib.format_messages VNone h = (h, inl TypeError).
Proof. by split. Qed.

(** ** C5: canonical input *)

Lemma py_contains_record h m : has_role h m → py_contains "role" m h = (h, inr true).
Proof.
  intros [r Hr]. destruct m as [| | |k]; try done. simpl in *.
  unfold mbind, M_bind, read. destruct (h !! k) as [[| |d]|]; try done.
  by rewrite bool_decide_eq_true_2 by by rewrite Hr.
Qed.

Lemma invalid_message_record h m :
  has_role h m → Utils.invalid_message m h = (h, inr false).
Proof.
  intros Hm. unfold Utils.invalid_message.
  rewrite (bind_ok _ _ _ _ _ (isinstance_record _ _ _ Hm)). simpl.
  by rewrite (bind_ok _ _ _ _ _ (py_contains_record _ _ Hm)).
Qed.

(** The validation loop of [_utils/messages.py] passes message records. *)
Lemma utils_check_loop_ok h items :
  Forall (has_role h) items →
  for_each items (λ message,
    bad ← Utils.invalid_message message;
    if (bad : bool) then raise (ValueError "Invalid message format") else mret tt) h
  = (h, inr tt).
Proof.
  intros Hitems. apply for_each_all_ok. intros m Hm.
  rewrite Forall_forall in Hitems.
  by rewrite (bind_ok _ _ _ _ _ (invalid_message_record _ _ (Hitems _ Hm))).
Qed.

Lemma lib_validate_ok h v items :
  py_iter v h = (h, inr items) →
  Forall (has_role h) items →
  Lib.validate_thread_of_messages v h = (h, inr v).
Proof.
  intros Hv Hitems. unfold Lib.validate_thread_of_messages.
  rewrite (bind_ok _ _ _ _ _ Hv).
  erewrite bind_ok; [reflexivity|].
  apply for_each_all_ok. intros m Hm. rewrite Forall_forall in Hitems.
  by rewrite (bind_ok _ _ _ _ _ (py_contains_record _ _ (Hitems _ Hm))).
Qed.

(** A non-empty list of message records is returned as it is: the same
    list object, in an unchanged store. *)
Lemma utils_format_thread_identity h l items :
  h !! l = Some (OList items) → items ≠ [] → Forall (has_role h) items →
  Utils.format_messages (VRef l) h = (h, inr (VRef l)).
Proof.
  intros Hl Hne Hitems. unfold Utils.format_messages.
  rewrite (bind_ok _ _ _ _ _ (isinstance_ref _ _ _ _ Hl)). simpl.
  destruct Hitems as [|m items Hm Hitems]; [done|].
  erewrite bind_ok; last first.
  { unfold Utils.determine_if_batch.
    rewrite (bind_ok _ _ _ _ _ (isinstance_ref _ _ _ _ Hl)). simpl.
    rewrite (bind_ok _ _ _ _ _ (isinstance_ref _ _ _ _ Hl)). simpl.
    rewrite (bind_ok _ _ _ _ _ (bind_ok _ _ _ _ _ (read_ok _ _ _ Hl))). simpl.
    apply (isinstance_record _ _ _ Hm). }
  simpl.
  rewrite (bind_ok _ _ _ _ _ (isinstance_ref _ _ _ _ Hl)). simpl.
  rewrite (bind_ok _ _ h h false) by done.
  rewrite (bind_ok _ _ _ _ _ (isinstance_ref _ _ _ _ Hl)). simpl.
  rewrite (bind_ok _ _ _ _ _ (bind_ok _ _ _ _ _ (read_ok _ _ _ Hl))).
  by rewrite (bind_ok _ _ _ _ _ (utils_check_loop_ok _ _ (Forall_cons_2 _ _ _ Hm Hitems))).
Qed.

Lemma lib_format_thread_identity h l items :
  h !! l = Some (OList items) → items ≠ [] → Forall (has_role h) items →
  Lib.format_messages (VRef l) h = (h, inr (VRef l)).
Proof.
  intros Hl Hne Hitems. unfold Lib.format_messages.
  rewrite (bind_ok _ _ _ _ _ (isinstance_ref _ _ _ _ Hl)). simpl.
  rewrite (bind_ok _ _ _ _ _ (isinstance_ref _ _ _ _ Hl)). simpl.
  destruct Hitems as [|m items Hm Hitems]; [done|].
  rewrite (bind_ok _ _ _ _ _ (bind_ok _ _ _ _ _ (read_ok _ _ _ Hl))). simpl.
  rewrite (bind_ok _ _ _ _ _ (isinstance_record _ _ _ Hm)). simpl.
  eapply lib_validate_ok; [by apply py_iter_list_ok|by constructor].
Qed.

Lemma elem_of_enumerate_from {A : Type} (xs : list A) n i x :
  (i, x) ∈ enumerate_from n xs → x ∈ xs.
Proof.
  revert n. induction xs as [|y xs IH]; intros n; simpl; [by intros ?%elem_of_nil|].
  intros [?|?]%elem_of_cons; [simplify_eq; by left|right; eauto].
Qed.

Lemma valid_thread_is_list h t ts :
  valid_thread h t → isinstance t ts h = (h, inr (bool_decide (TList ∈ ts))).
Proof. intros (k & items & -> & Hk & _). by rewrite (isinstance_ref _ _ _ _ Hk). Qed.

Lemma valid_thread_app h ext t : valid_thread h t → valid_thread (h ++ ext) t.
Proof.
  intros (k & items & -> & Hk & Hitems). exists k, items. split_and!; [done| |].
  - by apply lookup_app_l_Some.
  - eapply Forall_impl; [exact Hitems|]. intros m. apply has_role_app.
Qed.

(** A non-empty batch of lists of message records is returned as it is by
    [_utils/messages.py]: the same object, in an unchanged store. *)
Lemma utils_format_batch_identity h l threads :
  h !! l = Some (OList threads) → threads ≠ [] → Forall (valid_thread h) threads →
  Utils.format_messages (VRef l) h = (h, inr (VRef l)).
Proof.
  intros Hl Hne Hthreads. unfold Utils.format_messages.
  rewrite (bind_ok _ _ _ _ _ (isinstance_ref _ _ _ _ Hl)). simpl.
  rewrite (bind_ok _ _ h h true); last first.
  { unfold Utils.determine_if_batch.
    rewrite (bind_ok _ _ _ _ _ (isinstance_ref _ _ _ _ Hl)). simpl.
    rewrite (bind_ok _ _ _ _ _ (isinstance_ref _ _ _ _ Hl)). simpl.
    destruct Hthreads as [|t threads Ht _]; [done|].
    rewrite (bind_ok _ _ _ _ _ (py_getitem_nat_list_ok _ _ _ 0 t Hl eq_refl)).
    by rewrite (valid_thread_is_list _ _ _ Ht). }
  cbv iota.
  rewrite (bind_ok _ _ _ _ _ (py_iter_list_ok _ _ _ Hl)).
  erewrite bind_ok; [reflexivity|].
  apply for_each_all_ok. intros [i t] Hit%elem_of_enumerate_from.
  rewrite Forall_forall in Hthreads.
  destruct (Hthreads _ Hit) as (k & items & -> & Hk & Hitems).
  rewrite (bind_ok _ _ _ _ _ (py_iter_list_ok _ _ _ Hk)).
  by apply utils_check_loop_ok.
Qed.

(** The batch loop of [src/messages.py] copies the threads, in order, into
    the list it builds. *)
Lemma lib_batch_loop_ok h rest : ∀ collected,
  Forall (valid_thread h) rest →
  for_each rest (λ thread,
    checked ← Lib.validate_thread_of_messages thread;
    list_append (VRef (length h)) checked) (h ++ [OList collected])
  = (h ++ [OList (collected ++ rest)], inr tt).
Proof.
  induction rest as [|t rest IH]; intros collected Hrest.
  - by rewrite app_nil_r.
  - apply Forall_cons in Hrest as [Ht Hrest].
    erewrite for_each_cons_ok; last first.
    { destruct (valid_thread_app _ [OList collected] _ Ht)
        as (k & items & -> & Hk & Hitems).
      rewrite (bind_ok _ _ _ _ _
                 (lib_validate_ok _ _ _ (py_iter_list_ok _ _ _ Hk) Hitems)).
      apply list_append_ok, lookup_middle_eq. }
    rewrite insert_middle_eq, (IH _ Hrest).
    by rewrite <- app_assoc.
Qed.

(** A non-empty batch of lists of message records comes back from
    [src/messages.py] as a new list that holds the same threads in the same
    order, and so equals the input; no object of the input is written. *)
Lemma lib_format_batch_equal h l threads :
  h !! l = Some (OList threads) → threads ≠ [] → Forall (valid_thread h) threads →
  Lib.format_messages (VRef l) h = (h ++ [OList threads], inr (VRef (length h))) ∧
  py_eq (h ++ [OList threads]) (VRef (length h)) (VRef l).
Proof.
  intros Hl Hne Hthreads. split.
  - unfold Lib.format_messages.
    rewrite (bind_ok _ _ _ _ _ (isinstance_ref _ _ _ _ Hl)). simpl.
    rewrite (bind_ok _ _ _ _ _ (isinstance_ref _ _ _ _ Hl)). simpl.
    pose proof Hthreads as Hall.
    destruct Hthreads as [|t threads Ht _]; [done|].
    rewrite (bind_ok _ _ _ _ _ (py_getitem_nat_list_ok _ _ _ 0 t Hl eq_refl)).
    rewrite (bind_ok _ _ _ _ _ (valid_thread_is_list _ _ _ Ht)). simpl.
    unfold mbind at 1, M_bind at 1, alloc at 1.
    rewrite (bind_ok _ _ _ _ _ (py_iter_list_ok _ _ _ (lookup_app_l_Some _ _ _ _ Hl))).
    by rewrite (bind_ok _ _ _ _ _ (lib_batch_loop_ok _ _ [] Hall)).
  - eapply py_eq_list; [apply lookup_middle_eq|by apply lookup_app_l_Some|].
    apply Forall2_py_eq_refl.
Qed.

(** C5 (the code departs from the specification).  The empty list is a
    flat list in which every element is a message record, and
    [format_messages] does not return it: both modules raise
    [IndexError]. *)
Theorem format_messages_empty_thread_not_identity :
  empty_list_store !! 0 = Some (OList []) ∧
  Forall (has_role empty_list_store) [] ∧
  Utils.format_messages (VRef 0) empty_list_store = (empty_list_store, inl IndexError) ∧
  Lib.format_messages (VRef 0) empty_list_store = (empty_list_store, inl IndexError).
Proof.
  split_and!; [done|constructor| |].
  - by rewrite utils_format_messages_empty.
  - by rewrite lib_format_messages_empty.
Qed.

(** ** Computations that only read *)

Lemma read_only_ret {A : Type} (a : A) : read_only (mret a).
Proof. intros h h' r H. unfold mret, M_ret in H. by simplify_eq. Qed.

Lemma read_only_raise {A : Type} e : read_only (raise e : M A).
Proof. intros h h' r H. unfold raise in H. by simplify_eq. Qed.

Lemma read_only_bind {A B : Type} (m : M A) (f : A → M B) :
  read_only m → (∀ a, read_only (f a)) → read_only (m ≫= f).
Proof.
  intros Hm Hf h h' r H. step_in H.
  - by apply Hm in Hstep.
  - apply Hm in Hstep as ->. by apply Hf in H.
Qed.

Lemma read_only_for_each {A : Type} (xs : list A) (body : A → M unit) :
  (∀ x, read_only (body x)) → read_only (for_each xs body).
Proof.
  intros Hbody h h' r H. symmetry.
  apply (for_each_inv (λ x, h = x)) in H; [done| |done].
  intros x h1 h2 r' -> Hx. symmetry. by apply Hbody in Hx.
Qed.

Lemma read_only_isinstance v ts : read_only (isinstance v ts).
Proof. intros h h' r. apply isinstance_heap. Qed.

Lemma read_only_py_contains k v : read_only (py_contains k v).
Proof. intros h h' r. apply py_contains_heap. Qed.

Lemma read_only_py_iter v : read_only (py_iter v).
Proof. intros h h' r. apply py_iter_heap. Qed.

Lemma read_only_py_getitem_nat v i : read_only (py_getitem_nat v i).
Proof. intros h h' r. apply py_getitem_nat_heap. Qed.

Lemma read_only_py_getitem_str v k : read_only (py_getitem_str v k).
Proof. intros h h' r. apply py_getitem_str_heap. Qed.

Lemma read_only_py_truthy v : read_only (py_truthy v).
Proof. intros h h' r. apply py_truthy_heap. Qed.

Create HintDb read_only.

#[export] Hint Resolve read_only_ret read_only_raise read_only_isinstance
  read_only_py_contains read_only_py_iter read_only_py_getitem_nat
  read_only_py_getitem_str read_only_py_truthy : read_only.

(** Proves [read_only] of a computation built from read-only parts. *)
Ltac solve_read_only :=
  repeat first
    [ progress eauto with read_only
    | apply read_only_bind; [|intros ?]
    | apply read_only_for_each; intros ?
    | match goal with
      | |- read_only (if ?b then _ else _) => destruct b
      | |- read_only (match ?x with _ => _ end) => destruct x
      end ].

Lemma read_only_lib_validate v : read_only (Lib.validate_thread_of_messages v).
Proof. unfold Lib.validate_thread_of_messages. solve_read_only. Qed.

Lemma read_only_determine_if_batch v : read_only (Utils.determine_if_batch v).
Proof. unfold Utils.determine_if_batch. solve_read_only. Qed.

Lemma read_only_invalid_message v : read_only (Utils.invalid_message v).
Proof. unfold Utils.invalid_message. solve_read_only. Qed.

#[export] Hint Resolve read_only_lib_validate read_only_determine_if_batch
  read_only_invalid_message : read_only.

Lemma read_only_fails_clean {A : Type} (m : M A) : read_only m → fails_clean m.
Proof. intros Hm h h' e. apply Hm. Qed.

Lemma fails_clean_bind {A B : Type} (m : M A) (f : A → M B) :
  read_only m → (∀ a, fails_clean (f a)) → fails_clean (m ≫= f).
Proof.
  intros Hm Hf h h' e H. step_in H.
  - by apply Hm in Hstep.
  - apply Hm in Hstep as ->. by apply Hf in H.
Qed.

Lemma fails_clean_alloc o : fails_clean (alloc o).
Proof. by intros h h' e H. Qed.

(** When [format_messages] of [_utils/messages.py] raises, the store is
    the one it was called with. *)
Lemma utils_format_messages_fails_clean v : fails_clean (Utils.format_messages v).
Proof.
  unfold Utils.format_messages.
  apply fails_clean_bind; [solve_read_only|]. intros [|].
  { intros h h' e H. step_in H; [done|]. done. }
  apply fails_clean_bind; [solve_read_only|]. intros [|].
  { apply read_only_fails_clean.
    apply read_only_bind; [solve_read_only|]. intros threads.
    apply read_only_bind; [|solve_read_only].
    apply read_only_for_each. intros [i t]. solve_read_only. }
  apply fails_clean_bind; [solve_read_only|]. intros is_dict.
  apply fails_clean_bind; [destruct is_dict; solve_read_only|]. intros [|].
  { apply fails_clean_alloc. }
  apply read_only_fails_clean. solve_read_only.
Qed.

(** ** C8: what a failing call leaves behind *)

(** [format_messages] of [src/messages.py] writes only to the list it
    builds for a batch, whether it returns or raises. *)
Lemma lib_format_messages_frame v h h' r :
  Lib.format_messages v h = (h', r) → take (length h) h' = h.
Proof.
  unfold Lib.format_messages. intros H.
  step_in H as Hs1; [apply read_only_isinstance in Hs1 as ->; apply firstn_all|].
  apply read_only_isinstance in Hs1 as ->. destruct a.
  { step_in H as Hc; [done|]. unfold Lib.construct_message, Message, alloc in Hc, H.
    simplify_eq. rewrite <- app_assoc. apply take_app_length. }
  step_in H as Hs2; [apply read_only_isinstance in Hs2 as ->; apply firstn_all|].
  apply read_only_isinstance in Hs2 as ->. destruct a; simpl in H.
  - step_in H as Hg; [apply read_only_py_getitem_nat in Hg as ->; apply firstn_all|].
    apply read_only_py_getitem_nat in Hg as ->.
    step_in H as Hs3; [apply read_only_isinstance in Hs3 as ->; apply firstn_all|].
    apply read_only_isinstance in Hs3 as ->. destruct a0; simpl in H.
    + step_in H as Ha; [done|]. unfold alloc in Ha. simplify_eq.
      step_in H as Hi; [apply read_only_py_iter in Hi as ->; apply take_app_length|].
      apply read_only_py_iter in Hi as ->.
      assert (Hloop : ∀ x r', for_each a0 (λ thread,
                  checked ← Lib.validate_thread_of_messages thread;
                  list_append (VRef (length h)) checked) (h ++ [OList []]) = (x, r') →
                take (length h) x = h).
      { intros x r' Hrun.
        apply (for_each_inv (λ y, take (length h) y = h)) in Hrun;
          [done| |apply take_app_length].
        intros t y y' ry Hy Hbody. step_in Hbody as Hv.
        - by apply read_only_lib_validate in Hv as ->.
        - apply read_only_lib_validate in Hv as ->.
          apply list_append_frame with (n := length h) in Hbody; [|done].
          by rewrite Hbody. }
      step_in H as Hl; [by eapply Hloop|].
      unfold mret, M_ret in H. simplify_eq. by eapply Hloop.
    + apply read_only_lib_validate in H as ->. apply firstn_all.
  - step_in H as Hc; [apply read_only_py_contains in Hc as ->; apply firstn_all|].
    apply read_only_py_contains in Hc as ->. destruct a.
    + unfold alloc in H. simplify_eq. apply take_app_length.
    + unfold raise in H. simplify_eq. apply firstn_all.
Qed.

Lemma last_system_scan_inv h xs : ∀ i acc h' r,
  for_fold (enumerate_from i xs) acc (λ '(i, msg) system_idx,
    role ← py_getitem_str msg "role";
    mret (if decide (role = VStr "system") then Some i else system_idx)) h
  = (h', inr r) → Forall (has_role h) xs.
Proof.
  induction xs as [|x xs IH]; intros i acc h' r H; simpl in H; [done|].
  step_in H as Hx; [done|]. step_in Hx as Hr; [done|].
  pose proof (py_getitem_str_heap _ _ _ _ _ Hr) as ->.
  apply getitem_role_inv in Hr.
  unfold mret, M_ret in Hx. simplify_eq.
  constructor; [by eexists|by eapply IH].
Qed.

(** The index the scan returns is the index of a message record. *)
Lemma last_system_idx_inv items h h' i :
  Lib.last_system_idx items h = (h', inr (Some i)) →
  ∃ m, items !! i = Some m ∧ has_role h m.
Proof.
  intros H. pose proof (last_system_scan_inv _ _ _ _ _ _ H) as Hroles.
  rewrite (last_system_idx_ok _ _ Hroles) in H. simplify_eq.
  match goal with Hl : last _ = Some i |- _ =>
    apply last_Some_elem_of, positions_lt in Hl as Hlt end.
  destruct (lookup_lt_is_Some_2 items i) as [m Hm]; [lia|].
  exists m. split; [done|]. by eapply Forall_lookup_1.
Qed.

Lemma py_iadd_str_keeps_dicts v s h h' r (k : loc) d :
  py_iadd_str v s h = (h', r) → h !! k = Some (ODict d) → h' !! k = Some (ODict d).
Proof.
  destruct v as [| | |l]; simpl; unfold mret, M_ret, raise;
    try (intros; by simplify_eq).
  intros H Hk. step_in H as Hr; [by apply read_heap in Hr as ->|].
  pose proof (read_heap _ _ _ _ Hr) as ->.
  destruct a as [xs| |]; try (unfold raise in H; by simplify_eq).
  step_in H as Hw; [done|]. unfold write, mret, M_ret in Hw, H. simplify_eq.
  unfold read in Hr. destruct (h !! l) as [o|] eqn:Hl; [|done]. simplify_eq.
  rewrite list_lookup_insert_ne; [done|]. intros ->. congruence.
Qed.

Lemma py_iadd_str_fails_clean v s : fails_clean (py_iadd_str v s).
Proof.
  intros h h' e. destruct v as [| | |l]; simpl; unfold mret, M_ret, raise;
    try (intros; by simplify_eq).
  intros H. step_in H as Hr; [by apply read_heap in Hr as ->|].
  pose proof (read_heap _ _ _ _ Hr) as ->.
  destruct a as [xs| |]; unfold raise in H; by simplify_eq.
Qed.

(** When the edit of one thread raises, no object that existed before the
    call has been written: the call has at most added its copy of the
    list. *)
Lemma add_context_sequence_fails_frame c v h h' e :
  Lib._add_context_to_sequence c v h = (h', inl e) → take (length h) h' = h.
Proof.
  unfold Lib._add_context_to_sequence. intros H.
  step_in H as Hlist.
  { apply py_list_inv in Hlist as [(? & ? & ->)|(? & ? & ? & ?)]; [|done].
    apply firstn_all. }
  apply py_list_inv in Hlist as [(? & ? & ?)|(items & Hiter & -> & Ha)]; [done|].
  simplify_eq.
  rewrite (bind_ok _ _ _ _ _ (py_iter_list_ok _ _ _ (lookup_middle_eq h _ []))) in H.
  step_in H as Hscan.
  { apply last_system_idx_heap in Hscan as ->. apply take_app_length. }
  pose proof (last_system_idx_heap _ _ _ _ Hscan) as ->.
  step_in H as Hedit; [|done].
  destruct a as [i|].
  - apply last_system_idx_inv in Hscan as (m & Hm & [role Hrole]).
    erewrite bind_ok in Hedit; last first.
    { simpl. rewrite (bind_ok _ _ _ _ _ (read_ok _ _ _ (lookup_middle_eq h _ []))).
      by rewrite Hm. }
    step_in Hedit as Hold.
    { apply read_only_py_getitem_str in Hold as ->. apply take_app_length. }
    apply read_only_py_getitem_str in Hold as ->.
    step_in Hedit as Hadd.
    { apply py_iadd_str_fails_clean in Hadd as ->. apply take_app_length. }
    destruct m as [| | |k]; try done. simpl in Hrole.
    destruct ((h ++ [OList items]) !! k) as [[| |d]|] eqn:Hk; try done.
    pose proof (py_iadd_str_keeps_dicts _ _ _ _ _ _ _ Hadd Hk) as Hk'.
    simpl in Hedit. rewrite (bind_ok _ _ _ _ _ (read_ok _ _ _ Hk')) in Hedit.
    done.
  - rewrite (bind_ok _ _ _ _ _ (construct_message_ok _ _ _)) in Hedit.
    erewrite list_insert_at_ok in Hedit; [done|].
    rewrite <- app_assoc. apply lookup_middle_eq.
Qed.

(** ** The loop over a batch that its body may extend *)

Lemma grows_by_chars_refl n h : grows_by_chars n h h.
Proof.
  split; [done|]. intros l xs _ Hl. exists []. by rewrite app_nil_r.
Qed.

Lemma grows_by_chars_trans n h1 h2 h3 :
  grows_by_chars n h1 h2 → grows_by_chars n h2 h3 → grows_by_chars n h1 h3.
Proof.
  intros [Hlen1 H1] [Hlen2 H2]. split; [lia|]. intros l xs Hn Hl.
  destruct (H1 l xs Hn Hl) as (cs1 & Hl2 & Hcs1).
  destruct (H2 l _ Hn Hl2) as (cs2 & Hl3 & Hcs2).
  exists (cs1 ++ cs2). rewrite app_assoc. split; [done|]. by apply Forall_app.
Qed.

Lemma grows_by_chars_app n h ext : grows_by_chars n h (h ++ ext).
Proof.
  split; [rewrite length_app; lia|]. intros l xs _ Hl. exists [].
  rewrite app_nil_r. split; [by apply lookup_app_l_Some|done].
Qed.

Lemma grows_by_chars_write_above n (k : loc) o h :
  n ≤ k → grows_by_chars n h (<[k := o]> h).
Proof.
  intros Hk. split; [by rewrite length_insert|]. intros l xs Hn Hl. exists [].
  rewrite app_nil_r, list_lookup_insert_ne by lia. done.
Qed.

Lemma grows_by_chars_write_dict n (k : loc) d o h :
  h !! k = Some (ODict d) → grows_by_chars n h (<[k := o]> h).
Proof.
  intros Hk. split; [by rewrite length_insert|]. intros l xs Hn Hl. exists [].
  rewrite app_nil_r, list_lookup_insert_ne; [done|]. intros ->. congruence.
Qed.

Lemma str_chars_one_char s : Forall one_char (str_chars s).
Proof. induction s as [|a s IH]; simpl; constructor; [by exists a|done]. Qed.

Lemma grows_by_chars_read_only {A : Type} (m : M A) n h h' r :
  read_only m → m h = (h', r) → grows_by_chars n h h'.
Proof. intros Hm H. apply Hm in H as ->. apply grows_by_chars_refl. Qed.

Lemma py_iadd_str_grows n v s h h' r :
  py_iadd_str v s h = (h', r) → grows_by_chars n h h'.
Proof.
  destruct v as [| | |k]; simpl; unfold mret, M_ret, raise;
    try (intros; simplify_eq; apply grows_by_chars_refl).
  intros H. step_in H as Hr.
  { apply read_heap in Hr as ->. apply grows_by_chars_refl. }
  pose proof (read_heap _ _ _ _ Hr) as ->.
  unfold read in Hr. destruct (h !! k) as [o|] eqn:Hk; [|done]. simplify_eq.
  destruct a as [ys| |]; try (unfold raise in H; simplify_eq; apply grows_by_chars_refl).
  step_in H as Hw; [done|]. unfold write, mret, M_ret in Hw, H. simplify_eq.
  split; [by rewrite length_insert|]. intros l xs Hn Hl.
  destruct (decide (l = k)) as [->|Hne].
  - simplify_eq. exists (str_chars s).
    split; [|apply str_chars_one_char].
    apply list_lookup_insert_eq. by eapply lookup_lt_Some.
  - exists []. by rewrite app_nil_r, list_lookup_insert_ne.
Qed.

Lemma py_setitem_str_grows n v key x h h' r :
  py_setitem_str v key x h = (h', r) → grows_by_chars n h h'.
Proof.
  destruct v as [| | |k]; simpl; unfold raise;
    try (intros; simplify_eq; apply grows_by_chars_refl).
  intros H. step_in H as Hr.
  { apply read_heap in Hr as ->. apply grows_by_chars_refl. }
  pose proof (read_heap _ _ _ _ Hr) as ->.
  unfold read in Hr. destruct (h !! k) as [o|] eqn:Hk; [|done]. simplify_eq.
  destruct a as [ys|ys|d]; try (unfold raise in H; simplify_eq; apply grows_by_chars_refl).
  unfold write in H. simplify_eq. by eapply grows_by_chars_write_dict.
Qed.

Lemma with_list_write_grows {A : Type} n (k : loc) (f : loc → list val → M A) h h' r :
  n ≤ k →
  (∀ xs h1 h2 r1, f k xs h1 = (h2, r1) → grows_by_chars n h1 h2) →
  with_list (VRef k) f h = (h', r) → grows_by_chars n h h'.
Proof.
  intros Hk Hf H. unfold with_list in H. step_in H as Hr.
  { apply read_heap in Hr as ->. apply grows_by_chars_refl. }
  pose proof (read_heap _ _ _ _ Hr) as ->.
  destruct a; try (unfold raise in H; simplify_eq; apply grows_by_chars_refl).
  by eapply Hf.
Qed.

Lemma list_insert_at_grows n (k : loc) i x h h' r :
  n ≤ k → list_insert_at (VRef k) i x h = (h', r) → grows_by_chars n h h'.
Proof.
  intros Hk. unfold list_insert_at. apply with_list_write_grows; [done|].
  intros xs h1 h2 r1 H. unfold write in H. simplify_eq.
  by apply grows_by_chars_write_above.
Qed.

Lemma list_append_grows n (k : loc) x h h' r :
  n ≤ k → list_append (VRef k) x h = (h', r) → grows_by_chars n h h'.
Proof.
  intros Hk. unfold list_append. apply with_list_write_grows; [done|].
  intros xs h1 h2 r1 H. unfold write in H. simplify_eq.
  by apply grows_by_chars_write_above.
Qed.

(** The edit of one thread, however it ends, leaves the caller's lists as
    they were or longer by characters. *)
Lemma add_context_sequence_grows n c v h h' r :
  n ≤ length h →
  Lib._add_context_to_sequence c v h = (h', r) → grows_by_chars n h h'.
Proof.
  intros Hn H. unfold Lib._add_context_to_sequence in H.
  step_in H as Hlist.
  { apply py_list_inv in Hlist as [(? & ? & ->)|(? & ? & ? & ?)]; [|done].
    apply grows_by_chars_refl. }
  apply py_list_inv in Hlist as [(? & ? & ?)|(items & Hiter & -> & Ha)]; [done|].
  simplify_eq.
  eapply grows_by_chars_trans; [apply (grows_by_chars_app n h [OList items])|].
  step_in H as Hit.
  { eapply grows_by_chars_read_only; [apply read_only_py_iter|done]. }
  apply read_only_py_iter in Hit as ->.
  step_in H as Hscan.
  { apply last_system_idx_heap in Hscan as ->. apply grows_by_chars_refl. }
  apply last_system_idx_heap in Hscan as ->.
  assert (Hedit : ∀ h2 (r2 : exn + unit),
    match a0 with
    | Some i =>
        msg ← py_getitem_nat (VRef (length h)) i;
        old ← py_getitem_str msg "content";
        new ← py_iadd_str old (two_newlines +:+ c);
        py_setitem_str msg "content" new
    | None =>
        m ← Lib.construct_message (VStr c) "system";
        list_insert_at (VRef (length h)) 0 m
    end (h ++ [OList items]) = (h2, r2) →
    grows_by_chars n (h ++ [OList items]) h2).
  { intros h2 r2 He. destruct a0 as [i|].
    - step_in He as Hg.
      { eapply grows_by_chars_read_only; [apply read_only_py_getitem_nat|done]. }
      apply read_only_py_getitem_nat in Hg as ->.
      step_in He as Ho.
      { eapply grows_by_chars_read_only; [apply read_only_py_getitem_str|done]. }
      apply read_only_py_getitem_str in Ho as ->.
      step_in He as Hadd; [by eapply py_iadd_str_grows|].
      eapply grows_by_chars_trans; [by eapply py_iadd_str_grows|].
      by eapply py_setitem_str_grows.
    - step_in He as Hc.
      { unfold Lib.construct_message, Message, alloc in Hc. done. }
      unfold Lib.construct_message, Message, alloc in Hc. simplify_eq.
      eapply grows_by_chars_trans; [apply grows_by_chars_app|].
      eapply list_insert_at_grows; [|done]. lia. }
  step_in H as He; [by eapply Hedit|].
  unfold mret, M_ret in H. simplify_eq. by eapply Hedit.
Qed.

Lemma add_context_step_grows n c (res : loc) x h h' r :
  n ≤ length h → n ≤ res →
  add_context_step c (VRef res) x h = (h', r) → grows_by_chars n h h'.
Proof.
  intros Hn Hres H. unfold add_context_step in H. step_in H as Hs.
  { by eapply add_context_sequence_grows. }
  eapply grows_by_chars_trans; [by eapply add_context_sequence_grows|].
  by eapply list_append_grows.
Qed.

(** On a character the edit raises: its copy of the str holds a str, which
    has no ["role"]. *)
Lemma add_context_sequence_char c a h :
  Lib._add_context_to_sequence c (VStr (String a EmptyString)) h
  = (h ++ [OList [VStr (String a EmptyString)]], inl TypeError).
Proof.
  unfold Lib._add_context_to_sequence.
  rewrite (bind_ok _ _ _ _ _
             (py_list_ok h (VStr (String a EmptyString)) [VStr (String a EmptyString)]
                eq_refl)).
  by rewrite (bind_ok _ _ _ _ _ (py_iter_list_ok _ _ _ (lookup_middle_eq h _ []))).
Qed.

(** While the body leaves the elements [xs] at the front of the list, the
    live loop over them is the loop over [xs], and goes on behind them. *)
Lemma for_live_front (P : heap → Prop) (l : loc) xs (body : val → M unit) :
  (∀ h, P h → ∃ ys, h !! l = Some (OList (xs ++ ys))) →
  (∀ x h h', x ∈ xs → P h → body x h = (h', inr tt) → P h') →
  ∀ rest pre n h, xs = pre ++ rest → P h →
    for_live (length rest + n) l (length pre) body h
    = (for_each rest body;; for_live n l (length xs) body) h.
Proof.
  intros Hlist Hbody. induction rest as [|x rest IH]; intros pre n h Hxs HP.
  - rewrite app_nil_r in Hxs. by subst.
  - destruct (Hlist h HP) as [ys Hl]. simpl.
    rewrite (bind_ok _ _ _ _ _ (read_ok _ _ _ Hl)).
    assert (Hx : (xs ++ ys) !! length pre = Some x).
    { rewrite Hxs, <- app_assoc. by apply list_lookup_middle. }
    rewrite Hx. destruct (body x h) as [h' [e|[]]] eqn:Hb.
    { rewrite (bind_err _ _ _ _ _ Hb). symmetry. apply bind_err.
      unfold for_each. simpl. by rewrite (bind_err _ _ _ _ _ Hb). }
    rewrite (bind_ok _ _ _ _ _ Hb).
    assert (HP' : P h').
    { eapply Hbody; [|done..]. rewrite Hxs. apply elem_of_app. right. by left. }
    specialize (IH (pre ++ [x]) n h'). rewrite length_app in IH. simpl in IH.
    rewrite Nat.add_1_r in IH. rewrite IH; [| |done].
    + unfold mbind, M_bind. by rewrite (for_each_cons_ok _ _ _ _ _ Hb).
    + by rewrite <- app_assoc.
Qed.

(** The store during the loop over the batch at [l], whose result list is
    at [n]: the batch holds its threads, followed by what the edits have
    appended. *)
Lemma add_context_loop_front c h (l : loc) threads k :
  h !! l = Some (OList threads) →
  for_live (length threads + k) l 0 (add_context_step c (VRef (length h)))
    (h ++ [OList []])
  = (for_each threads (add_context_step c (VRef (length h)));;
     for_live k l (length threads) (add_context_step c (VRef (length h))))
    (h ++ [OList []]).
Proof.
  intros Hl.
  apply (for_live_front (λ h', grows_by_chars (length h) h h' ∧ length h < length h')
           l threads _) with (pre := []); [| |done|].
  - intros h' [[_ Hg] _]. destruct (Hg l threads) as (cs & Hl' & _); [|done|by eauto].
    by eapply lookup_lt_Some.
  - intros x h1 h2 _ [Hg Hlen] Hb.
    assert (Hstep : grows_by_chars (length h) h1 h2).
    { eapply add_context_step_grows; [| |exact Hb]; lia. }
    split; [by eapply grows_by_chars_trans|]. destruct Hstep. lia.
  - split; [apply grows_by_chars_app|]. rewrite length_app. simpl. lia.
Qed.

(** A list whose first element is a list or a tuple takes the batch path:
    the loop over its threads, and behind them over what the edits have
    appended to the batch. *)
Lemma add_context_batch_path h l threads t c :
  h !! l = Some (OList threads) →
  head threads = Some t →
  isinstance t [TList; TTuple] h = (h, inr true) →
  Lib.add_context_to_messages (VRef l) c h
  = (result ← alloc (OList []);
     for_each threads (add_context_step c result);;
     for_live 1 l (length threads) (add_context_step c result);;
     mret result) h.
Proof.
  intros Hl Ht Hnested. unfold Lib.add_context_to_messages.
  destruct threads as [|t0 rest]; [done|]. simpl in Ht. simplify_eq.
  erewrite bind_ok; last first.
  { simpl. by rewrite (bind_ok _ _ _ _ _ (read_ok _ _ _ Hl)). }
  rewrite bool_decide_eq_true_2 by done.
  rewrite (bind_ok _ _ h h false); last first.
  { simpl. rewrite (bind_ok _ _ _ _ _ (bind_ok _ _ _ _ _ (read_ok _ _ _ Hl))). simpl.
    by rewrite (bind_ok _ _ _ _ _ Hnested). }
  cbv iota.
  pose proof (lookup_app_l_Some _ [OList []] _ _ Hl) as Hl'.
  assert (Hin : for_in (S (length (t :: rest))) (VRef l)
                  (add_context_step c (VRef (length h))) (h ++ [OList []])
                = (for_each (t :: rest) (add_context_step c (VRef (length h)));;
                   for_live 1 l (length (t :: rest))
                     (add_context_step c (VRef (length h)))) (h ++ [OList []])).
  { unfold for_in. rewrite (bind_ok _ _ _ _ _ (isinstance_ref _ _ _ [TList] Hl')).
    rewrite bool_decide_eq_true_2 by (by left).
    pose proof (add_context_loop_front c h l (t :: rest) 1 Hl) as Hfront.
    by rewrite Nat.add_1_r in Hfront. }
  rewrite !(bind_ok (alloc (OList [])) _ h (h ++ [OList []]) (VRef (length h)) eq_refl).
  rewrite (bind_ok _ _ _ _ _ (py_iter_list_ok _ _ _ Hl')).
  change ((for_in (S (length (t :: rest))) (VRef l)
             (add_context_step c (VRef (length h)));;
           mret (VRef (length h))) (h ++ [OList []])
          = (for_each (t :: rest) (add_context_step c (VRef (length h)));;
             for_live 1 l (length (t :: rest)) (add_context_step c (VRef (length h)));;
             mret (VRef (length h))) (h ++ [OList []])).
  unfold mbind, M_bind in Hin |- *. rewrite Hin.
  by destruct (for_each (t :: rest) (add_context_step c (VRef (length h)))
                 (h ++ [OList []])) as [h1 [e|[]]].
Qed.

(** After the loop over the threads, the batch holds its threads followed
    by characters. *)
Lemma add_context_threads_grow c h threads h1 r :
  for_each threads (add_context_step c (VRef (length h))) (h ++ [OList []]) = (h1, r) →
  grows_by_chars (length h) h h1.
Proof.
  intros H.
  apply (for_each_inv (λ h', grows_by_chars (length h) h h' ∧ length h < length h'))
    in H as [H _]; [done| |].
  - intros x h2 h3 r' [Hg Hlen] Hb.
    assert (Hstep : grows_by_chars (length h) h2 h3).
    { eapply add_context_step_grows; [| |exact Hb]; lia. }
    split; [by eapply grows_by_chars_trans|]. destruct Hstep. lia.
  - split; [apply grows_by_chars_app|]. rewrite length_app. simpl. lia.
Qed.

(** The bound on the rounds of the loop over a batch is never what stops
    it: with any number of rounds more, the loop does the same.  Behind the
    threads the loop finds nothing, or a character on which the edit
    raises. *)
Lemma add_context_rounds c h (l : loc) threads k :
  h !! l = Some (OList threads) →
  for_in (S (length threads) + k) (VRef l) (add_context_step c (VRef (length h)))
    (h ++ [OList []])
  = for_in (S (length threads)) (VRef l) (add_context_step c (VRef (length h)))
      (h ++ [OList []]).
Proof.
  intros Hl. pose proof (lookup_app_l_Some _ [OList []] _ _ Hl) as Hl'.
  assert (Hin : ∀ j,
    for_in (length threads + j) (VRef l) (add_context_step c (VRef (length h)))
      (h ++ [OList []])
    = (for_each threads (add_context_step c (VRef (length h)));;
       for_live j l (length threads) (add_context_step c (VRef (length h))))
      (h ++ [OList []])).
  { intros j. unfold for_in.
    rewrite (bind_ok _ _ _ _ _ (isinstance_ref _ _ _ [TList] Hl')).
    rewrite bool_decide_eq_true_2 by (by left).
    by apply add_context_loop_front. }
  replace (S (length threads) + k) with (length threads + S k) by lia.
  replace (S (length threads)) with (length threads + 1) by lia.
  rewrite !Hin. unfold mbind, M_bind.
  destruct (for_each threads (add_context_step c (VRef (length h))) (h ++ [OList []]))
    as [h1 [e|[]]] eqn:Hloop; [done|].
  apply add_context_threads_grow in Hloop as [_ Hg].
  destruct (Hg l threads) as (cs & Hl1 & Hcs); [by eapply lookup_lt_Some|done|].
  simpl. rewrite !(bind_ok _ _ _ _ _ (read_ok _ _ _ Hl1)).
  destruct cs as [|x cs].
  - rewrite app_nil_r, lookup_ge_None_2; done.
  - rewrite list_lookup_middle by done.
    apply Forall_cons in Hcs as [[a ->] _].
    unfold add_context_step.
    by rewrite !(bind_err _ _ _ _ _
                   (bind_err _ _ _ _ _ (add_context_sequence_char c a h1))).
Qed.

(** The loop reads the batch while it runs: on the batch [[[sys]]] in which
    the content of [sys] is the batch itself, the edit of the first thread
    appends the characters of ["\n\nc"] to the batch, the loop goes on to
    the first of them, and the call raises [TypeError]. *)
Lemma add_context_batch_reads_live :
  ∃ h', Lib.add_context_to_messages (VRef 2) "c" self_content_store = (h', inl TypeError) ∧
        h' !! 2 = Some (OList (VRef 1 :: str_chars (two_newlines +:+ "c"))).
Proof. eexists. split; by vm_compute. Qed.

(** The first element of a flat list that fails at [bad]. *)
Lemma first_of_flat h pre bad post :
  Forall (has_role h) pre →
  isinstance bad [TList] h = (h, inr false) →
  ∃ m, (pre ++ bad :: post) !! 0 = Some m ∧ isinstance m [TList] h = (h, inr false).
Proof.
  intros Hpre Hflat. destruct Hpre as [|m pre Hm _]; simpl; [by exists bad|].
  exists m. split; [done|]. by rewrite (isinstance_record _ _ [TList] Hm).
Qed.

(** The first thread of a batch that fails in the thread at [t]. *)
Lemma first_of_batch h tpre (t : loc) tpost items :
  Forall (valid_thread h) tpre →
  h !! t = Some (OList items) →
  ∃ first, (tpre ++ VRef t :: tpost) !! 0 = Some first ∧
           isinstance first [TList] h = (h, inr true).
Proof.
  intros Htpre Ht. destruct Htpre as [|first tpre Hfirst _]; simpl.
  - exists (VRef t). split; [done|]. by rewrite (isinstance_ref _ _ _ _ Ht).
  - exists first. split; [done|]. by rewrite (valid_thread_is_list _ _ _ Hfirst).
Qed.

Lemma enumerate_from_app {A : Type} (xs ys : list A) n :
  enumerate_from n (xs ++ ys) = enumerate_from n xs ++ enumerate_from (n + length xs) ys.
Proof.
  revert n. induction xs as [|x xs IH]; intros n; simpl.
  - by rewrite Nat.add_0_r.
  - rewrite IH. do 3 f_equal. lia.
Qed.

(** The validation of [_utils/messages.py] raises at the first element
    that is not a message record, whatever follows it. *)
Lemma utils_format_thread_first_invalid h l pre bad post :
  h !! l = Some (OList (pre ++ bad :: post)) →
  Forall (has_role h) pre →
  isinstance bad [TList] h = (h, inr false) →
  Utils.invalid_message bad h = (h, inr true) →
  Utils.format_messages (VRef l) h = (h, inl (ValueError "Invalid message format")).
Proof.
  intros Hl Hpre Hflat Hbad. unfold Utils.format_messages.
  rewrite (bind_ok _ _ _ _ _ (isinstance_ref _ _ _ _ Hl)). simpl.
  rewrite (bind_ok _ _ h h false); last first.
  { unfold Utils.determine_if_batch.
    rewrite (bind_ok _ _ _ _ _ (isinstance_ref _ _ _ _ Hl)). simpl.
    rewrite (bind_ok _ _ _ _ _ (isinstance_ref _ _ _ _ Hl)). simpl.
    destruct (first_of_flat _ _ _ post Hpre Hflat) as (m & Hm0 & Hm).
    by rewrite (bind_ok _ _ _ _ _ (py_getitem_nat_list_ok _ _ _ _ _ Hl Hm0)). }
  cbv iota.
  rewrite (bind_ok _ _ _ _ _ (isinstance_ref _ _ _ _ Hl)). simpl.
  rewrite (bind_ok _ _ h h false) by done.
  rewrite (bind_ok _ _ _ _ _ (isinstance_ref _ _ _ _ Hl)). simpl.
  rewrite (bind_ok _ _ _ _ _ (bind_ok _ _ _ _ _ (read_ok _ _ _ Hl))).
  erewrite bind_err; [done|].
  eapply for_each_first_failure; [by apply utils_check_loop_ok|].
  by rewrite (bind_ok _ _ _ _ _ Hbad).
Qed.

(** The validation of [src/messages.py] raises at the first element in
    which ["role" in message] is false, whatever follows it. *)
Lemma lib_format_thread_first_invalid h l pre bad post :
  h !! l = Some (OList (pre ++ bad :: post)) →
  Forall (has_role h) pre →
  isinstance bad [TList] h = (h, inr false) →
  py_contains "role" bad h = (h, inr false) →
  Lib.format_messages (VRef l) h = (h, inl (ValueError "message must have a role")).
Proof.
  intros Hl Hpre Hflat Hbad. unfold Lib.format_messages.
  rewrite (bind_ok _ _ _ _ _ (isinstance_ref _ _ _ _ Hl)). simpl.
  rewrite (bind_ok _ _ _ _ _ (isinstance_ref _ _ _ _ Hl)). simpl.
  destruct (first_of_flat _ _ _ post Hpre Hflat) as (m & Hm0 & Hm).
  rewrite (bind_ok _ _ _ _ _ (py_getitem_nat_list_ok _ _ _ _ _ Hl Hm0)).
  rewrite (bind_ok _ _ _ _ _ Hm). simpl.
  unfold Lib.validate_thread_of_messages.
  rewrite (bind_ok _ _ _ _ _ (py_iter_list_ok _ _ _ Hl)).
  erewrite bind_err; [done|].
  eapply for_each_first_failure.
  - apply for_each_all_ok. intros x Hx. rewrite Forall_forall in Hpre.
    by rewrite (bind_ok _ _ _ _ _ (py_contains_record _ _ (Hpre _ Hx))).
  - by rewrite (bind_ok _ _ _ _ _ Hbad).
Qed.

Lemma py_contains_app k v h ext b :
  py_contains k v h = (h, inr b) → py_contains k v (h ++ ext) = (h ++ ext, inr b).
Proof.
  destruct v as [| | |l]; simpl; unfold mret, M_ret, raise; try (intros; by simplify_eq).
  intros H. step_in H as Hr; [done|].
  unfold read in Hr. destruct (h !! l) as [o|] eqn:Hl; [|done]. simplify_eq.
  rewrite (bind_ok _ _ _ _ _ (read_ok _ _ _ (lookup_app_l_Some _ ext _ _ Hl))).
  destruct a; unfold mret, M_ret in *; by simplify_eq.
Qed.

(** In a batch, the validation of [_utils/messages.py] raises at the first
    element that is not a message record, in the first thread that has
    one, whatever follows it in the thread and in the batch. *)
Lemma utils_format_batch_first_invalid h l tpre (t : loc) tpost pre bad post :
  h !! l = Some (OList (tpre ++ VRef t :: tpost)) →
  Forall (valid_thread h) tpre →
  h !! t = Some (OList (pre ++ bad :: post)) →
  Forall (has_role h) pre →
  Utils.invalid_message bad h = (h, inr true) →
  Utils.format_messages (VRef l) h = (h, inl (ValueError "Invalid message format")).
Proof.
  intros Hl Htpre Ht Hpre Hbad. unfold Utils.format_messages.
  rewrite (bind_ok _ _ _ _ _ (isinstance_ref _ _ _ _ Hl)). simpl.
  rewrite (bind_ok _ _ h h true); last first.
  { unfold Utils.determine_if_batch.
    rewrite (bind_ok _ _ _ _ _ (isinstance_ref _ _ _ _ Hl)). simpl.
    rewrite (bind_ok _ _ _ _ _ (isinstance_ref _ _ _ _ Hl)). simpl.
    destruct (first_of_batch _ _ _ tpost _ Htpre Ht) as (first & H0 & Hfirst).
    by rewrite (bind_ok _ _ _ _ _ (py_getitem_nat_list_ok _ _ _ _ _ Hl H0)). }
  cbv iota.
  rewrite (bind_ok _ _ _ _ _ (py_iter_list_ok _ _ _ Hl)).
  erewrite bind_err; [done|].
  unfold enumerate. rewrite enumerate_from_app. simpl.
  eapply for_each_first_failure.
  - apply for_each_all_ok. intros [i x] Hix%elem_of_enumerate_from.
    rewrite Forall_forall in Htpre.
    destruct (Htpre _ Hix) as (k & items & -> & Hk & Hitems).
    rewrite (bind_ok _ _ _ _ _ (py_iter_list_ok _ _ _ Hk)).
    by apply utils_check_loop_ok.
  - rewrite (bind_ok _ _ _ _ _ (py_iter_list_ok _ _ _ Ht)).
    eapply for_each_first_failure; [by apply utils_check_loop_ok|].
    by rewrite (bind_ok _ _ _ _ _ Hbad).
Qed.

(** In a batch, the validation of [src/messages.py] raises at the first
    element in which ["role" in message] is false, in the first thread that
    has one, whatever follows it; the store then holds one more list, the
    unfinished result with the threads before that one. *)
Lemma lib_format_batch_first_invalid h l tpre (t : loc) tpost pre bad post :
  h !! l = Some (OList (tpre ++ VRef t :: tpost)) →
  Forall (valid_thread h) tpre →
  h !! t = Some (OList (pre ++ bad :: post)) →
  Forall (has_role h) pre →
  py_contains "role" bad h = (h, inr false) →
  Lib.format_messages (VRef l) h
  = (h ++ [OList tpre], inl (ValueError "message must have a role")).
Proof.
  intros Hl Htpre Ht Hpre Hbad. unfold Lib.format_messages.
  rewrite (bind_ok _ _ _ _ _ (isinstance_ref _ _ _ _ Hl)). simpl.
  rewrite (bind_ok _ _ _ _ _ (isinstance_ref _ _ _ _ Hl)). simpl.
  destruct (first_of_batch _ _ _ tpost _ Htpre Ht) as (first & H0 & Hfirst).
  rewrite (bind_ok _ _ _ _ _ (py_getitem_nat_list_ok _ _ _ _ _ Hl H0)).
  rewrite (bind_ok _ _ _ _ _ Hfirst). simpl.
  rewrite (bind_ok (alloc (OList [])) _ h (h ++ [OList []]) (VRef (length h)) eq_refl).
  rewrite (bind_ok _ _ _ _ _ (py_iter_list_ok _ _ _ (lookup_app_l_Some _ _ _ _ Hl))).
  erewrite bind_err; [done|].
  eapply for_each_first_failure; [apply (lib_batch_loop_ok h tpre [] Htpre)|].
  simpl. erewrite bind_err; [done|].
  unfold Lib.validate_thread_of_messages.
  rewrite (bind_ok _ _ _ _ _ (py_iter_list_ok _ _ _ (lookup_app_l_Some _ _ _ _ Ht))).
  erewrite bind_err; [done|].
  eapply for_each_first_failure.
  - apply for_each_all_ok. intros x Hx. rewrite Forall_forall in Hpre.
    by rewrite (bind_ok _ _ _ _ _
                  (py_contains_record _ _ (has_role_app _ [OList tpre] _ (Hpre _ Hx)))).
  - by rewrite (bind_ok _ _ _ _ _ (py_contains_app _ _ _ [OList tpre] _ Hbad)).
Qed.

(** The batch loop stops at the first thread whose edit raises; what the
    earlier threads' edits wrote stays written. *)
Lemma add_context_batch_first_failure c h l pre bad post t h1 h2 e :
  h !! l = Some (OList (pre ++ bad :: post)) →
  head (pre ++ bad :: post) = Some t →
  isinstance t [TList; TTuple] h = (h, inr true) →
  for_each pre (add_context_step c (VRef (length h))) (h ++ [OList []]) = (h1, inr tt) →
  Lib._add_context_to_sequence c bad h1 = (h2, inl e) →
  Lib.add_context_to_messages (VRef l) c h = (h2, inl e).
Proof.
  intros Hl Ht Hnested Hpre Hbad.
  rewrite (add_context_batch_path _ _ _ _ _ Hl Ht Hnested).
  unfold mbind at 1, M_bind at 1, alloc at 1.
  erewrite bind_err; [done|].
  eapply for_each_first_failure; [exact Hpre|].
  unfold add_context_step. by rewrite (bind_err _ _ _ _ _ Hbad).
Qed.

(** C8 as the specification states it fails for the context append over a
    batch: on [[[sys_a], [{"content": "x"}]]] the call raises [KeyError] at
    the second thread, after it has appended the context to the content of
    [sys_a], a record of the caller. *)
Lemma add_context_batch_not_atomic :
  ∃ h', Lib.add_context_to_messages (VRef 4) "ctx" broken_batch_store = (h', inl KeyError) ∧
        broken_batch_store !! 0 = Some (record "system" "a") ∧
        h' !! 0 = Some (record "system" ("a" +:+ two_newlines +:+ "ctx")) ∧
        h' !! 0 ≠ broken_batch_store !! 0.
Proof. eexists. split_and!; [by vm_compute|done|by vm_compute|by vm_compute]. Qed.

(** C8, as the code has it.
    - Validation is fail-fast: in a flat list, the first element that is
      not accepted makes [format_messages] raise its error, whatever
      follows that element.
    - Validation of a batch is fail-fast too: when the threads before a
      thread are lists of message records, the first element of that thread
      that is not accepted makes [format_messages] raise its error,
      whatever follows it in the thread and in the batch;
      [_utils/messages.py] leaves the store as it is, [src/messages.py]
      leaves one more list, the unfinished result.
    - When [format_messages] raises, no object that existed before the call
      has changed (in [_utils/messages.py] the store is exactly the same; in
      [src/messages.py] it may hold one more list, the unfinished result).
    - When the context append on one thread raises, no object that existed
      before the call has changed.
    - The context append over a batch stops at the first thread on which it
      raises; the store is then the one left by the edits of the threads
      before it, which are not undone. *)
Theorem normalization_failure_behaviour :
  (∀ h l pre bad post,
     h !! l = Some (OList (pre ++ bad :: post)) →
     Forall (has_role h) pre →
     isinstance bad [TList] h = (h, inr false) →
     (Utils.invalid_message bad h = (h, inr true) →
      Utils.format_messages (VRef l) h = (h, inl (ValueError "Invalid message format"))) ∧
     (py_contains "role" bad h = (h, inr false) →
      Lib.format_messages (VRef l) h = (h, inl (ValueError "message must have a role")))) ∧
  (∀ h l tpre (t : loc) tpost pre bad post,
     h !! l = Some (OList (tpre ++ VRef t :: tpost)) →
     Forall (valid_thread h) tpre →
     h !! t = Some (OList (pre ++ bad :: post)) →
     Forall (has_role h) pre →
     (Utils.invalid_message bad h = (h, inr true) →
      Utils.format_messages (VRef l) h = (h, inl (ValueError "Invalid message format"))) ∧
     (py_contains "role" bad h = (h, inr false) →
      Lib.format_messages (VRef l) h
      = (h ++ [OList tpre], inl (ValueError "message must have a role")))) ∧
  (∀ v h h' e, Utils.format_messages v h = (h', inl e) → h' = h) ∧
  (∀ v h h' e, Lib.format_messages v h = (h', inl e) → ∃ ext, h' = h ++ ext) ∧
  (∀ c v h h' e,
     Lib._add_context_to_sequence c v h = (h', inl e) → ∃ ext, h' = h ++ ext) ∧
  (∀ c h l pre bad post t h1 h2 e,
     h !! l = Some (OList (pre ++ bad :: post)) →
     head (pre ++ bad :: post) = Some t →
     isinstance t [TList; TTuple] h = (h, inr true) →
     for_each pre (add_context_step c (VRef (length h))) (h ++ [OList []]) = (h1, inr tt) →
     Lib._add_context_to_sequence c bad h1 = (h2, inl e) →
     Lib.add_context_to_messages (VRef l) c h = (h2, inl e)).
Proof.
  split_and!.
  - intros h l pre bad post Hl Hpre Hflat. split; intros Hbad.
    + by eapply utils_format_thread_first_invalid.
    + by eapply lib_format_thread_first_invalid.
  - intros h l tpre t tpost pre bad post Hl Htpre Ht Hpre. split; intros Hbad.
    + by eapply utils_format_batch_first_invalid.
    + by eapply lib_format_batch_first_invalid.
  - intros v. apply utils_format_messages_fails_clean.
  - intros v h h' e H. by eapply take_extends, lib_format_messages_frame.
  - intros c v h h' e H. by eapply take_extends, add_context_sequence_fails_frame.
  - intros c h l pre bad post t h1 h2 e. apply add_context_batch_first_failure.
Qed.

Lemma normalization_failure_behaviour_witness :
  Utils.format_messages (VRef 2) broken_thread_store
  = (broken_thread_store, inl (ValueError "Invalid message format")) ∧
  Lib.format_messages (VRef 2) broken_thread_store
  = (broken_thread_store, inl (ValueError "message must have a role")) ∧
  Utils.format_messages (VRef 4) broken_batch_store
  = (broken_batch_store, inl (ValueError "Invalid message format")) ∧
  Lib.format_messages (VRef 4) broken_batch_store
  = (broken_batch_store ++ [OList [VRef 1]], inl (ValueError "message must have a role")) ∧
  (∃ ext, broken_thread_store ++ [OList [VRef 0; VRef 1; VRef 0]]
          = broken_thread_store ++ ext) ∧
  (∃ h2, Lib.add_context_to_messages (VRef 4) "ctx" broken_batch_store
         = (h2, inl KeyError)).
Proof.
  destruct normalization_failure_behaviour
    as (Hfirst & Hthreads & Hutils & Hlib & Hseq & Hbatch).
  destruct (Hthreads broken_batch_store 4 [VRef 1] 3 [] [] (VRef 2) [])
    as [Hbu Hbl]; [reflexivity| |reflexivity|constructor|].
  { constructor; [|constructor]. exists 1, [VRef 0].
    split_and!; [reflexivity|reflexivity|]. constructor; [by eexists|constructor]. }
  destruct (Hfirst broken_thread_store 2 [VRef 0] (VRef 1) [VRef 0])
    as [Hu Hl]; [reflexivity|repeat constructor; by eexists|by vm_compute|].
  pose proof (Hu ltac:(by vm_compute)) as Hu'.
  pose proof (Hl ltac:(by vm_compute)) as Hl'.
  split_and!.
  - pose proof (Hutils _ _ _ _ Hu') as Hsame. exact Hu'.
  - destruct (Hlib _ _ _ _ Hl') as [ext Hext]. exact Hl'.
  - apply Hbu. by vm_compute.
  - apply Hbl. by vm_compute.
  - apply (Hseq "ctx" (VRef 2) broken_thread_store _ KeyError). by vm_compute.
  - eexists.
    apply (Hbatch "ctx" broken_batch_store 4 [VRef 1] (VRef 3) [] (VRef 1)
             (<[0 := record "system" ("a" +:+ two_newlines +:+ "ctx")]> broken_batch_store
                ++ [OList [VRef 6]; OList [VRef 0]]));
      [reflexivity|reflexivity|by vm_compute|by vm_compute|by vm_compute].
Defined.


(** * Further properties of the two modules *)

(** ** What [format_messages] does with each accepted shape *)

Lemma lib_format_str_ok s h :
  Lib.format_messages (VStr s) h
  = (h ++ [record "user" s; OList [VRef (length h)]], inr (VRef (S (length h)))).
Proof.
  unfold Lib.format_messages.
  rewrite (bind_ok _ _ h h true) by done.
  rewrite (bind_ok _ _ _ _ _ (construct_message_ok _ _ _)).
  unfold alloc. fold (record "user" s).
  rewrite length_app, <- app_assoc. simpl. by rewrite Nat.add_1_r.
Qed.

Lemma utils_format_str_ok s h :
  Utils.format_messages (VStr s) h
  = (h ++ [record "user" s; OList [VRef (length h)]], inr (VRef (S (length h)))).
Proof.
  unfold Utils.format_messages.
  rewrite (bind_ok _ _ h h true) by done.
  unfold mbind, M_bind, alloc. fold (record "user" s).
  rewrite length_app, <- app_assoc. simpl. by rewrite Nat.add_1_r.
Qed.

Lemma lib_format_record_ok h l d r :
  h !! l = Some (ODict d) →
  d !! "role" = Some r →
  Lib.format_messages (VRef l) h = (h ++ [OList [VRef l]], inr (VRef (length h))).
Proof.
  intros Hl Hr.
  assert (Hrole : has_role h (VRef l)).
  { exists r. simpl. by rewrite Hl. }
  unfold Lib.format_messages.
  rewrite (bind_ok _ _ _ _ _ (isinstance_ref _ _ _ _ Hl)). simpl.
  rewrite (bind_ok _ _ _ _ _ (isinstance_ref _ _ _ _ Hl)). simpl.
  by rewrite (bind_ok _ _ _ _ _ (py_contains_record _ _ Hrole)).
Qed.

Lemma utils_format_record_ok h l d r :
  h !! l = Some (ODict d) →
  d !! "role" = Some r →
  Utils.format_messages (VRef l) h = (h ++ [OList [VRef l]], inr (VRef (length h))).
Proof.
  intros Hl Hr.
  assert (Hrole : has_role h (VRef l)).
  { exists r. simpl. by rewrite Hl. }
  unfold Utils.format_messages.
  rewrite (bind_ok _ _ _ _ _ (isinstance_ref _ _ _ _ Hl)). simpl.
  rewrite (bind_ok _ _ h h false); last first.
  { unfold Utils.determine_if_batch.
    rewrite (bind_ok _ _ _ _ _ (isinstance_ref _ _ _ _ Hl)). simpl.
    by rewrite (bind_ok _ _ _ _ _ (isinstance_ref _ _ _ _ Hl)). }
  cbv iota.
  rewrite (bind_ok _ _ _ _ _ (isinstance_ref _ _ _ _ Hl)). simpl.
  by rewrite (bind_ok _ _ _ _ _ (py_contains_record _ _ Hrole)).
Qed.

(** X1.  A single message record (a dict with a role) is wrapped, in both
    modules, in a new one-element list that holds the caller's own record;
    nothing else in the store changes. *)
Theorem format_messages_wraps_record (h : heap) (l : loc) (d : gmap string val) (r : val) :
  h !! l = Some (ODict d) →
  d !! "role" = Some r →
  Lib.format_messages (VRef l) h = (h ++ [OList [VRef l]], inr (VRef (length h))) ∧
  Utils.format_messages (VRef l) h = (h ++ [OList [VRef l]], inr (VRef (length h))).
Proof.
  intros Hl Hr. split.
  - by eapply lib_format_record_ok.
  - by eapply utils_format_record_ok.
Qed.

Lemma format_messages_wraps_record_witness :
  Lib.format_messages (VRef 0) user_only_store
  = (user_only_store ++ [OList [VRef 0]], inr (VRef 2)) ∧
  Utils.format_messages (VRef 0) user_only_store
  = (user_only_store ++ [OList [VRef 0]], inr (VRef 2)).
Proof.
  apply (format_messages_wraps_record user_only_store 0
           {[ "role" := VStr "user"; "content" := VStr "hi" ]} (VStr "user"));
    reflexivity.
Defined.

Lemma records_are_not_the_str h (items : list val) k :
  Forall (has_role h) items → VStr k ∉ items.
Proof.
  intros Hitems Hin. rewrite Forall_forall in Hitems.
  by destruct (Hitems _ Hin) as [r Hr].
Qed.

(** X2.  A thread given as a tuple of message records is not accepted by
    [format_messages], in either module: both raise their format error and
    leave the store as it was.  (The editing functions of [src/messages.py]
    do take a tuple.) *)
Theorem format_messages_rejects_tuple_thread (h : heap) (l : loc) (items : list val) :
  h !! l = Some (OTuple items) →
  Forall (has_role h) items →
  Lib.format_messages (VRef l) h
  = (h, inl (ValueError "messages must be a string, message, or a list of messages")) ∧
  Utils.format_messages (VRef l) h = (h, inl (ValueError "Invalid messages format")).
Proof.
  intros Hl Hitems. split.
  - unfold Lib.format_messages.
    rewrite (bind_ok _ _ _ _ _ (isinstance_ref _ _ _ _ Hl)). simpl.
    rewrite (bind_ok _ _ _ _ _ (isinstance_ref _ _ _ _ Hl)). simpl.
    erewrite bind_ok; last first.
    { simpl. by rewrite (bind_ok _ _ _ _ _ (read_ok _ _ _ Hl)). }
    rewrite bool_decide_eq_false_2; [done|].
    by apply (records_are_not_the_str h).
  - apply utils_format_messages_other_shape with (t := TTuple); try done.
    simpl. by rewrite (bind_ok _ _ _ _ _ (read_ok _ _ _ Hl)).
Qed.

Lemma format_messages_rejects_tuple_thread_witness :
  Lib.format_messages (VRef 1) tuple_thread_store
  = (tuple_thread_store,
     inl (ValueError "messages must be a string, message, or a list of messages")) ∧
  Utils.format_messages (VRef 1) tuple_thread_store
  = (tuple_thread_store, inl (ValueError "Invalid messages format")).
Proof.
  apply (format_messages_rejects_tuple_thread tuple_thread_store 1 [VRef 0]).
  - reflexivity.
  - repeat constructor. by eexists.
Defined.

(** X3.  A non-empty list of message records is returned as it is by both
    modules: the result is the caller's own list object and the store is
    unchanged. *)
Theorem format_messages_thread_identity (h : heap) (l : loc) (items : list val) :
  h !! l = Some (OList items) →
  items ≠ [] →
  Forall (has_role h) items →
  Utils.format_messages (VRef l) h = (h, inr (VRef l)) ∧
  Lib.format_messages (VRef l) h = (h, inr (VRef l)).
Proof.
  intros Hl Hne Hitems. split.
  - by eapply utils_format_thread_identity.
  - by eapply lib_format_thread_identity.
Qed.

Lemma format_messages_thread_identity_witness :
  Utils.format_messages (VRef 3) two_system_store = (two_system_store, inr (VRef 3)) ∧
  Lib.format_messages (VRef 3) two_system_store = (two_system_store, inr (VRef 3)).
Proof.
  apply (format_messages_thread_identity two_system_store 3 [VRef 0; VRef 1; VRef 2]).
  - reflexivity.
  - discriminate.
  - repeat constructor; by eexists.
Defined.

(** X4.  On a non-empty batch of lists of message records the two modules
    differ in what they hand back: [_utils/messages.py] returns the
    caller's own batch list, [src/messages.py] returns a new list that holds
    the same thread objects in the same order (so it equals the input, but
    appending to it does not touch the caller's batch).  Neither writes to
    an existing object. *)
Theorem format_messages_batch (h : heap) (l : loc) (threads : list val) :
  h !! l = Some (OList threads) →
  threads ≠ [] →
  Forall (valid_thread h) threads →
  Utils.format_messages (VRef l) h = (h, inr (VRef l)) ∧
  Lib.format_messages (VRef l) h = (h ++ [OList threads], inr (VRef (length h))) ∧
  py_eq (h ++ [OList threads]) (VRef (length h)) (VRef l).
Proof.
  intros Hl Hne Hthreads. split.
  - by eapply utils_format_batch_identity.
  - by eapply lib_format_batch_equal.
Qed.

Lemma format_messages_batch_witness :
  Utils.format_messages (VRef 5) batch_store = (batch_store, inr (VRef 5)) ∧
  Lib.format_messages (VRef 5) batch_store
  = (batch_store ++ [OList [VRef 1; VRef 4]], inr (VRef (length batch_store))) ∧
  py_eq (batch_store ++ [OList [VRef 1; VRef 4]]) (VRef (length batch_store)) (VRef 5).
Proof.
  apply (format_messages_batch batch_store 5 [VRef 1; VRef 4]).
  - reflexivity.
  - discriminate.
  - repeat constructor.
    + exists 1, [VRef 0]. split_and!; [done..|]. repeat constructor. by eexists.
    + exists 4, [VRef 2; VRef 3]. split_and!; [done..|]. repeat constructor; by eexists.
Defined.

(** ** The classification *)

(** X5.  [determine_if_batch] answers from the type of the input and of
    its first element alone: anything that is not a list (a str, a dict, a
    tuple, even a tuple of lists) is not a batch, and a non-empty list is a
    batch exactly when its first element is a list; the elements after the
    first are never looked at, and the store is not changed. *)
Theorem determine_if_batch_decided_by_first (h : heap) :
  (∀ v t, type_of v h = (h, inr t) → t ≠ TList →
          Utils.determine_if_batch v h = (h, inr false)) ∧
  (∀ l first rest t,
     h !! l = Some (OList (first :: rest)) →
     type_of first h = (h, inr t) →
     Utils.determine_if_batch (VRef l) h = (h, inr (bool_decide (t = TList)))).
Proof.
  split.
  - intros v t Ht Hne. unfold Utils.determine_if_batch.
    rewrite (bind_ok _ _ _ _ _ (isinstance_of_type _ _ _ _ Ht)).
    destruct (bool_decide (t ∈ [TStr])); [done|].
    rewrite (bind_ok _ _ _ _ _ (isinstance_of_type _ _ _ _ Ht)).
    rewrite bool_decide_eq_false_2; [done|]. by intros ->%list_elem_of_singleton.
  - intros l first rest t Hl Ht. unfold Utils.determine_if_batch.
    rewrite (bind_ok _ _ _ _ _ (isinstance_ref _ _ _ _ Hl)). simpl.
    rewrite (bind_ok _ _ _ _ _ (isinstance_ref _ _ _ _ Hl)). simpl.
    rewrite (bind_ok _ _ _ _ _ (py_getitem_nat_list_ok _ _ _ 0 first Hl eq_refl)).
    rewrite (isinstance_of_type _ _ _ _ Ht). do 2 f_equal.
    apply bool_decide_ext. by rewrite list_elem_of_singleton.
Qed.

Lemma determine_if_batch_decided_by_first_witness :
  Utils.determine_if_batch (VRef 1) tuple_thread_store = (tuple_thread_store, inr false) ∧
  Utils.determine_if_batch (VRef 5) batch_store = (batch_store, inr true) ∧
  Utils.determine_if_batch (VRef 3) two_system_store = (two_system_store, inr false).
Proof.
  split_and!.
  - destruct (determine_if_batch_decided_by_first tuple_thread_store) as [Hother _].
    apply (Hother (VRef 1) TTuple); [reflexivity|discriminate].
  - destruct (determine_if_batch_decided_by_first batch_store) as [_ Hlist].
    apply (Hlist 5 (VRef 1) [VRef 4] TList); reflexivity.
  - destruct (determine_if_batch_decided_by_first two_system_store) as [_ Hlist].
    apply (Hlist 3 (VRef 0) [VRef 1; VRef 2] TDict); reflexivity.
Defined.

(** ** What a successful [format_messages] has checked *)

(** A loop whose body only reads has run its body, with success, on every
    element when it ends with success. *)
Lemma for_each_ok_inv {A : Type} (body : A → M unit) xs h h' :
  (∀ x, read_only (body x)) →
  for_each xs body h = (h', inr tt) →
  h' = h ∧ ∀ x, x ∈ xs → body x h = (h, inr tt).
Proof.
  intros Hro. unfold for_each.
  induction xs as [|x xs IH]; simpl; intros H.
  - unfold mret, M_ret in H. simplify_eq. split; [done|]. by intros x ?%elem_of_nil.
  - step_in H as Hx; [done|]. pose proof (Hro _ _ _ _ Hx) as ->.
    destruct a. destruct (IH H) as [-> Hxs]. split; [done|].
    intros y [->|Hy]%elem_of_cons; auto.
Qed.

Lemma isinstance_dict_inv v h h' :
  isinstance v [TDict] h = (h', inr true) →
  ∃ l d, v = VRef l ∧ h !! l = Some (ODict d).
Proof.
  intros H. pose proof H as Hb.
  apply isinstance_inv in H as [(l & o & -> & Hl & Ho)|Hv].
  - apply list_elem_of_singleton in Ho. destruct o; try done. eauto.
  - destruct v as [| | |k]; try done. by destruct (Hv k).
Qed.

Lemma invalid_message_false_inv m h h' :
  Utils.invalid_message m h = (h', inr false) → has_role h m.
Proof.
  unfold Utils.invalid_message. intros H. step_in H as Hd; [done|].
  pose proof (isinstance_heap _ _ _ _ _ Hd) as ->.
  destruct a; simpl in H; [|by unfold mret, M_ret in H].
  apply isinstance_dict_inv in Hd as (l & d & -> & Hl).
  step_in H as Hc; [done|].
  simpl in Hc. rewrite (bind_ok _ _ _ _ _ (read_ok _ _ _ Hl)) in Hc.
  unfold mret, M_ret in Hc, H. simplify_eq.
  unfold has_role. simpl. rewrite Hl.
  match goal with Hb : negb (bool_decide _) = false |- _ =>
    apply negb_false_iff, bool_decide_eq_true_1 in Hb end. done.
Qed.

Lemma utils_check_loop_inv items h h' :
  for_each items (λ message,
    bad ← Utils.invalid_message message;
    if (bad : bool) then raise (ValueError "Invalid message format") else mret tt) h
  = (h', inr tt) →
  h' = h ∧ Forall (has_role h) items.
Proof.
  intros H. apply for_each_ok_inv in H as [-> Hall]; [|intros x; solve_read_only].
  split; [done|]. apply Forall_forall. intros m Hm.
  specialize (Hall m Hm). step_in Hall as Hbad; [done|].
  pose proof (read_only_invalid_message _ _ _ _ Hbad) as ->.
  destruct a; [done|]. by eapply invalid_message_false_inv.
Qed.

Lemma determine_if_batch_true_inv v h h' :
  Utils.determine_if_batch v h = (h', inr true) →
  ∃ l first rest, v = VRef l ∧ h !! l = Some (OList (first :: rest)) ∧
                  isinstance first [TList] h = (h, inr true).
Proof.
  unfold Utils.determine_if_batch. intros H. step_in H as Hs; [done|].
  pose proof (isinstance_heap _ _ _ _ _ Hs) as ->.
  destruct a; [by unfold mret, M_ret in H|]. clear Hs.
  step_in H as Hl; [done|].
  pose proof (isinstance_heap _ _ _ _ _ Hl) as ->.
  destruct a; simpl in H; [|by unfold mret, M_ret in H].
  apply isinstance_list_inv in Hl as (l & xs & -> & Hl).
  step_in H as Hf; [done|].
  simpl in Hf. rewrite (bind_ok _ _ _ _ _ (read_ok _ _ _ Hl)) in Hf.
  destruct xs as [|first rest]; [done|]. simpl in Hf.
  unfold mret, M_ret in Hf. simplify_eq.
  pose proof (isinstance_heap _ _ _ _ _ H) as ->. eauto 10.
Qed.

Lemma elem_of_enumerate_from_2 {A : Type} (xs : list A) n x :
  x ∈ xs → ∃ i, (i, x) ∈ enumerate_from n xs.
Proof.
  revert n. induction xs as [|y ys IH]; intros n Hin; [by apply elem_of_nil in Hin|].
  apply elem_of_cons in Hin as [->|Hin].
  - exists n. by left.
  - destruct (IH (S n) Hin) as [i Hi]. exists i. by right.
Qed.

(** The four ways in which [format_messages] of [_utils/messages.py]
    returns. *)
Lemma utils_format_ok_inv v h h1 r1 :
  Utils.format_messages v h = (h1, inr r1) →
  (∃ s, v = VStr s ∧ h1 = h ++ [record "user" s; OList [VRef (length h)]] ∧
        r1 = VRef (S (length h))) ∨
  (∃ l d r, v = VRef l ∧ h !! l = Some (ODict d) ∧ d !! "role" = Some r ∧
            h1 = h ++ [OList [v]] ∧ r1 = VRef (length h)) ∨
  (∃ l items, v = VRef l ∧ h !! l = Some (OList items) ∧ items ≠ [] ∧
              Forall (has_role h) items ∧ h1 = h ∧ r1 = v) ∨
  (∃ l first rest, v = VRef l ∧ h !! l = Some (OList (first :: rest)) ∧
                   isinstance first [TList] h = (h, inr true) ∧
                   Forall (thread_like h) (first :: rest) ∧ h1 = h ∧ r1 = v).
Proof.
  intros Hrun. pose proof Hrun as H. unfold Utils.format_messages in H.
  step_in H as Hs; [done|]. pose proof (isinstance_heap _ _ _ _ _ Hs) as ->.
  destruct a.
  { left. apply isinstance_inv in Hs as [(l & o & -> & Hl & Ho)|Hv].
    - apply list_elem_of_singleton in Ho. by destruct o.
    - destruct v as [| |s|l]; try done; [|by destruct (Hv l)].
      exists s. rewrite utils_format_str_ok in Hrun. by simplify_eq. }
  clear Hs. step_in H as Hb; [done|].
  pose proof (read_only_determine_if_batch _ _ _ _ Hb) as ->.
  destruct a.
  { right; right; right.
    apply determine_if_batch_true_inv in Hb as (l & first & rest & -> & Hl & Hfirst).
    rewrite (bind_ok _ _ _ _ _ (py_iter_list_ok _ _ _ Hl)) in H.
    step_in H as Hloop; [done|]. unfold mret, M_ret in H. simplify_eq.
    assert (Hro : ∀ x : nat * val, read_only (let '(_, thread) := x in
               msgs ← py_iter thread;
               for_each msgs (λ message,
                 bad ← Utils.invalid_message message;
                 if (bad : bool) then raise (ValueError "Invalid message format")
                 else mret tt))).
    { intros [i t]. solve_read_only. }
    match type of Hloop with _ = (_, inr ?u) => destruct u end.
    apply for_each_ok_inv in Hloop as [-> Hall]; [|exact Hro].
    exists l, first, rest. split_and!; try done.
    apply Forall_forall. intros t Ht.
    destruct (elem_of_enumerate_from_2 (first :: rest) 0 t Ht) as [i Hi].
    specialize (Hall _ Hi). simpl in Hall.
    step_in Hall as Hit; [done|].
    pose proof (py_iter_heap _ _ _ _ Hit) as ->.
    match type of Hall with _ = (_, inr ?u) => destruct u end.
    apply utils_check_loop_inv in Hall as [_ Hmsgs]. by eexists. }
  clear Hb. step_in H as Hd; [done|].
  pose proof (isinstance_heap _ _ _ _ _ Hd) as ->.
  step_in H as Hr; [done|].
  match type of Hr with _ ?x = (?y, _) => assert (y = x) as -> end.
  { destruct a; [by apply py_contains_heap in Hr|].
    unfold mret, M_ret in Hr. by simplify_eq. }
  destruct a0.
  { right; left. destruct a; [|by unfold mret, M_ret in Hr].
    apply isinstance_dict_inv in Hd as (l & d & -> & Hl).
    simpl in Hr. rewrite (bind_ok _ _ _ _ _ (read_ok _ _ _ Hl)) in Hr.
    unfold mret, M_ret in Hr. simplify_eq.
    match goal with Hb : bool_decide _ = true |- _ =>
      apply bool_decide_eq_true_1 in Hb as [r Hrole] end.
    unfold alloc in H. simplify_eq. eauto 10. }
  clear Hd Hr. step_in H as Hl; [done|].
  pose proof (isinstance_heap _ _ _ _ _ Hl) as ->.
  destruct a0; simpl in H; [|done].
  apply isinstance_list_inv in Hl as (l & items & -> & Hl).
  rewrite (bind_ok _ _ _ _ _ (py_iter_list_ok _ _ _ Hl)) in H.
  step_in H as Hloop; [done|]. unfold mret, M_ret in H. simplify_eq.
  match type of Hloop with _ = (_, inr ?u) => destruct u end.
  apply utils_check_loop_inv in Hloop as [-> Hitems].
  right; right; left. exists l, items. split_and!; try done.
  intros ->. by rewrite (utils_format_messages_empty _ _ Hl) in Hrun.
Qed.

(** X6.  Whatever [format_messages] of [_utils/messages.py] returns is a
    non-empty list in canonical shape: either every element is a message
    record, or every element is a thread, that is, something iterable whose
    elements are all message records.  A caller never gets a bare str, a
    bare record or a list with an unchecked element. *)
Theorem utils_format_messages_canonical (v : val) (h h' : heap) (r : val) :
  Utils.format_messages v h = (h', inr r) →
  ∃ l items,
    r = VRef l ∧ h' !! l = Some (OList items) ∧ items ≠ [] ∧
    (Forall (has_role h') items ∨ Forall (thread_like h') items).
Proof.
  intros H. apply utils_format_ok_inv in H
    as [(s & -> & -> & ->)|[(l & d & r0 & -> & Hl & Hr & -> & ->)
       |[(l & items & -> & Hl & Hne & Hitems & -> & ->)
        |(l & first & rest & -> & Hl & Hfirst & Hthreads & -> & ->)]]].
  - eexists _, _. split_and!; [done|apply lookup_new_record|done|].
    left. repeat constructor. exists (VStr "user"). simpl.
    by rewrite lookup_new_list.
  - eexists _, _. split_and!; [done|apply lookup_middle_eq|done|].
    left. repeat constructor. apply has_role_app. exists r0. simpl. by rewrite Hl.
  - exists l, items. split_and!; [done..|]. by left.
  - exists l, (first :: rest). split_and!; [done..|]. by right.
Qed.

Lemma utils_format_messages_canonical_witness :
  ∃ l items,
    VRef 5 = VRef l ∧ batch_store !! l = Some (OList items) ∧ items ≠ [] ∧
    (Forall (has_role batch_store) items ∨ Forall (thread_like batch_store) items).
Proof.
  apply (utils_format_messages_canonical (VRef 5) batch_store). by vm_compute.
Defined.

Lemma py_iter_app t h ext msgs :
  py_iter t h = (h, inr msgs) → py_iter t (h ++ ext) = (h ++ ext, inr msgs).
Proof.
  destruct t as [| | |l]; simpl; try done.
  - unfold mret, M_ret. intros; by simplify_eq.
  - intros H. step_in H as Hr; [done|].
    unfold read in Hr. destruct (h !! l) as [o|] eqn:Hl; [|done]. simplify_eq.
    rewrite (bind_ok _ _ _ _ _ (read_ok _ _ _ (lookup_app_l_Some _ ext _ _ Hl))).
    destruct a; unfold mret, M_ret in *; by simplify_eq.
Qed.

Lemma thread_like_app h ext t : thread_like h t → thread_like (h ++ ext) t.
Proof.
  intros (msgs & Hiter & Hmsgs). exists msgs. split; [by apply py_iter_app|].
  eapply Forall_impl; [exact Hmsgs|]. intros m. apply has_role_app.
Qed.

(** The batch loop of [src/messages.py] on threads of any iterable kind. *)
Lemma lib_batch_loop_like h rest : ∀ collected,
  Forall (thread_like h) rest →
  for_each rest (λ thread,
    checked ← Lib.validate_thread_of_messages thread;
    list_append (VRef (length h)) checked) (h ++ [OList collected])
  = (h ++ [OList (collected ++ rest)], inr tt).
Proof.
  induction rest as [|t rest IH]; intros collected Hrest.
  - by rewrite app_nil_r.
  - apply Forall_cons in Hrest as [Ht Hrest].
    erewrite for_each_cons_ok; last first.
    { destruct (thread_like_app _ [OList collected] _ Ht) as (msgs & Hiter & Hmsgs).
      rewrite (bind_ok _ _ _ _ _ (lib_validate_ok _ _ _ Hiter Hmsgs)).
      apply list_append_ok, lookup_middle_eq. }
    rewrite insert_middle_eq, (IH _ Hrest).
    by rewrite <- app_assoc.
Qed.

(** X7.  [src/messages.py] accepts whatever [_utils/messages.py] accepts:
    when the stricter [format_messages] of [_utils/messages.py] returns, the
    one of [src/messages.py] returns too on the same input, and its result
    equals (Python's [==]) the other's.  The two stores differ at most by
    the copy of the batch list that [src/messages.py] builds. *)
Theorem lib_accepts_what_utils_accepts (v : val) (h h1 : heap) (r1 : val) :
  Utils.format_messages v h = (h1, inr r1) →
  ∃ h2 r2,
    Lib.format_messages v h = (h2, inr r2) ∧
    (∃ ext, h2 = h1 ++ ext) ∧
    py_eq h2 r2 r1.
Proof.
  intros H. apply utils_format_ok_inv in H
    as [(s & -> & -> & ->)|[(l & d & r0 & -> & Hl & Hr & -> & ->)
       |[(l & items & -> & Hl & Hne & Hitems & -> & ->)
        |(l & first & rest & -> & Hl & Hfirst & Hthreads & -> & ->)]]].
  - eexists _, _.
    split_and!; [apply lib_format_str_ok|by exists []; rewrite app_nil_r|].
    apply py_eq_same.
  - eexists _, _.
    split_and!; [by eapply lib_format_record_ok|by exists []; rewrite app_nil_r|].
    apply py_eq_same.
  - eexists _, _. split_and!;
      [by eapply lib_format_thread_identity|by exists []; rewrite app_nil_r|].
    apply py_eq_same.
  - exists (h ++ [OList (first :: rest)]), (VRef (length h)). split_and!.
    + unfold Lib.format_messages.
      rewrite (bind_ok _ _ _ _ _ (isinstance_ref _ _ _ _ Hl)). simpl.
      rewrite (bind_ok _ _ _ _ _ (isinstance_ref _ _ _ _ Hl)). simpl.
      rewrite (bind_ok _ _ _ _ _ (py_getitem_nat_list_ok _ _ _ 0 first Hl eq_refl)).
      rewrite (bind_ok _ _ _ _ _ Hfirst). simpl.
      unfold mbind at 1, M_bind at 1, alloc at 1.
      rewrite (bind_ok _ _ _ _ _ (py_iter_list_ok _ _ _ (lookup_app_l_Some _ _ _ _ Hl))).
      by rewrite (bind_ok _ _ _ _ _ (lib_batch_loop_like _ _ [] Hthreads)).
    + by eexists.
    + eapply py_eq_list; [apply lookup_middle_eq|by apply lookup_app_l_Some|].
      apply Forall2_py_eq_refl.
Qed.

Lemma lib_accepts_what_utils_accepts_witness :
  ∃ h2 r2,
    Lib.format_messages (VRef 5) batch_store = (h2, inr r2) ∧
    (∃ ext, h2 = batch_store ++ ext) ∧
    py_eq h2 r2 (VRef 5).
Proof.
  apply (lib_accepts_what_utils_accepts (VRef 5) batch_store). by vm_compute.
Defined.

Lemma list_append_keeps_list (l : loc) x h h' r :
  (∃ xs, h !! l = Some (OList xs)) →
  list_append (VRef l) x h = (h', r) →
  ∃ xs, h' !! l = Some (OList xs).
Proof.
  intros [xs Hl] H. rewrite (list_append_ok _ _ _ _ Hl) in H. simplify_eq.
  eexists. apply list_lookup_insert_eq. by eapply lookup_lt_Some.
Qed.

Lemma lib_validate_returns_input v h h' r :
  Lib.validate_thread_of_messages v h = (h', inr r) → r = v.
Proof.
  unfold Lib.validate_thread_of_messages. intros H.
  step_in H as Hi; [done|]. step_in H as Hl; [done|].
  unfold mret, M_ret in H. by simplify_eq.
Qed.

(** What [format_messages] of [src/messages.py] returns is a list. *)
Lemma lib_format_returns_list v h h' r :
  Lib.format_messages v h = (h', inr r) →
  ∃ l items, r = VRef l ∧ h' !! l = Some (OList items).
Proof.
  unfold Lib.format_messages. intros H.
  step_in H as Hs1; [done|]. apply read_only_isinstance in Hs1 as ->. destruct a.
  { step_in H as Hc; [done|]. unfold Lib.construct_message, Message, alloc in Hc, H.
    simplify_eq. eexists _, _. split; [done|]. apply lookup_middle_eq. }
  step_in H as Hs2; [done|]. pose proof (isinstance_heap _ _ _ _ _ Hs2) as ->.
  destruct a; simpl in H.
  - apply isinstance_list_inv in Hs2 as (l & items & -> & Hl).
    step_in H as Hg; [done|]. apply read_only_py_getitem_nat in Hg as ->.
    step_in H as Hs3; [done|]. apply read_only_isinstance in Hs3 as ->.
    destruct a0; simpl in H.
    + step_in H as Ha; [done|]. unfold alloc in Ha. simplify_eq.
      step_in H as Hi; [done|]. apply (read_only_py_iter (VRef l)) in Hi as ->.
      step_in H as Hloop; [done|]. unfold mret, M_ret in H. simplify_eq.
      apply (for_each_inv (λ y, ∃ xs, y !! length h = Some (OList xs))) in Hloop
        as [xs Hxs]; [by eauto| |eexists; apply lookup_middle_eq].
      intros t y y' ry Hy Hbody. step_in Hbody as Hv.
      * by apply read_only_lib_validate in Hv as ->.
      * apply read_only_lib_validate in Hv as ->. by eapply list_append_keeps_list.
    + pose proof (read_only_lib_validate _ _ _ _ H) as ->.
      apply lib_validate_returns_input in H as ->. eauto.
  - step_in H as Hc; [done|]. apply read_only_py_contains in Hc as ->.
    destruct a; [|done]. unfold alloc in H. simplify_eq.
    eexists _, _. split; [done|]. apply lookup_middle_eq.
Qed.

(** X8.  In both modules [format_messages] never writes to an object that
    existed before the call, whether it returns or raises: the store it
    leaves is the old store followed by what it allocated.  And whenever the
    one of [src/messages.py] returns, the result is a list object, never a
    bare str or record. *)
Theorem format_messages_only_allocates (v : val) (h h' : heap) :
  (∀ r, Utils.format_messages v h = (h', r) → ∃ ext, h' = h ++ ext) ∧
  (∀ r, Lib.format_messages v h = (h', r) → ∃ ext, h' = h ++ ext) ∧
  (∀ r, Lib.format_messages v h = (h', inr r) →
        ∃ l items, r = VRef l ∧ h' !! l = Some (OList items)).
Proof.
  split_and!.
  - intros [e|r] H.
    + apply utils_format_messages_fails_clean in H as ->. exists []. by rewrite app_nil_r.
    + apply utils_format_ok_inv in H
        as [(s & -> & -> & ->)|[(l & d & r0 & -> & Hl & Hr & -> & ->)
           |[(l & items & -> & Hl & Hne & Hitems & -> & ->)
            |(l & first & rest & -> & Hl & Hfirst & Hthreads & -> & ->)]]];
        try (by eexists); exists []; by rewrite app_nil_r.
  - intros r H. by eapply take_extends, lib_format_messages_frame.
  - intros r. apply lib_format_returns_list.
Qed.

Lemma format_messages_only_allocates_witness :
  (∃ ext, broken_thread_store = broken_thread_store ++ ext) ∧
  (∃ ext, batch_store ++ [OList [VRef 1; VRef 4]] = batch_store ++ ext) ∧
  (∃ l items, VRef 6 = VRef l ∧
     (batch_store ++ [OList [VRef 1; VRef 4]]) !! l = Some (OList items)).
Proof.
  split_and!.
  - destruct (format_messages_only_allocates (VRef 2) broken_thread_store broken_thread_store)
      as (Hu & _ & _).
    apply (Hu (inl (ValueError "Invalid message format"))). by vm_compute.
  - destruct (format_messages_only_allocates (VRef 5) batch_store
                (batch_store ++ [OList [VRef 1; VRef 4]])) as (_ & Hl & _).
    apply (Hl (inr (VRef 6))). by vm_compute.
  - destruct (format_messages_only_allocates (VRef 5) batch_store
                (batch_store ++ [OList [VRef 1; VRef 4]])) as (_ & _ & Hl).
    apply (Hl (VRef 6)). by vm_compute.
Defined.

(** ** How the two editors compose *)

(** The second swap, after a first swap has left its record between
    [kept] and [post]. *)
Lemma swap_after_swap h kept post p q :
  Forall (has_role h) kept → Forall (has_role h) post →
  Forall (λ m, ¬ is_system h m) kept → Forall (λ m, ¬ is_system h m) post →
  let h1 := h ++ [OList (kept ++ VRef (S (length h)) :: post); system_record p] in
  Lib.swap_system_prompt (VRef (length h)) q h1
  = (h1 ++ [OList (kept ++ VRef (S (length h1)) :: post); system_record q],
     inr (VRef (length h1))).
Proof.
  intros Hkept Hpost Hnkept Hnpost h1.
  assert (Hin : ∀ xs, Forall (has_role h) xs → Forall (has_role h1) xs).
  { intros xs Hxs. eapply Forall_impl; [exact Hxs|]. intros m. apply has_role_app. }
  assert (Hnot : ∀ xs, Forall (has_role h) xs → Forall (λ m, ¬ is_system h m) xs →
            Forall (λ m, ¬ is_system h1 m) xs).
  { intros xs Hxs Hn. rewrite Forall_forall in Hxs, Hn. apply Forall_forall.
    intros m Hm. unfold h1. rewrite is_system_app by auto. auto. }
  apply swap_run_single with (pre := kept) (s := VRef (S (length h))) (post := post);
    [apply lookup_new_list|auto..|apply is_system_new_record].
Qed.

(** X9.  The last swap wins.  On a list of message records, swapping in
    [p] and then swapping [q] into the result gives the same thread as
    swapping [q] in directly: the same records in the same order around one
    system record with content [q]; nothing of [p] is left in it. *)
Theorem swap_system_prompt_last_wins
    (h : heap) (l : loc) (items : list val) (p q : string) :
  h !! l = Some (OList items) →
  Forall (has_role h) items →
  ∃ h1 r1 h2 l2 hq lq before after n2 nq,
    Lib.swap_system_prompt (VRef l) p h = (h1, inr r1) ∧
    Lib.swap_system_prompt r1 q h1 = (h2, inr (VRef l2)) ∧
    Lib.swap_system_prompt (VRef l) q h = (hq, inr (VRef lq)) ∧
    h2 !! l2 = Some (OList (before ++ VRef n2 :: after)) ∧
    hq !! lq = Some (OList (before ++ VRef nq :: after)) ∧
    h2 !! n2 = Some (system_record q) ∧
    hq !! nq = Some (system_record q).
Proof.
  intros Hl Hroles. apply py_iter_list_ok in Hl.
  destruct (last_split (is_system h) items)
    as [Hnone|(pre & s & post & -> & Hs & Hpost)].
  - eexists _, _, _, _, _, _, [], items, _, _. split_and!.
    + by apply swap_run_no_system.
    + by apply (swap_after_swap h [] items p q).
    + by apply swap_run_no_system.
    + apply lookup_new_list.
    + apply lookup_new_list.
    + apply lookup_new_record.
    + apply lookup_new_record.
  - pose proof Hroles as [Hpre [_ Hrpost]%Forall_cons]%Forall_app.
    assert (Hkept : Forall (has_role h) (filter (λ m, ¬ is_system h m) pre)).
    { apply Forall_forall. intros m [_ Hin]%list_elem_of_filter.
      rewrite Forall_forall in Hpre. auto. }
    assert (Hnkept : Forall (λ m, ¬ is_system h m) (filter (λ m, ¬ is_system h m) pre)).
    { apply Forall_forall. by intros m [Hm _]%list_elem_of_filter. }
    eexists _, _, _, _, _, _, (filter (λ m, ¬ is_system h m) pre), post, _, _.
    split_and!.
    + by eapply swap_run_system.
    + by apply (swap_after_swap h _ post p q).
    + by eapply swap_run_system.
    + apply lookup_new_list.
    + apply lookup_new_list.
    + apply lookup_new_record.
    + apply lookup_new_record.
Qed.

Lemma swap_system_prompt_last_wins_witness :
  ∃ h1 r1 h2 l2 hq lq before after n2 nq,
    Lib.swap_system_prompt (VRef 3) "P" two_system_store = (h1, inr r1) ∧
    Lib.swap_system_prompt r1 "Q" h1 = (h2, inr (VRef l2)) ∧
    Lib.swap_system_prompt (VRef 3) "Q" two_system_store = (hq, inr (VRef lq)) ∧
    h2 !! l2 = Some (OList (before ++ VRef n2 :: after)) ∧
    hq !! lq = Some (OList (before ++ VRef nq :: after)) ∧
    h2 !! n2 = Some (system_record "Q") ∧
    hq !! nq = Some (system_record "Q").
Proof.
  apply (swap_system_prompt_last_wins two_system_store 3 [VRef 0; VRef 1; VRef 2]).
  - reflexivity.
  - repeat constructor; by eexists.
Defined.

(** Writing the content of a record changes no role. *)
Lemma role_of_content_update h (k : loc) d x ext m :
  h !! k = Some (ODict d) →
  has_role h m →
  role_of (<[k := ODict (<["content" := x]> d)]> h ++ ext) m = role_of h m.
Proof.
  intros Hk [r Hr]. destruct m as [| | |j]; try done. simpl in *. unfold loc in *.
  destruct (h !! j) as [o|] eqn:Hj; [|done].
  assert (Hlt : j < length h) by by eapply lookup_lt_Some.
  rewrite lookup_app_l by by rewrite length_insert.
  destruct (decide (k = j)) as [->|Hne].
  - rewrite list_lookup_insert_eq by done. simplify_eq.
    by rewrite lookup_insert_ne.
  - rewrite list_lookup_insert_ne by done. by rewrite Hj.
Qed.

Lemma is_system_content_update h (k : loc) d x ext m :
  h !! k = Some (ODict d) →
  has_role h m →
  is_system (<[k := ODict (<["content" := x]> d)]> h ++ ext) m = is_system h m.
Proof. intros Hk Hm. unfold is_system. by rewrite role_of_content_update. Qed.

Lemma record_set_content role c x :
  <["content" := x]> ({[ "role" := VStr role; "content" := VStr c ]} : gmap string val)
  = {[ "role" := VStr role; "content" := x ]}.
Proof.
  apply map_eq. intros k.
  destruct (decide (k = "content")) as [->|Hc]; [by simplify_map_eq|].
  destruct (decide (k = "role")) as [->|Hr]; by simplify_map_eq.
Qed.

(** X10.  A context added after a swap lands in the prompt that the swap
    put in.  On a list of message records, [swap_system_prompt] with
    [prompt] followed by [add_context_to_messages] with [context] on the
    result both return; the final thread holds the same elements as the
    swapped one, and its only system message is the record the swap built,
    whose content is now [prompt + "\n\n" + context]. *)
Theorem add_context_after_swap
    (h : heap) (l : loc) (items : list val) (prompt context : string) :
  h !! l = Some (OList items) →
  Forall (has_role h) items →
  ∃ h1 l1 h2 l2 out n,
    Lib.swap_system_prompt (VRef l) prompt h = (h1, inr (VRef l1)) ∧
    Lib.add_context_to_messages (VRef l1) context h1 = (h2, inr (VRef l2)) ∧
    h2 !! l1 = Some (OList out) ∧
    h2 !! l2 = Some (OList out) ∧
    l1 ≠ l2 ∧
    filter (λ m, is_system h2 m) out = [VRef n] ∧
    h2 !! n = Some (record "system" (prompt +:+ two_newlines +:+ context)).
Proof.
  intros Hl Hroles.
  assert (Hstate : ∃ kept post,
    Lib.swap_system_prompt (VRef l) prompt h
    = (h ++ [OList (kept ++ VRef (S (length h)) :: post); system_record prompt],
       inr (VRef (length h))) ∧
    Forall (has_role h) kept ∧ Forall (has_role h) post ∧
    Forall (λ m, ¬ is_system h m) kept ∧ Forall (λ m, ¬ is_system h m) post).
  { destruct (last_split (is_system h) items)
      as [Hn|(pre & s & post & -> & Hs & Hpost)].
    - exists [], items. split_and!; auto.
      eapply swap_run_no_system; eauto using py_iter_list_ok.
    - pose proof (swap_run_system h (VRef l) _ pre s post prompt
                    (py_iter_list_ok _ _ _ Hl) Hroles eq_refl Hs Hpost) as Hrun.
      pose proof Hroles as [Hpre [_ Hrpost]%Forall_cons]%Forall_app.
      eexists _, post. split_and!; [exact Hrun| |done| |done].
      + apply Forall_forall. intros m [_ Hin]%list_elem_of_filter.
        rewrite Forall_forall in Hpre. auto.
      + apply Forall_forall. by intros m [Hm _]%list_elem_of_filter. }
  destruct Hstate as (kept & post & Hrun & Hkept & Hpost & Hnkept & Hnpost).
  set (out := kept ++ VRef (S (length h)) :: post) in *.
  set (h1 := h ++ [OList out; system_record prompt]) in *.
  assert (Hin : ∀ xs, Forall (has_role h) xs → Forall (has_role h1) xs).
  { intros xs Hxs. eapply Forall_impl; [exact Hxs|]. intros m. apply has_role_app. }
  assert (Hnot : ∀ xs, Forall (has_role h) xs → Forall (λ m, ¬ is_system h m) xs →
            Forall (λ m, ¬ is_system h1 m) xs).
  { intros xs Hxs Hn. rewrite Forall_forall in Hxs, Hn. apply Forall_forall.
    intros m Hm. unfold h1. rewrite is_system_app by auto. auto. }
  assert (Hnew : is_system h1 (VRef (S (length h)))) by apply is_system_new_record.
  assert (Hout : Forall (has_role h1) out).
  { apply Forall_app. split; [auto|]. constructor; [by apply is_system_has_role|auto]. }
  assert (Hlout : h1 !! length h = Some (OList out)) by apply lookup_new_list.
  pose proof (add_context_run_system h1 (length h) out kept (S (length h)) _ prompt
                post context Hlout Hout eq_refl Hnew (Hnot _ Hpost Hnpost)
                (lookup_new_record h _ _) eq_refl) as Hadd.
  rewrite <- (add_context_flat _ _ _ _ Hlout Hout) in Hadd.
  assert (Hone : filter (λ m, is_system h1 m) out = [VRef (S (length h))]).
  { unfold out. rewrite filter_app, filter_cons_True by done.
    rewrite !filter_none; [done| |].
    - eapply Forall_impl; [exact (Hnot _ Hpost Hnpost)|]. by intros m Hm.
    - eapply Forall_impl; [exact (Hnot _ Hkept Hnkept)|]. by intros m Hm. }
  assert (Hsame : filter (λ m, is_system
              (<[S (length h) := ODict (<["content" :=
                   VStr (prompt +:+ two_newlines +:+ context)]>
                   {[ "role" := VStr "system"; "content" := VStr prompt ]})]> h1
               ++ [OList out]) m) out
            = filter (λ m, is_system h1 m) out).
  { apply filter_agree. eapply Forall_impl; [exact Hout|]. intros m Hm. simpl.
    rewrite (is_system_content_update h1 (S (length h)) _ _ _ m
               (lookup_new_record h _ _) Hm). done. }
  rewrite record_set_content in Hadd, Hsame.
  eexists _, _, _, _, out, (S (length h)). split_and!; [exact Hrun|exact Hadd|..].
  - apply lookup_app_l_Some. rewrite list_lookup_insert_ne by lia. apply lookup_new_list.
  - rewrite <- (length_insert h1 (S (length h))
                  (ODict {[ "role" := VStr "system";
                            "content" := VStr (prompt +:+ two_newlines +:+ context) ]})).
    apply lookup_middle_eq.
  - unfold h1. rewrite length_app. simpl. lia.
  - etrans; [exact Hsame|exact Hone].
  - apply lookup_app_l_Some. apply list_lookup_insert_eq.
    unfold h1. rewrite length_app. simpl. lia.
Qed.

Lemma add_context_after_swap_witness :
  ∃ h1 l1 h2 l2 out n,
    Lib.swap_system_prompt (VRef 3) "P" two_system_store = (h1, inr (VRef l1)) ∧
    Lib.add_context_to_messages (VRef l1) "ctx" h1 = (h2, inr (VRef l2)) ∧
    h2 !! l1 = Some (OList out) ∧
    h2 !! l2 = Some (OList out) ∧
    l1 ≠ l2 ∧
    filter (λ m, is_system h2 m) out = [VRef n] ∧
    h2 !! n = Some (record "system" ("P" +:+ two_newlines +:+ "ctx")).
Proof.
  apply (add_context_after_swap two_system_store 3 [VRef 0; VRef 1; VRef 2]).
  - reflexivity.
  - repeat constructor; by eexists.
Defined.

(** X11.  The context append is not idempotent and works through the
    caller's record.  Calling [add_context_to_messages] twice on the same
    list of message records (whose last system message has a str content
    [c]) returns two different new lists, leaves the caller's list as it
    was, and leaves in the caller's system record the content
    [c + "\n\n" + c1 + "\n\n" + c2]: both contexts, in call order. *)
Theorem add_context_twice_accumulates
    (h : heap) (l : loc) (items pre post : list val) (k : loc)
    (d : gmap string val) (c c1 c2 : string) :
  h !! l = Some (OList items) →
  Forall (has_role h) items →
  items = pre ++ VRef k :: post →
  is_system h (VRef k) →
  Forall (λ m, ¬ is_system h m) post →
  h !! k = Some (ODict d) →
  d !! "content" = Some (VStr c) →
  ∃ h1 l1 h2 l2,
    Lib.add_context_to_messages (VRef l) c1 h = (h1, inr (VRef l1)) ∧
    Lib.add_context_to_messages (VRef l) c2 h1 = (h2, inr (VRef l2)) ∧
    l1 ≠ l2 ∧
    h2 !! l = Some (OList items) ∧
    h2 !! l1 = Some (OList items) ∧
    h2 !! l2 = Some (OList items) ∧
    h2 !! k = Some (ODict (<["content" :=
                 VStr ((c +:+ two_newlines +:+ c1) +:+ two_newlines +:+ c2)]> d)).
Proof.
  intros Hl Hroles Hitems Hs Hpost Hk Hc.
  pose proof (add_context_run_system h l items pre k d c post c1
                Hl Hroles Hitems Hs Hpost Hk Hc) as Hadd1.
  rewrite <- (add_context_flat _ _ _ _ Hl Hroles) in Hadd1.
  set (d1 := <["content" := VStr (c +:+ two_newlines +:+ c1)]> d) in *.
  set (h1 := <[k := ODict d1]> h ++ [OList items]) in *.
  assert (Hklt : k < length h) by by eapply lookup_lt_Some.
  assert (Hne : k ≠ l) by (intros ->; congruence).
  assert (Hl1 : h1 !! l = Some (OList items)).
  { apply lookup_app_l_Some. by rewrite list_lookup_insert_ne. }
  assert (Hk1 : h1 !! k = Some (ODict d1)).
  { apply lookup_app_l_Some. by apply list_lookup_insert_eq. }
  assert (Hroles1 : Forall (has_role h1) items).
  { eapply Forall_impl; [exact Hroles|]. intros m Hm. unfold has_role, h1, d1.
    by rewrite role_of_content_update. }
  assert (Hs1 : is_system h1 (VRef k)).
  { unfold h1, d1. rewrite is_system_content_update; [done..|].
    by apply is_system_has_role. }
  assert (Hpost1 : Forall (λ m, ¬ is_system h1 m) post).
  { subst items. apply Forall_app in Hroles as [_ [_ Hrp]%Forall_cons].
    rewrite Forall_forall in Hpost, Hrp. apply Forall_forall. intros m Hm.
    unfold h1, d1. rewrite is_system_content_update; auto. }
  assert (Hc1 : d1 !! "content" = Some (VStr (c +:+ two_newlines +:+ c1)))
    by (unfold d1; by rewrite lookup_insert_eq).
  pose proof (add_context_run_system h1 l items pre k d1 (c +:+ two_newlines +:+ c1)
                post c2 Hl1 Hroles1 Hitems Hs1 Hpost1 Hk1 Hc1) as Hadd2.
  rewrite <- (add_context_flat _ _ _ _ Hl1 Hroles1) in Hadd2.
  assert (Hlen1 : length h1 = S (length h)).
  { unfold h1. rewrite length_app, length_insert. simpl. lia. }
  assert (Hlt1 : ∀ j, j < length h1 →
            j < length (<[k := ODict (<["content" :=
                   VStr ((c +:+ two_newlines +:+ c1) +:+ two_newlines +:+ c2)]> d1)]> h1)).
  { intros j. by rewrite length_insert. }
  eexists _, _, _, _. split_and!; [exact Hadd1|exact Hadd2|lia|..].
  - rewrite lookup_app_l by (apply Hlt1; by eapply lookup_lt_Some).
    by rewrite list_lookup_insert_ne.
  - rewrite lookup_app_l by (apply Hlt1; lia).
    rewrite list_lookup_insert_ne by lia.
    unfold h1. rewrite <- (length_insert h k (ODict d1)). apply lookup_middle_eq.
  - rewrite <- (length_insert h1 k (ODict (<["content" :=
                   VStr ((c +:+ two_newlines +:+ c1) +:+ two_newlines +:+ c2)]> d1))).
    apply lookup_middle_eq.
  - rewrite lookup_app_l by (apply Hlt1; lia).
    rewrite list_lookup_insert_eq by lia.
    unfold d1. by rewrite insert_insert_eq.
Qed.

Lemma add_context_twice_accumulates_witness :
  ∃ h1 l1 h2 l2,
    Lib.add_context_to_messages (VRef 3) "x" two_system_store = (h1, inr (VRef l1)) ∧
    Lib.add_context_to_messages (VRef 3) "y" h1 = (h2, inr (VRef l2)) ∧
    l1 ≠ l2 ∧
    h2 !! 3 = Some (OList [VRef 0; VRef 1; VRef 2]) ∧
    h2 !! l1 = Some (OList [VRef 0; VRef 1; VRef 2]) ∧
    h2 !! l2 = Some (OList [VRef 0; VRef 1; VRef 2]) ∧
    h2 !! 1 = Some (ODict (<["content" :=
                VStr (("b" +:+ two_newlines +:+ "x") +:+ two_newlines +:+ "y")]>
                {[ "role" := VStr "system"; "content" := VStr "b" ]})).
Proof.
  apply (add_context_twice_accumulates two_system_store 3 [VRef 0; VRef 1; VRef 2]
           [VRef 0] [VRef 2] 1 _ "b" "x" "y").
  - reflexivity.
  - repeat constructor; by eexists.
  - reflexivity.
  - by vm_compute.
  - repeat constructor. by vm_compute.
  - reflexivity.
  - reflexivity.
Defined.

(** ** How the two editors fail *)

Lemma getitem_err_app v k h ext e :
  py_getitem_str v k h = (h, inl e) → e ≠ BadRef →
  py_getitem_str v k (h ++ ext) = (h ++ ext, inl e).
Proof.
  destruct v as [| | |l]; simpl; unfold raise; try (intros; by simplify_eq).
  intros H Hne. step_in H as Hr.
  - unfold read in Hr. destruct (h !! l); by simplify_eq.
  - unfold read in Hr. destruct (h !! l) as [o|] eqn:Hl; [|done]. simplify_eq.
    rewrite (bind_ok _ _ _ _ _ (read_ok _ _ _ (lookup_app_l_Some _ ext _ _ Hl))).
    destruct a as [| |d]; unfold raise in *; try by simplify_eq.
    destruct (d !! k); unfold mret, M_ret, raise in *; by simplify_eq.
Qed.

(** Both scans stop at the first element whose role cannot be read. *)
Lemma system_scan_err h pre bad post e : ∀ i acc,
  Forall (has_role h) pre →
  py_getitem_str bad "role" h = (h, inl e) →
  for_fold (enumerate_from i (pre ++ bad :: post)) acc (λ '(i, msg) acc,
    role ← py_getitem_str msg "role";
    mret (if decide (role = VStr "system") then acc ++ [i] else acc)) h
  = (h, inl e).
Proof.
  induction pre as [|x pre IH]; intros i acc Hpre Hbad; simpl.
  - by rewrite (bind_err _ _ _ _ _ (bind_err _ _ _ _ _ Hbad)).
  - apply Forall_cons in Hpre as [[r Hr] Hpre].
    rewrite (bind_ok _ _ _ _ _ (bind_ok _ _ _ _ _ (getitem_role_ok _ _ _ Hr))).
    unfold mret at 1, M_ret at 1. by apply IH.
Qed.

Lemma last_system_scan_err h pre bad post e : ∀ i acc,
  Forall (has_role h) pre →
  py_getitem_str bad "role" h = (h, inl e) →
  for_fold (enumerate_from i (pre ++ bad :: post)) acc (λ '(i, msg) system_idx,
    role ← py_getitem_str msg "role";
    mret (if decide (role = VStr "system") then Some i else system_idx)) h
  = (h, inl e).
Proof.
  induction pre as [|x pre IH]; intros i acc Hpre Hbad; simpl.
  - by rewrite (bind_err _ _ _ _ _ (bind_err _ _ _ _ _ Hbad)).
  - apply Forall_cons in Hpre as [[r Hr] Hpre].
    rewrite (bind_ok _ _ _ _ _ (bind_ok _ _ _ _ _ (getitem_role_ok _ _ _ Hr))).
    unfold mret at 1, M_ret at 1. by apply IH.
Qed.

(** X12.  Neither editor validates its input first: each copies the list
    and then reads [msg["role"]] element by element.  At the first element
    whose role cannot be read both raise the error of that read ([KeyError]
    for a dict without the key, [TypeError] for an element that is not a
    dict), whatever follows that element; they have then written to no
    object of the caller, the copy of the list being all they added to the
    store.  ([add_context_to_messages] gets there provided the failing
    element, if it is the first, is not itself a list or tuple.) *)
Theorem editors_fail_at_first_unreadable_role
    (h : heap) (l : loc) (pre post : list val) (bad : val) (e : exn)
    (prompt context : string) :
  h !! l = Some (OList (pre ++ bad :: post)) →
  Forall (has_role h) pre →
  py_getitem_str bad "role" h = (h, inl e) →
  e ≠ BadRef →
  Lib.swap_system_prompt (VRef l) prompt h
  = (h ++ [OList (pre ++ bad :: post)], inl e) ∧
  (isinstance bad [TList; TTuple] h = (h, inr false) →
   Lib.add_context_to_messages (VRef l) context h
   = (h ++ [OList (pre ++ bad :: post)], inl e)).
Proof.
  intros Hl Hpre Hbad Hne.
  assert (Hpre1 : Forall (has_role (h ++ [OList (pre ++ bad :: post)])) pre).
  { eapply Forall_impl; [exact Hpre|]. intros m. apply has_role_app. }
  pose proof (getitem_err_app _ _ _ [OList (pre ++ bad :: post)] _ Hbad Hne) as Hbad1.
  split.
  - unfold Lib.swap_system_prompt.
    rewrite (bind_ok _ _ _ _ _ (py_list_ok _ _ _ (py_iter_list_ok _ _ _ Hl))).
    rewrite (bind_ok _ _ _ _ _ (py_iter_list_ok _ _ _ (lookup_middle_eq h _ []))).
    erewrite bind_err; [done|].
    by apply system_scan_err.
  - intros Hflat. unfold Lib.add_context_to_messages.
    erewrite bind_ok; last first.
    { simpl. by rewrite (bind_ok _ _ _ _ _ (read_ok _ _ _ Hl)). }
    rewrite (bind_ok _ _ h h true); last first.
    { rewrite bool_decide_eq_true_2 by by destruct pre.
      assert (∃ m, (pre ++ bad :: post) !! 0 = Some m ∧
                isinstance m [TList; TTuple] h = (h, inr false)) as (m & Hm0 & Hm).
      { destruct Hpre as [|m pre Hm _]; simpl; [by exists bad|].
        exists m. split; [done|]. by rewrite (isinstance_record _ _ [TList; TTuple] Hm). }
      change (negb true) with false. cbv iota.
      rewrite (bind_ok _ _ _ _ _ (py_getitem_nat_list_ok _ _ _ _ _ Hl Hm0)).
      by rewrite (bind_ok _ _ _ _ _ Hm). }
    cbv iota. unfold Lib._add_context_to_sequence.
    rewrite (bind_ok _ _ _ _ _ (py_list_ok _ _ _ (py_iter_list_ok _ _ _ Hl))).
    rewrite (bind_ok _ _ _ _ _ (py_iter_list_ok _ _ _ (lookup_middle_eq h _ []))).
    erewrite bind_err; [done|].
    by apply last_system_scan_err.
Qed.

Lemma editors_fail_at_first_unreadable_role_witness :
  Lib.swap_system_prompt (VRef 2) "P" broken_thread_store
  = (broken_thread_store ++ [OList [VRef 0; VRef 1; VRef 0]], inl KeyError) ∧
  Lib.add_context_to_messages (VRef 2) "ctx" broken_thread_store
  = (broken_thread_store ++ [OList [VRef 0; VRef 1; VRef 0]], inl KeyError).
Proof.
  destruct (editors_fail_at_first_unreadable_role broken_thread_store 2
              [VRef 0] [VRef 0] (VRef 1) KeyError "P" "ctx") as [Hswap Hadd].
  - reflexivity.
  - repeat constructor. by eexists.
  - by vm_compute.
  - discriminate.
  - split; [exact Hswap|]. apply Hadd. by vm_compute.
Defined.

(** ** The context append over a batch *)

Lemma str_app_assoc (a b c : string) : (a +:+ b) +:+ c = a +:+ b +:+ c.
Proof.
  induction a as [|x a IH]; [done|].
  change (String x ((a +:+ b) +:+ c) = String x (a +:+ b +:+ c)). by rewrite IH.
Qed.

Lemma context_grows_refl c n h : context_grows c n h h.
Proof. intros k o Hk _. by left. Qed.

Lemma context_grows_trans c n h1 h2 h3 :
  context_grows c n h1 h2 → context_grows c n h2 h3 → context_grows c n h1 h3.
Proof.
  intros H12 H23 k o Hk Hn.
  destruct (H12 k o Hk Hn) as [Hsame|(d & x & s & -> & Hx & Hk2)].
  - exact (H23 k o Hsame Hn).
  - destruct (H23 k _ Hk2 Hn) as [Hsame|(d' & x' & s' & Hd' & Hx' & Hk3)].
    + right. by exists d, x, s.
    + right. simplify_eq. rewrite lookup_insert_eq in Hx'. simplify_eq.
      exists d, x, (s +:+ c +:+ s'). split_and!; [done..|].
      rewrite Hk3, insert_insert_eq. do 3 f_equal.
      by rewrite !str_app_assoc.
Qed.

(** Writing the list at [n] is outside what [context_grows] watches. *)
Lemma context_grows_write c (n : loc) h h' o :
  context_grows c n h h' → context_grows c n h (<[n := o]> h').
Proof.
  intros Hg k o' Hk Hn.
  destruct (Hg k o' Hk Hn) as [Hsame|(d & x & s & -> & Hx & Hk2)].
  - left. by rewrite list_lookup_insert_ne.
  - right. exists d, x, s. by rewrite list_lookup_insert_ne.
Qed.

Lemma context_grows_list c (n k : loc) h h' xs :
  context_grows c n h h' → k ≠ n →
  h !! k = Some (OList xs) → h' !! k = Some (OList xs).
Proof.
  intros Hg Hn Hk. by destruct (Hg k _ Hk Hn) as [Hsame|(d & x & s & ? & _)].
Qed.

Lemma editable_record_grows c (n : loc) h h' xs m :
  context_grows c n h h' → h !! n = Some (OList xs) →
  editable_record h m → editable_record h' m.
Proof.
  intros Hg Hlist (k & d & r & -> & Hk & Hr & Hc).
  assert (Hn : k ≠ n) by (intros ->; congruence).
  destruct (Hg k _ Hk Hn) as [Hsame|(d' & x & s & Hd & Hx & Hk')].
  - by exists k, d, r.
  - simplify_eq. eexists k, _, r. split_and!; [done|exact Hk'| |].
    + by rewrite lookup_insert_ne.
    + intros _. rewrite lookup_insert_eq. eauto.
Qed.

Lemma editable_thread_grows c (n : loc) h h' xs (lt : loc) :
  context_grows c n h h' → h !! n = Some (OList xs) → lt ≠ n →
  editable_thread h (VRef lt) → editable_thread h' (VRef lt).
Proof.
  intros Hg Hlist Hn (l & items & Heq & Hl & Hitems). simplify_eq.
  exists l, items. split_and!; [done|by eapply context_grows_list|].
  eapply Forall_impl; [exact Hitems|]. intros m. by eapply editable_record_grows.
Qed.

Lemma carries_context_grows c (n : loc) h h' xs m :
  context_grows c n h h' → h !! n = Some (OList xs) →
  carries_context c h m → carries_context c h' m.
Proof.
  intros Hg Hlist (k & d & c0 & -> & Hk & Hr & Hc).
  assert (Hn : k ≠ n) by (intros ->; congruence).
  destruct (Hg k _ Hk Hn) as [Hsame|(d' & x & s & Hd & Hx & Hk')].
  - by exists k, d, c0.
  - simplify_eq. eexists k, _, (c0 +:+ c +:+ s). split_and!; [done|exact Hk'| |].
    + by rewrite lookup_insert_ne.
    + rewrite lookup_insert_eq. by rewrite !str_app_assoc.
Qed.

Lemma editable_record_has_role h m : editable_record h m → has_role h m.
Proof. intros (k & d & r & -> & Hk & Hr & _). exists r. simpl. by rewrite Hk. Qed.

Lemma editable_record_app h ext m : editable_record h m → editable_record (h ++ ext) m.
Proof.
  intros (k & d & r & -> & Hk & Hr & Hc). exists k, d, r.
  split_and!; [done|by apply lookup_app_l_Some|done..].
Qed.

(** The edit of one editable thread: what it returns and what it does to
    the rest of the store. *)
Lemma context_thread_step c h (lt : loc) items :
  h !! lt = Some (OList items) →
  Forall (editable_record h) items →
  ∃ h1 out,
    Lib._add_context_to_sequence c (VRef lt) h = (h1, inr (VRef (length h))) ∧
    length h < length h1 ∧
    h1 !! length h = Some (OList out) ∧
    (out = items ∨ ∃ r, out = r :: items) ∧
    Exists (carries_context c h1) out ∧
    (∀ n, context_grows c n h h1).
Proof.
  intros Hl Hitems.
  assert (Hroles : Forall (has_role h) items).
  { eapply Forall_impl; [exact Hitems|]. apply editable_record_has_role. }
  destruct (last_split (is_system h) items)
    as [Hnone|(pre & s & post & -> & Hs & Hpost)].
  - eexists _, _. split_and!.
    + by apply add_context_run_no_system.
    + rewrite length_app. simpl. lia.
    + apply lookup_new_list.
    + right. by eexists.
    + apply Exists_cons_hd.
      exists (S (length h)), {[ "role" := VStr "system"; "content" := VStr c ]}, "".
      split_and!; [done|apply lookup_new_record|done..].
    + intros n k o Hk _. left. by apply lookup_app_l_Some.
  - pose proof Hitems as [_ [Hsrec _]%Forall_cons]%Forall_app.
    destruct Hsrec as (k & d & r & -> & Hk & Hr & Hc).
    assert (r = VStr "system") as ->.
    { apply bool_decide_unpack in Hs. simpl in Hs. rewrite Hk in Hs. congruence. }
    destruct (Hc eq_refl) as [x Hx].
    assert (Hklt : k < length h) by by eapply lookup_lt_Some.
    eexists _, _. split_and!.
    + by eapply add_context_run_system.
    + rewrite length_app, length_insert. simpl. lia.
    + rewrite <- (length_insert h k
        (ODict (<["content" := VStr (x +:+ two_newlines +:+ c)]> d))).
      apply lookup_middle_eq.
    + by left.
    + apply Exists_app. right. apply Exists_cons_hd.
      exists k, (<["content" := VStr (x +:+ two_newlines +:+ c)]> d), (x +:+ two_newlines).
      split_and!; [done| | |].
      * apply lookup_app_l_Some. by apply list_lookup_insert_eq.
      * by rewrite lookup_insert_ne.
      * rewrite lookup_insert_eq. by rewrite str_app_assoc.
    + intros n j o Hj _. destruct (decide (j = k)) as [->|Hjk].
      * right. simplify_eq. exists d, x, two_newlines. split_and!; [done..|].
        apply lookup_app_l_Some. by apply list_lookup_insert_eq.
      * left. apply lookup_app_l_Some. by rewrite list_lookup_insert_ne.
Qed.

Lemma context_grows_list_back c (n k : loc) h h' xs :
  context_grows c n h h' → k ≠ n → k < length h →
  h' !! k = Some (OList xs) → h !! k = Some (OList xs).
Proof.
  intros Hg Hn Hlt Hk'. destruct (lookup_lt_is_Some_2 h k Hlt) as [o Hk].
  destruct (Hg k o Hk Hn) as [Hsame|(d & x & s & -> & _ & Hd)];
    unfold loc in *; congruence.
Qed.

(** The batch loop: every thread is edited in turn, in the store the
    earlier edits have left, and the edits are collected in order in the
    list at [n]. *)
Lemma context_batch_loop c (n : loc) : ∀ threads hc collected,
  hc !! n = Some (OList collected) →
  Forall (λ t, ∃ lt : loc, t = VRef lt ∧ lt < n ∧ editable_thread hc t) threads →
  ∃ h' outs,
    for_each threads (add_context_step c (VRef n)) hc = (h', inr tt) ∧
    h' !! n = Some (OList (collected ++ outs)) ∧
    length hc ≤ length h' ∧
    context_grows c n hc h' ∧
    Forall2 (edited_thread c n hc h') threads outs.
Proof.
  induction threads as [|t rest IH]; intros hc collected Hn Hthreads.
  - exists hc, []. rewrite app_nil_r. split_and!; [done..| |constructor].
    apply context_grows_refl.
  - apply Forall_cons in Hthreads as [(lt & -> & Hlt & Ht) Hrest].
    destruct Ht as (lt' & items & Heq & Hl & Hitems). simplify_eq.
    assert (Hnlt : n < length hc) by by eapply lookup_lt_Some.
    destruct (context_thread_step c hc lt' items Hl Hitems)
      as (h1 & out & Hrun & Hlen1 & Hout & Hshape & Hcarry & Hgrow).
    assert (Hn1 : h1 !! n = Some (OList collected)).
    { eapply (context_grows_list c (S n)); [apply Hgrow|lia|done]. }
    set (h2 := <[n := OList (collected ++ [VRef (length hc)])]> h1).
    assert (Hstep : add_context_step c (VRef n) (VRef lt') hc = (h2, inr tt)).
    { unfold add_context_step. rewrite (bind_ok _ _ _ _ _ Hrun).
      by apply list_append_ok. }
    assert (Hg2 : context_grows c n hc h2) by apply context_grows_write, Hgrow.
    assert (Hn2 : h2 !! n = Some (OList (collected ++ [VRef (length hc)]))).
    { apply list_lookup_insert_eq. lia. }
    assert (Hlen2 : length h2 = length h1) by apply length_insert.
    destruct (IH h2 (collected ++ [VRef (length hc)]) Hn2)
      as (h' & outs & Hloop & Hn' & Hlen' & Hg' & Hedits).
    { eapply Forall_impl; [exact Hrest|]. intros t (l0 & -> & Hl0 & Ht0).
      exists l0. split_and!; [done..|].
      eapply editable_thread_grows; [exact Hg2|exact Hn|lia|done]. }
    exists h', (VRef (length hc) :: outs). split_and!.
    + by rewrite (for_each_cons_ok _ _ _ _ _ Hstep).
    + by rewrite Hn', <- app_assoc.
    + lia.
    + by eapply context_grows_trans.
    + constructor.
      * exists lt', items, (length hc), out.
        split_and!; [done|done|done|done|done| |done|].
        -- eapply (context_grows_list c n); [exact Hg'|lia|].
           unfold h2. by rewrite list_lookup_insert_ne by lia.
        -- eapply Exists_impl; [exact Hcarry|]. intros m Hm.
           eapply carries_context_grows; [exact Hg'|exact Hn2|].
           eapply carries_context_grows; [|exact Hn1|exact Hm].
           apply context_grows_write, context_grows_refl.
      * eapply Forall2_impl; [exact Hedits|].
        intros t o (l0 & its & lo & o' & -> & Hl0 & Hits & -> & Hlo & Ho' & Hsh & Hc').
        exists l0, its, lo, o'. split_and!; [done|done| |done|done|done|done|done].
        eapply context_grows_list_back; [exact Hg2|lia|lia|done].
Qed.

(** X13.  The context append over a batch.  Let the batch be a non-empty
    list of lists of message records in which every system message has a
    str content.  The call returns a new list with one entry per thread, in
    order; each entry is a new list that holds the messages of its thread
    in their order, behind at most one new record, and has a system message
    whose content ends with [context].  No list of the caller (the batch,
    its threads) is changed: the edits are made in new lists and in the
    caller's records. *)
Theorem add_context_to_messages_batch_spec
    (h : heap) (l : loc) (threads : list val) (context : string) :
  h !! l = Some (OList threads) →
  threads ≠ [] →
  Forall (editable_thread h) threads →
  ∃ h' outs,
    Lib.add_context_to_messages (VRef l) context h = (h', inr (VRef (length h))) ∧
    h' !! length h = Some (OList outs) ∧
    Forall2 (edited_thread context (length h) h h') threads outs ∧
    (∀ (k : loc) xs, h !! k = Some (OList xs) → h' !! k = Some (OList xs)).
Proof.
  intros Hl Hne Hthreads.
  destruct threads as [|t0 rest] eqn:Heq; [done|]. rewrite <- Heq in *. clear Hne.
  assert (Hfirst : isinstance t0 [TList; TTuple] h = (h, inr true)).
  { rewrite Heq in Hthreads. apply Forall_cons in Hthreads as [(l0 & its & -> & Hl0 & _) _].
    by rewrite (isinstance_ref _ _ _ _ Hl0). }
  assert (Hhead : head threads = Some t0) by by rewrite Heq.
  rewrite (add_context_batch_path _ _ _ _ _ Hl Hhead Hfirst).
  destruct (context_batch_loop context (length h) threads (h ++ [OList []]) [])
    as (h' & outs & Hloop & Hn' & Hlen' & Hg' & Hedits).
  { apply lookup_middle_eq. }
  { eapply Forall_impl; [exact Hthreads|].
    intros t (lt & items & -> & Hlt & Hitems). exists lt. split_and!; [done| |].
    - by eapply lookup_lt_Some.
    - exists lt, items. split_and!; [done|by apply lookup_app_l_Some|].
      eapply Forall_impl; [exact Hitems|]. intros m. apply editable_record_app. }
  assert (Hkeep : ∀ (k : loc) xs, h !! k = Some (OList xs) → h' !! k = Some (OList xs)).
  { intros k xs Hk. eapply (context_grows_list context (length h)); [exact Hg'| |].
    - apply lookup_lt_Some in Hk. lia.
    - by apply lookup_app_l_Some. }
  assert (Hbehind : for_live 1 l (length threads)
                      (add_context_step context (VRef (length h))) h' = (h', inr tt)).
  { simpl. rewrite (bind_ok _ _ _ _ _ (read_ok _ _ _ (Hkeep _ _ Hl))).
    by rewrite lookup_ge_None_2. }
  exists h', outs. split_and!.
  - unfold mbind at 1, M_bind at 1, alloc at 1.
    rewrite (bind_ok _ _ _ _ _ Hloop). by rewrite (bind_ok _ _ _ _ _ Hbehind).
  - done.
  - eapply Forall2_impl; [exact Hedits|].
    intros t o (l0 & its & lo & o' & -> & Hl0 & Hits & -> & Hlo & Ho' & Hsh & Hc').
    exists l0, its, lo, o'. split_and!; [done|done| |done|done|done|done|done].
    by rewrite lookup_app_l in Hits.
  - exact Hkeep.
Qed.

Lemma add_context_to_messages_batch_spec_witness :
  ∃ h' outs,
    Lib.add_context_to_messages (VRef 5) "ctx" batch_store
    = (h', inr (VRef (length batch_store))) ∧
    h' !! length batch_store = Some (OList outs) ∧
    Forall2 (edited_thread "ctx" (length batch_store) batch_store h')
      [VRef 1; VRef 4] outs ∧
    (∀ (k : loc) xs, batch_store !! k = Some (OList xs) → h' !! k = Some (OList xs)).
Proof.
  apply (add_context_to_messages_batch_spec batch_store 5 [VRef 1; VRef 4] "ctx").
  - reflexivity.
  - discriminate.
  - repeat constructor.
    + exists 1, [VRef 0]. split_and!; [done..|]. repeat constructor.
      eexists 0, _, (VStr "user"). split_and!; [done..|]. discriminate.
    + exists 4, [VRef 2; VRef 3]. split_and!; [done..|]. repeat constructor.
      * eexists 2, _, (VStr "system"). split_and!; [done..|]. intros _. by eexists.
      * eexists 3, _, (VStr "user"). split_and!; [done..|]. discriminate.
Defined.

(** ** [inherit_messages_from_kwargs] *)

(** X14.  Whatever [inherit_messages_from_kwargs] returns is [None] or a
    list object, never a bare str or a bare record; it returns [None] only
    when it was given [None], and then without touching the store.  When
    it is given anything else it is [format_messages] of that value,
    whatever the keyword arguments are. *)
Theorem inherit_messages_result
    (messages : val) (kwargs : gmap string val) (h h' : heap) (r : val) :
  Lib.inherit_messages_from_kwargs messages kwargs h = (h', inr r) →
  (messages ≠ VNone →
   Lib.inherit_messages_from_kwargs messages kwargs h = Lib.format_messages messages h) ∧
  ((r = VNone ∧ messages = VNone ∧ h' = h) ∨
   (∃ l items, r = VRef l ∧ h' !! l = Some (OList items))).
Proof.
  unfold Lib.inherit_messages_from_kwargs. intros H. split.
  { intros Hne. by rewrite decide_False. }
  destruct (decide (messages = VNone)) as [->|Hne].
  - destruct (kwargs !! "messages") as [m|].
    + step_in H as Ht; [done|]. apply read_only_py_truthy in Ht as ->.
      destruct a.
      * right. by eapply lib_format_returns_list.
      * left. unfold mret, M_ret in H. by simplify_eq.
    + left. unfold mret, M_ret in H. by simplify_eq.
  - right. by eapply lib_format_returns_list.
Qed.

Lemma inherit_messages_result_witness :
  (VStr "hi" ≠ VNone →
   Lib.inherit_messages_from_kwargs (VStr "hi") ∅ []
   = Lib.format_messages (VStr "hi") []) ∧
  ((VRef 1 = VNone ∧ VStr "hi" = VNone ∧ [record "user" "hi"; OList [VRef 0]] = []) ∨
   (∃ l items, VRef 1 = VRef l ∧
      [record "user" "hi"; OList [VRef 0]] !! l = Some (OList items))).
Proof.
  apply (inherit_messages_result (VStr "hi") ∅ [] [record "user" "hi"; OList [VRef 0]]).
  by vm_compute.
Defined.

(** ** The resource singleton *)

Lemma get_resource_again new_resource new_resource' g g1 h h1 h2 r :
  Resource.get_resource new_resource g h = (g1, h1, inr r) →
  Resource.get_resource new_resource' g1 h2 = (g1, h2, inr r).
Proof.
  unfold Resource.get_resource. intros H.
  destruct (Resource.litellm_initialized g) eqn:Hg; simpl in H.
  - simplify_eq. by rewrite Hg.
  - destruct (new_resource h) as [h' [e|r']]; by simplify_eq.
Qed.

(** X15.  [get_resource] is a singleton getter: once a call has returned an
    object, every later call returns that same object, whatever the
    constructor would do then and whatever the store has become, and leaves
    globals and store as they are. *)
Theorem get_resource_singleton
    (new_resource new_resource' : M val) (g g1 : Resource.globals)
    (h h1 h2 : heap) (r : val) :
  Resource.get_resource new_resource g h = (g1, h1, inr r) →
  Resource.get_resource new_resource' g1 h2 = (g1, h2, inr r).
Proof. apply get_resource_again. Qed.

Lemma get_resource_singleton_witness :
  Resource.get_resource (raise TypeError)
    {| Resource.litellm_initialized := true; Resource.resource_instance := VRef 0 |}
    [ODict ∅; OList []]
  = ({| Resource.litellm_initialized := true; Resource.resource_instance := VRef 0 |},
     [ODict ∅; OList []], inr (VRef 0)).
Proof.
  apply (get_resource_singleton (alloc (ODict ∅)) (raise TypeError)
           Resource.initial _ [] [ODict ∅]).
  reflexivity.
Defined.

(** X16.  [get_resource] raises only while the resource is not initialised
    and only when the constructor raises: the error is the [RuntimeError]
    whose cause is the constructor's exception, the globals are left as they
    were (so the next call runs the constructor again), and the store is as
    the constructor left it. *)
Theorem get_resource_raises_only_uninitialised
    (new_resource : M val) (g g1 : Resource.globals) (h h1 : heap)
    (err : Resource.error) :
  Resource.get_resource new_resource g h = (g1, h1, inl err) →
  Resource.litellm_initialized g = false ∧
  g1 = g ∧
  ∃ e, err = Resource.RuntimeError e ∧ new_resource h = (h1, inl e).
Proof.
  unfold Resource.get_resource. intros H.
  destruct (Resource.litellm_initialized g) eqn:Hg; simpl in H; [done|].
  destruct (new_resource h) as [h' [e|r']] eqn:Hnew; simplify_eq.
  split_and!; [done..|]. by exists e.
Qed.

Lemma get_resource_raises_only_uninitialised_witness :
  Resource.litellm_initialized Resource.initial = false ∧
  Resource.initial = Resource.initial ∧
  ∃ e, Resource.RuntimeError KeyError = Resource.RuntimeError e ∧
       (raise KeyError : M val) [] = ([], inl e).
Proof.
  apply (get_resource_raises_only_uninitialised (raise KeyError) Resource.initial
           Resource.initial [] []).
  reflexivity.
Defined.

(** ** The cache directory *)

Lemma string_app_length (a b : string) :
  String.length (a +:+ b) = String.length a + String.length b.
Proof. induction a as [|x a IH]; simpl; [done|]. by rewrite IH. Qed.

Lemma log_file_not_cache_dir home : Config.log_file home ≠ Config.cache_dir home.
Proof.
  unfold Config.log_file. intros Hc.
  apply (f_equal String.length) in Hc. rewrite string_app_length in Hc.
  simpl in Hc. lia.
Qed.

(** A directory above a path has no longer a name than the path. *)
Lemma ancestors_from_length pre p x :
  x ∈ Config.ancestors_from pre p →
  String.length x ≤ String.length pre + String.length p.
Proof.
  revert pre. induction p as [|c p IH]; intros pre; simpl; [by intros ?%elem_of_nil|].
  intros [Hx|Hx]%elem_of_app.
  - destruct (Ascii.eqb c Config.slash); [|by apply elem_of_nil in Hx].
    apply list_elem_of_singleton in Hx as ->.
    destruct (decide (pre = "")) as [->|_]; simpl; lia.
  - apply IH in Hx. rewrite string_app_length in Hx. simpl in Hx. lia.
Qed.

Lemma log_file_not_above_cache_dir home :
  Config.log_file home ∉ Config.ancestors (Config.cache_dir home).
Proof.
  intros Hx%ancestors_from_length. unfold Config.log_file in Hx.
  rewrite string_app_length in Hx. simpl in Hx. lia.
Qed.

Lemma path_exists_spec p w : Config.path_exists p w = true ↔ p ∈ Config.files w.
Proof. unfold Config.path_exists. apply bool_decide_eq_true. Qed.

Lemma path_exists_false p w : Config.path_exists p w = false ↔ p ∉ Config.files w.
Proof. unfold Config.path_exists. apply bool_decide_eq_false. Qed.

Lemma makedirs_outcome O p w w1 r :
  Config.makedirs O p w = (w1, r) → request_outcome p w w1 r.
Proof.
  unfold Config.makedirs, request_outcome. intros H.
  destruct (Config.path_exists p w); [by simplify_eq|].
  destruct (Config.makedirs_refused O p w) as [x|]; simplify_eq; simpl;
    split_and!; try done.
  - apply union_subseteq_r.
  - apply union_subseteq_r.
  - apply elem_of_union_l, elem_of_union_l. by apply elem_of_singleton.
Qed.

Lemma makedirs_sinks O p w w1 r :
  Config.makedirs O p w = (w1, r) → Config.sinks w1 = Config.sinks w.
Proof.
  unfold Config.makedirs. intros H.
  destruct (Config.path_exists p w); [by simplify_eq|].
  destruct (Config.makedirs_refused O p w) as [x|]; by simplify_eq.
Qed.

Lemma logger_add_outcome O p w w1 r :
  Config.logger_add O p w = (w1, r) → request_outcome p w w1 r.
Proof.
  unfold Config.logger_add, request_outcome. intros H.
  destruct (Config.add_refused O p w) as [x|]; simplify_eq; simpl;
    split_and!; try done.
  - apply union_subseteq_r.
  - apply union_subseteq_r.
  - apply elem_of_union_l, elem_of_union_l. by apply elem_of_singleton.
Qed.

Lemma validate_outcome_config O home w w1 r :
  Config.validate_nanograph_cache_dir O home w = (w1, r) → validate_outcome home w w1 r.
Proof.
  unfold Config.validate_nanograph_cache_dir, validate_outcome. intros H.
  destruct (Config.path_exists (Config.cache_dir home) w) eqn:Hc; simpl in H.
  - apply path_exists_spec in Hc.
    destruct (Config.path_exists (Config.log_file home) w) eqn:Hf; simpl in H.
    + apply path_exists_spec in Hf. by simplify_eq.
    + apply logger_add_outcome in H as (Hsub & H1 & H2 & Hr).
      split_and!; try done. destruct r; [done|]. split; [by apply Hsub|done].
  - destruct (Config.makedirs O (Config.cache_dir home) w) as [w0 [e|[]]] eqn:Hm.
    + simplify_eq. pose proof (makedirs_sinks _ _ _ _ _ Hm).
      apply makedirs_outcome in Hm as (Hsub & H1 & H2 & Hr). by split_and!.
    + pose proof (makedirs_sinks _ _ _ _ _ Hm) as Hs.
      apply makedirs_outcome in Hm as (Hsub & H1 & H2 & Hr).
      apply logger_add_outcome in H as (Hsub' & H1' & H2' & Hr').
      split_and!; [by etrans|congruence|congruence|].
      destruct r; [congruence|]. split; [by apply Hsub'|done].
Qed.

Lemma validate_outcome_core O home w w1 r :
  Config.core_validate_nanograph_cache_dir O home w = (w1, r) →
  validate_outcome home w w1 r.
Proof.
  unfold Config.core_validate_nanograph_cache_dir, validate_outcome. intros H.
  assert (Hfirst : ∃ w0 r0,
    (if negb (Config.path_exists (Config.cache_dir home) w)
     then Config.makedirs O (Config.cache_dir home) w else (w, inr tt)) = (w0, r0) ∧
    request_outcome (Config.cache_dir home) w w0 r0 ∧
    Config.sinks w0 = Config.sinks w).
  { destruct (Config.path_exists (Config.cache_dir home) w) eqn:Hc; simpl.
    - apply path_exists_spec in Hc. eexists _, _. split; [done|].
      by unfold request_outcome.
    - destruct (Config.makedirs O (Config.cache_dir home) w) as [w0 r0] eqn:Hm.
      eexists _, _. split; [done|].
      split; [by eapply makedirs_outcome|by eapply makedirs_sinks]. }
  destruct Hfirst as (w0 & r0 & Hrun & (Hsub & H1 & H2 & Hr) & Hs).
  rewrite Hrun in H. destruct r0 as [e|[]]; [by simplify_eq|].
  destruct (Config.path_exists (Config.log_file home) w0) eqn:Hf; simpl in H.
  - apply path_exists_spec in Hf. by simplify_eq.
  - apply logger_add_outcome in H as (Hsub' & H1' & H2' & Hr').
    split_and!; [by etrans|congruence|congruence|].
    destruct r; [congruence|]. split; [by apply Hsub'|done].
Qed.

(** X17.  [ensure_nanograph_config], called while the flag of its module
    is unset, removes no path and leaves the flag of the other module as it
    is.  If it returns, its own flag is set and the cache directory and the
    log file exist.  If it raises (the operating system refused the
    directory or the log file), its flag is still unset, so that the next
    call tries again, and no sink has been added.  This holds for the
    version of [_config.py] and for the one of [_utils/core.py]. *)
Theorem ensure_nanograph_config_creates_cache
    (O : Config.os) (home : string) (w w1 : Config.world) (r : Config.os_error + unit) :
  (Config.config_ensured w = false →
   Config.ensure_nanograph_config O home w = (w1, r) →
   Config.files w ⊆ Config.files w1 ∧
   Config.core_config_ensured w1 = Config.core_config_ensured w ∧
   match r with
   | inr _ => Config.config_ensured w1 = true ∧
              Config.cache_dir home ∈ Config.files w1 ∧
              Config.log_file home ∈ Config.files w1
   | inl _ => Config.config_ensured w1 = false ∧ Config.sinks w1 = Config.sinks w
   end) ∧
  (Config.core_config_ensured w = false →
   Config.core_ensure_nanograph_config O home w = (w1, r) →
   Config.files w ⊆ Config.files w1 ∧
   Config.config_ensured w1 = Config.config_ensured w ∧
   match r with
   | inr _ => Config.core_config_ensured w1 = true ∧
              Config.cache_dir home ∈ Config.files w1 ∧
              Config.log_file home ∈ Config.files w1
   | inl _ => Config.core_config_ensured w1 = false ∧ Config.sinks w1 = Config.sinks w
   end).
Proof.
  split; intros Hw H.
  - unfold Config.ensure_nanograph_config in H. rewrite Hw in H. simpl in H.
    destruct (Config.validate_nanograph_cache_dir O home w) as [w0 [e|[]]] eqn:Hv;
      apply validate_outcome_config in Hv as (Hsub & H1 & H2 & Hr); simplify_eq; simpl.
    + split_and!; [done..|congruence|done].
    + destruct Hr. by split_and!.
  - unfold Config.core_ensure_nanograph_config in H. rewrite Hw in H. simpl in H.
    destruct (Config.core_validate_nanograph_cache_dir O home w) as [w0 [e|[]]] eqn:Hv;
      apply validate_outcome_core in Hv as (Hsub & H1 & H2 & Hr); simplify_eq; simpl.
    + split_and!; [done..|congruence|done].
    + destruct Hr. by split_and!.
Qed.

Lemma ensure_nanograph_config_creates_cache_witness :
  Config.files fresh_world
    ⊆ Config.files (Config.ensure_nanograph_config granting "/home/u" fresh_world).1 ∧
  Config.core_config_ensured (Config.ensure_nanograph_config granting "/home/u" fresh_world).1
  = Config.core_config_ensured fresh_world ∧
  match (Config.ensure_nanograph_config granting "/home/u" fresh_world).2 with
  | inr _ =>
      Config.config_ensured (Config.ensure_nanograph_config granting "/home/u" fresh_world).1
      = true ∧
      Config.cache_dir "/home/u"
        ∈ Config.files (Config.ensure_nanograph_config granting "/home/u" fresh_world).1 ∧
      Config.log_file "/home/u"
        ∈ Config.files (Config.ensure_nanograph_config granting "/home/u" fresh_world).1
  | inl _ =>
      Config.config_ensured (Config.ensure_nanograph_config granting "/home/u" fresh_world).1
      = false ∧
      Config.sinks (Config.ensure_nanograph_config granting "/home/u" fresh_world).1
      = Config.sinks fresh_world
  end.
Proof.
  apply (ensure_nanograph_config_creates_cache granting "/home/u" fresh_world).
  - reflexivity.
  - reflexivity.
Defined.

(** X18.  Each [ensure_nanograph_config] checks once.  After a call that
    returned, every later call of the same version returns at once and
    changes nothing, in every state in which the flag of its module is as
    that call left it: whatever the file system has become (a cache
    directory removed in between is not made again), whatever the
    operating system would answer, and whatever the flag of the other
    module is. *)
Theorem ensure_nanograph_config_once
    (O O' : Config.os) (home : string) (w w1 w2 : Config.world) :
  (Config.ensure_nanograph_config O home w = (w1, inr tt) →
   Config.config_ensured w2 = Config.config_ensured w1 →
   Config.ensure_nanograph_config O' home w2 = (w2, inr tt)) ∧
  (Config.core_ensure_nanograph_config O home w = (w1, inr tt) →
   Config.core_config_ensured w2 = Config.core_config_ensured w1 →
   Config.core_ensure_nanograph_config O' home w2 = (w2, inr tt)).
Proof.
  split; intros H Hflag.
  - assert (Hset : Config.config_ensured w1 = true).
    { unfold Config.ensure_nanograph_config in H.
      destruct (Config.config_ensured w) eqn:Hw; simpl in H; [by simplify_eq|].
      destruct (Config.validate_nanograph_cache_dir O home w) as [w0 [e|[]]];
        by simplify_eq. }
    unfold Config.ensure_nanograph_config. by rewrite Hflag, Hset.
  - assert (Hset : Config.core_config_ensured w1 = true).
    { unfold Config.core_ensure_nanograph_config in H.
      destruct (Config.core_config_ensured w) eqn:Hw; simpl in H; [by simplify_eq|].
      destruct (Config.core_validate_nanograph_cache_dir O home w) as [w0 [e|[]]];
        by simplify_eq. }
    unfold Config.core_ensure_nanograph_config. by rewrite Hflag, Hset.
Qed.

Lemma ensure_nanograph_config_once_witness :
  Config.ensure_nanograph_config refusing "/home/u"
    {| Config.files := ∅; Config.sinks := []; Config.config_ensured := true;
       Config.core_config_ensured := false |}
  = ({| Config.files := ∅; Config.sinks := []; Config.config_ensured := true;
        Config.core_config_ensured := false |}, inr tt).
Proof.
  eapply (ensure_nanograph_config_once granting refusing "/home/u" fresh_world).
  - reflexivity.
  - reflexivity.
Defined.

(** X19.  The two versions of [validate_nanograph_cache_dir] do the same on
    every file system in which the log file exists only if the cache
    directory does: same paths, same sinks. *)
Theorem validate_versions_agree (O : Config.os) (home : string) (w : Config.world) :
  (Config.log_file home ∈ Config.files w → Config.cache_dir home ∈ Config.files w) →
  Config.validate_nanograph_cache_dir O home w
  = Config.core_validate_nanograph_cache_dir O home w.
Proof.
  intros Hfs.
  unfold Config.validate_nanograph_cache_dir, Config.core_validate_nanograph_cache_dir.
  destruct (Config.path_exists (Config.cache_dir home) w) eqn:Hc; simpl; [done|].
  apply path_exists_false in Hc.
  destruct (Config.makedirs O (Config.cache_dir home) w) as [w1 [e|[]]] eqn:Hm; [done|].
  assert (Hlog : Config.path_exists (Config.log_file home) w1 = false).
  { apply path_exists_false. unfold Config.makedirs in Hm.
    destruct (Config.path_exists (Config.cache_dir home) w); [done|].
    destruct (Config.makedirs_refused O (Config.cache_dir home) w); simplify_eq.
    simpl. intros [[Hin%elem_of_singleton|Hin%elem_of_list_to_set]%elem_of_union
                  |Hin]%elem_of_union.
    - by apply log_file_not_cache_dir in Hin.
    - by apply log_file_not_above_cache_dir in Hin.
    - auto. }
  by rewrite Hlog.
Qed.

Lemma validate_versions_agree_witness :
  Config.validate_nanograph_cache_dir granting "/home/u" fresh_world
  = Config.core_validate_nanograph_cache_dir granting "/home/u" fresh_world.
Proof.
  apply (validate_versions_agree granting "/home/u" fresh_world).
  simpl. intros Hin. by apply elem_of_empty in Hin.
Defined.

(** X20.  [get_logger] removes no path.  If it returns, the console handler
    is the only sink of the logger: the file sink of the log file, which
    [ensure_nanograph_config] may have added in the same call, is removed
    with the others; and the flag of [_utils/core.py] is set.  It raises
    only while that flag is unset (when the operating system refuses the
    directory or the log file); the flag is then still unset and the sinks
    are as they were. *)
Theorem get_logger_console_only
    (O : Config.os) (home : string) (w w1 : Config.world) (r : Config.os_error + unit) :
  Config.get_logger O home w = (w1, r) →
  Config.files w ⊆ Config.files w1 ∧
  match r with
  | inr _ => Config.sinks w1 = [Config.RichSink] ∧ Config.core_config_ensured w1 = true
  | inl _ => Config.core_config_ensured w = false ∧
             Config.core_config_ensured w1 = false ∧
             Config.sinks w1 = Config.sinks w
  end.
Proof.
  unfold Config.get_logger, Config.core_ensure_nanograph_config. intros H.
  destruct (Config.core_config_ensured w) eqn:Hw; simpl in H.
  - by simplify_eq.
  - destruct (Config.core_validate_nanograph_cache_dir O home w) as [w0 [e|[]]] eqn:Hv;
      apply validate_outcome_core in Hv as (Hsub & H1 & H2 & Hr); simplify_eq; simpl.
    + split_and!; [done..|congruence|done].
    + by split_and!.
Qed.

Lemma get_logger_console_only_witness :
  Config.files fresh_world ⊆ Config.files (Config.get_logger refusing "/home/u" fresh_world).1 ∧
  match (Config.get_logger refusing "/home/u" fresh_world).2 with
  | inr _ =>
      Config.sinks (Config.get_logger refusing "/home/u" fresh_world).1 = [Config.RichSink] ∧
      Config.core_config_ensured (Config.get_logger refusing "/home/u" fresh_world).1 = true
  | inl _ =>
      Config.core_config_ensured fresh_world = false ∧
      Config.core_config_ensured (Config.get_logger refusing "/home/u" fresh_world).1 = false ∧
      Config.sinks (Config.get_logger refusing "/home/u" fresh_world).1
      = Config.sinks fresh_world
  end.
Proof.
  apply (get_logger_console_only refusing "/home/u" fresh_world).
  reflexivity.
Defined.

(** ** The logging decorator *)

Lemma announce_not_core prefix prefix_color level name c :
  prefix ≠ "CORE" →
  Logging.announce prefix prefix_color level name c
  = ([Logging.Log level (Logging.executing prefix prefix_color name)], false).
Proof. intros Hp. unfold Logging.announce. by rewrite decide_False. Qed.

Lemma announce_calls prefix prefix_color level name c :
  (prefix = "CORE" → c ≠ Logging.NoBack) →
  ∃ evs, Logging.announce prefix prefix_color level name c = (evs, false).
Proof.
  intros Hc. unfold Logging.announce. destruct (decide (prefix = "CORE")) as [Hp|Hp].
  - specialize (Hc Hp). destruct c; by eauto.
  - by eauto.
Qed.

Lemma wrapper_calls {S X A : Type} prefix prefix_color level name (E : Logging.env X)
    (func : S → S * (X + A)) s trace :
  (prefix = "CORE" → Logging.who E ≠ Logging.NoBack) →
  ∃ evs,
    Logging.wrapper prefix prefix_color level name E func s trace
    = ((func s).1,
       trace ++ evs ++
         [match (func s).2 with
          | inr _ => Logging.Log level
                       (Logging.completed prefix prefix_color name (Logging.duration E))
          | inl e => Logging.Log Logging.ERROR
                       (Logging.failed prefix name (Logging.text_of E (Logging.Raised e)))
          end],
       match (func s).2 with
       | inr a => inr a
       | inl e => inl (Logging.Raised e)
       end).
Proof.
  intros Hc.
  destruct (announce_calls prefix prefix_color level name _ Hc) as [evs Hevs].
  exists evs. unfold Logging.wrapper. rewrite Hevs.
  by destruct (func s) as [s' [e|a]].
Qed.



(** X22.  [get_litellm_resource], the singleton getter under
    [decorators.core], is a singleton getter still: once a call has returned
    an object, every later call whose wrapper frame has a caller returns
    that same object, leaves globals and store as they are, and only adds
    events to the log. *)
Theorem get_litellm_resource_singleton
    (E E' : Logging.env Resource.error) (new_resource new_resource' : M val)
    (g g1 : Resource.globals) (h h1 h2 : heap) (trace trace1 trace2 : list Logging.event)
    (r : val) :
  Logging.get_litellm_resource E new_resource (g, h) trace = ((g1, h1), trace1, inr r) →
  Logging.who E' ≠ Logging.NoBack →
  ∃ evs,
    Logging.get_litellm_resource E' new_resource' (g1, h2) trace2
    = ((g1, h2), trace2 ++ evs, inr r).
Proof.
  intros Hfirst Hwho.
  assert (Hrun : Resource.get_resource new_resource g h = (g1, h1, inr r)).
  { unfold Logging.get_litellm_resource, Logging.core, Logging.wrapper in Hfirst.
    destruct (Logging.announce _ _ _ _ _) as [evs [|]]; [done|].
    simpl in Hfirst.
    destruct (Resource.get_resource new_resource g h) as [[g' h'] [e|r']];
      by simplify_eq. }
  pose proof (get_resource_again _ new_resource' _ _ _ _ h2 _ Hrun) as Hagain.
  destruct (wrapper_calls "CORE" "red" 50 "get_litellm_resource" E'
              (λ s, let '(g, h, r) := Resource.get_resource new_resource' s.1 s.2
                    in ((g, h), r)) (g1, h2) trace2 (λ _, Hwho)) as [evs Hevs].
  simpl in Hevs. rewrite Hagain in Hevs. simpl in Hevs.
  eexists. unfold Logging.get_litellm_resource, Logging.core. rewrite Hevs. done.
Qed.

Lemma get_litellm_resource_singleton_witness :
  ∃ evs,
    Logging.get_litellm_resource
      {| Logging.who := Logging.NoCaller; Logging.duration := "0.00";
         Logging.text_of := λ _, "" |}
      (raise TypeError)
      ({| Resource.litellm_initialized := true; Resource.resource_instance := VRef 0 |},
       [ODict ∅; OList []]) []
    = (({| Resource.litellm_initialized := true; Resource.resource_instance := VRef 0 |},
        [ODict ∅; OList []]), [] ++ evs, inr (VRef 0)).
Proof.
  eapply (get_litellm_resource_singleton
           {| Logging.who := Logging.InModule "app"; Logging.duration := "0.00";
              Logging.text_of := λ _, "" |}
           {| Logging.who := Logging.NoCaller; Logging.duration := "0.00";
              Logging.text_of := λ _, "" |}
           (alloc (ODict ∅)) (raise TypeError) Resource.initial _ [] [ODict ∅] _ [] _ []).
  - reflexivity.
  - done.
Defined.

(** ** Formatting twice *)

(** X23.  [format_messages] of [_utils/messages.py] is idempotent: applied
    to what it has returned, in the store it has left, it returns that very
    object again and changes nothing. *)
Theorem utils_format_messages_idempotent (v : val) (h h1 : heap) (r : val) :
  Utils.format_messages v h = (h1, inr r) →
  Utils.format_messages r h1 = (h1, inr r).
Proof.
  intros H. pose proof H as Hrun. apply utils_format_ok_inv in H
    as [(s & -> & -> & ->)|[(l & d & r0 & -> & Hl & Hr & -> & ->)
       |[(l & items & -> & Hl & Hne & Hitems & -> & ->)
        |(l & first & rest & -> & Hl & Hfirst & Hthreads & -> & ->)]]];
    [| |exact Hrun..].
  - eapply utils_format_thread_identity; [apply lookup_new_record|done|].
    repeat constructor. exists (VStr "user"). simpl. by rewrite lookup_new_list.
  - eapply utils_format_thread_identity; [apply lookup_middle_eq|done|].
    repeat constructor. apply has_role_app. exists r0. simpl. by rewrite Hl.
Qed.

Lemma utils_format_messages_idempotent_witness :
  Utils.format_messages (VRef 1) [record "user" "hi"; OList [VRef 0]]
  = ([record "user" "hi"; OList [VRef 0]], inr (VRef 1)).
Proof.
  apply (utils_format_messages_idempotent (VStr "hi") []).
  reflexivity.
Defined.
